(** * A file-persisted publish/subscribe broker: model and properties

    Shallow embedding of [src/fileSystem.ts]: the JSON persistence helpers
    ([readJSON], [writeJSON]), the subscriber registry, the per-subscriber
    queue documents and the delivery loop ([executeEventHandler],
    [tryProcessing], [incrementTries], [eventAcknowledged]) together with
    the publishing side ([publish], [persistEvent],
    [persistEventsInSubscriberQueues]).

    Asynchronous code is embedded as a state-and-exception monad over a
    [World] that holds the directory [./message-broker/], the in-memory
    registries of the module, a logical clock and the chronological list of
    observable effects.  Promises that the source starts concurrently are
    run to completion one after the other, in the order they are started. *)

From stdpp Require Import gmap strings list fin_maps.
From Stdlib Require Import Lia.

Set Default Proof Using "Type".

(** ** Enumerations *)

Inductive Domain := INVENTORY | ORDER | PAYMENT | DELIVERY | NOTIFICATION.

Inductive Topic :=
  | ORDER_CREATED
  | PAYMENT_SUCCESS
  | PRODUCTS_READY
  | ORDER_SHIPPING_READY
  | INVOICE_READY
  | PAY_SUCCESS_MESSAGE_DELIVERED.

#[global] Instance Domain_eq_dec : EqDecision Domain.
Proof. solve_decision. Defined.

#[global] Instance Topic_eq_dec : EqDecision Topic.
Proof. solve_decision. Defined.

(** The string value of each enum member, as used in template literals. *)
Definition Domain_str (d : Domain) : string :=
  match d with
  | INVENTORY => "INVENTORY"
  | ORDER => "ORDER"
  | PAYMENT => "PAYMENT"
  | DELIVERY => "DELIVERY"
  | NOTIFICATION => "NOTIFICATION"
  end.

Definition Topic_str (t : Topic) : string :=
  match t with
  | ORDER_CREATED => "ORDER_CREATED"
  | PAYMENT_SUCCESS => "PAYMENT_SUCCESS"
  | PRODUCTS_READY => "PRODUCTS_READY"
  | ORDER_SHIPPING_READY => "ORDER_SHIPPING_READY"
  | INVOICE_READY => "INVOICE_READY"
  | PAY_SUCCESS_MESSAGE_DELIVERED => "PAY_SUCCESS_MESSAGE_DELIVERED"
  end.

(** ** Persisted documents *)

(** An element of [EventLog.events]. *)
Module Logged.
Record t := mk { parentId : string; eventId : string; content : string }.
End Logged.

(** An element of [DomainTopicQueue.processingEvents]. *)
Module Processing.
Record t := mk { eventId : string; content : string; tries : nat }.
End Processing.

(** An element of [DomainTopicQueue.processedEvents]; [processedAt] is the
    reading of the logical clock when the entry was made. *)
Module Processed.
Record t := mk { eventId : string; tries : nat; processedAt : N }.
End Processed.

#[global] Instance Processing_eq_dec : EqDecision Processing.t.
Proof. solve_decision. Defined.

(** [events-${topic}.json] *)
Record EventLog := {
  log_topic : Topic;
  events : list Logged.t
}.

(** [queue-${domain}-${topic}.json] *)
Record DomainTopicQueue := {
  queue_subscriber : Domain;
  queue_topic : Topic;
  processedEvents : list Processed.t;
  processingEvents : list Processing.t
}.

(** [subscription-error.json] *)
Record DomainTopicErrors := {
  err_subscriber : Domain;
  err_topic : Topic;
  err_eventId : string;
  err_message : string;
  err_code : string;
  err_trace : string
}.

(** [dead-letter-queue.json] *)
Record DeadLetterQueue := {
  dl_eventId : string;
  dl_topic : Topic;
  dl_subscriber : Domain
}.

(** The directory [./message-broker/].  The file names the program uses
    fall into families with different prefixes ([queue-], [events-]) and
    two fixed names; each family is kept with the type of its documents.
    A component is [None] (or has no binding) when the file does not exist,
    which is what [readJSON] reports as [null]. *)
Record FileSystem := {
  queueFiles : gmap string DomainTopicQueue;
  eventFiles : gmap string EventLog;
  deadLetterFile : option (list DeadLetterQueue);
  errorFile : option (list DomainTopicErrors)
}.

(** ** In-memory state of the module *)

(** Elements of the module-level arrays [subscribers] and [topics]. *)
Record SubscriberObj := { so_subscriber : Domain; so_topics : list Topic }.
Record TopicObj := { to_topic : Topic; to_subscribers : list Domain }.

(** A caller-supplied [eventHandler].  Its outcome may depend on its
    arguments and on how many handler invocations the process has made so
    far; [true] is a promise that resolves, [false] one that rejects.
    A handler of the model settles, and apart from its outcome it leaves
    the directory and the tables of the module alone: a handler that
    publishes, or whose promise never settles, is outside the model, and
    the statements that depend on this say so. *)
Definition Handler := nat → string → string → bool.

(** A callback registered with [emitter.on]; it closes over the handler,
    the subscriber and the topic. *)
Record Listener := {
  l_topic : Topic;
  l_subscriber : Domain;
  l_handler : Handler
}.

(** Observable effects, in the order they happen. *)
Inductive Effect :=
  | SetTimeout (ms : N)
  | WriteQueue (fileName : string) (doc : DomainTopicQueue)
  | WriteLog (fileName : string) (doc : EventLog)
  | Invoke (eventId content : string) (resolved : bool).

Record World := {
  disk : FileSystem;
  subscribers : list SubscriberObj;
  topics : list TopicObj;
  listeners : list Listener;
  now : N;
  invocations : nat;
  trace : list Effect
}.

Definition emptyDisk : FileSystem :=
  {| queueFiles := ∅; eventFiles := ∅; deadLetterFile := None; errorFile := None |}.

Definition initialWorld : World :=
  {| disk := emptyDisk; subscribers := []; topics := []; listeners := [];
     now := 0%N; invocations := 0; trace := [] |}.

(** ** Errors and the promise monad *)

(** What a rejected promise carries.  The source throws plain [Error]
    values told apart by their message; [EventNotFoundError] also stands
    for the [TypeError] of dereferencing the [undefined] that [find]
    returns in [incrementTries]. *)
Inductive Error :=
  | DuplicateSubscriberError (subscriber : Domain)
  | DuplicateSubscriptionError (subscriber : Domain) (topic : Topic)
  | QueueNotFoundError (fileName : string)
  | EventNotFoundError (eventId : string)
  | HandlerError (eventId : string).

Inductive Result (A : Type) :=
  | Resolved (a : A)
  | Rejected (e : Error).
Arguments Resolved {A} a.
Arguments Rejected {A} e.

Definition Promise (A : Type) : Type := World → Result A * World.

Definition ret {A} (a : A) : Promise A := λ w, (Resolved a, w).

Definition throw {A} (e : Error) : Promise A := λ w, (Rejected e, w).

Definition bind {A B} (m : Promise A) (k : A → Promise B) : Promise B :=
  λ w, match m w with
       | (Resolved a, w') => k a w'
       | (Rejected e, w') => (Rejected e, w')
       end.

(** [m.then(onOk).catch(onErr)] for handlers that do not throw. *)
Definition thenCatch {A B} (m : Promise A) (onOk : A → B) (onErr : Error → B)
  : Promise B :=
  λ w, match m w with
       | (Resolved a, w') => (Resolved (onOk a), w')
       | (Rejected e, w') => (Resolved (onErr e), w')
       end.

Declare Scope promise_scope.
Delimit Scope promise_scope with promise.
Bind Scope promise_scope with Promise.

Notation "'await' x ':=' m 'in' k" := (bind m (λ x, k))
  (at level 10, x name, m at level 100, k at level 200) : promise_scope.
Notation "m '>>' k" := (bind m (λ _, k))
  (at level 100, k at level 200, right associativity) : promise_scope.

Local Open Scope promise_scope.

(** Run the promises made from the elements of a list one after the
    other; a rejection ends the run. *)
Fixpoint forEach {A} (f : A → Promise unit) (l : list A) : Promise unit :=
  match l with
  | [] => ret tt
  | x :: l' => f x >> forEach f l'
  end.

(** ** Record updates *)

Definition withDisk (d : FileSystem) (w : World) : World :=
  {| disk := d; subscribers := subscribers w; topics := topics w;
     listeners := listeners w; now := now w; invocations := invocations w;
     trace := trace w |}.

Definition withSubscribers (l : list SubscriberObj) (w : World) : World :=
  {| disk := disk w; subscribers := l; topics := topics w;
     listeners := listeners w; now := now w; invocations := invocations w;
     trace := trace w |}.

Definition withTopics (l : list TopicObj) (w : World) : World :=
  {| disk := disk w; subscribers := subscribers w; topics := l;
     listeners := listeners w; now := now w; invocations := invocations w;
     trace := trace w |}.

Definition withListeners (l : list Listener) (w : World) : World :=
  {| disk := disk w; subscribers := subscribers w; topics := topics w;
     listeners := l; now := now w; invocations := invocations w;
     trace := trace w |}.

Definition withNow (n : N) (w : World) : World :=
  {| disk := disk w; subscribers := subscribers w; topics := topics w;
     listeners := listeners w; now := n; invocations := invocations w;
     trace := trace w |}.

Definition withInvocations (n : nat) (w : World) : World :=
  {| disk := disk w; subscribers := subscribers w; topics := topics w;
     listeners := listeners w; now := now w; invocations := n;
     trace := trace w |}.

Definition logged (e : Effect) (w : World) : World :=
  {| disk := disk w; subscribers := subscribers w; topics := topics w;
     listeners := listeners w; now := now w; invocations := invocations w;
     trace := trace w ++ [e] |}.

Definition withQueueFiles (m : gmap string DomainTopicQueue) (d : FileSystem)
  : FileSystem :=
  {| queueFiles := m; eventFiles := eventFiles d;
     deadLetterFile := deadLetterFile d; errorFile := errorFile d |}.

Definition withProcessingEvents (l : list Processing.t)
    (q : DomainTopicQueue) : DomainTopicQueue :=
  {| queue_subscriber := queue_subscriber q; queue_topic := queue_topic q;
     processedEvents := processedEvents q; processingEvents := l |}.

Definition withProcessedEvents (l : list Processed.t)
    (q : DomainTopicQueue) : DomainTopicQueue :=
  {| queue_subscriber := queue_subscriber q; queue_topic := queue_topic q;
     processedEvents := l; processingEvents := processingEvents q |}.

Definition withEventFiles (m : gmap string EventLog) (d : FileSystem)
  : FileSystem :=
  {| queueFiles := queueFiles d; eventFiles := m;
     deadLetterFile := deadLetterFile d; errorFile := errorFile d |}.

(** ** Persistence layer *)

(** The document types [readJSON<T>] and [writeJSON<T>] are used at: where
    the files of that type live, and the effect a write leaves behind. *)
Class Document (T : Type) := {
  stored : FileSystem → gmap string T;
  store : gmap string T → FileSystem → FileSystem;
  written : string → T → Effect
}.

#[global] Instance DomainTopicQueue_Document : Document DomainTopicQueue :=
  {| stored := queueFiles; store := withQueueFiles; written := WriteQueue |}.

#[global] Instance EventLog_Document : Document EventLog :=
  {| stored := eventFiles; store := withEventFiles; written := WriteLog |}.

(** [readJSON] resolves with [null] when the file does not exist
    ([ENOENT]).  A file that exists holds a document of its type.  Other
    I/O failures are outside the model, and so is a file that does not
    parse: for such a file [JSON.parse] throws in the callback of
    [fs.readFile], outside the promise, which then never settles. *)
Definition readJSON {T} `{Document T} (fileName : string) : Promise (option T) :=
  λ w, (Resolved (stored (disk w) !! fileName), w).

(** [writeJSON] replaces the file wholesale and resolves with the content. *)
Definition writeJSON {T} `{Document T} (fileName : string) (content : T)
  : Promise T :=
  λ w, (Resolved content,
        logged (written fileName content)
          (withDisk (store (<[fileName := content]> (stored (disk w))) (disk w)) w)).

(** [`queue-${subscriber}-${topic}.json`] *)
Definition queueFileName (subscriber : Domain) (topic : Topic) : string :=
  "queue-" +:+ Domain_str subscriber +:+ "-" +:+ Topic_str topic +:+ ".json".

(** [`events-${topic}.json`] *)
Definition eventsFileName (topic : Topic) : string :=
  "events-" +:+ Topic_str topic +:+ ".json".

Arguments queueFileName : simpl never.
Arguments eventsFileName : simpl never.

(** ** Timers, clock and handler calls *)

(** [setTimeout(..., ms)]: the continuation runs once [ms] have passed. *)
Definition setTimeout (ms : N) : Promise unit :=
  λ w, (Resolved tt, logged (SetTimeout ms) (withNow (now w + ms)%N w)).

(** [new Date()] *)
Definition newDate : Promise N := λ w, (Resolved (now w), w).

(** [await eventHandler(parentId, content)] *)
Definition callHandler (eventHandler : Handler) (parentId content : string)
  : Promise unit :=
  λ w, let ok := eventHandler (invocations w) parentId content in
       let w' := logged (Invoke parentId content ok)
                   (withInvocations (S (invocations w)) w) in
       if ok then (Resolved tt, w') else (Rejected (HandlerError parentId), w').

(** ** Queue operations *)

Definition hasEventId (eventId : string) (v : Processing.t) : Prop :=
  Processing.eventId v = eventId.

#[global] Instance hasEventId_dec eventId v : Decision (hasEventId eventId v).
Proof. unfold hasEventId. apply _. Defined.

(** [v.tries++] on an element of [processingEvents]. *)
Definition bumped (v : Processing.t) : Processing.t :=
  Processing.mk (Processing.eventId v) (Processing.content v)
    (S (Processing.tries v)).

Definition incrementTries (subscriber : Domain) (topic : Topic)
    (eventId : string) : Promise unit :=
  let fileName := queueFileName subscriber topic in
  await topicLogs := readJSON fileName in
  match topicLogs with
  | None => throw (QueueNotFoundError fileName)
  | Some topicLogs =>
      match list_find (hasEventId eventId) (processingEvents topicLogs) with
      | None => throw (EventNotFoundError eventId)
      | Some (i, v) =>
          writeJSON fileName
            (withProcessingEvents
               (<[i := bumped v]> (processingEvents topicLogs)) topicLogs)
          >> ret tt
      end
  end.

Definition eventAcknowledged (subscriber : Domain) (topic : Topic)
    (parentId : string) : Promise unit :=
  let fileName := queueFileName subscriber topic in
  await domainTopicQueue := readJSON fileName in
  match domainTopicQueue with
  | None => throw (QueueNotFoundError fileName)
  | Some domainTopicQueue =>
      match list_find (hasEventId parentId)
              (processingEvents domainTopicQueue) with
      | None => throw (EventNotFoundError parentId)
      | Some (index, processedEvent) =>
          (* splice(index, 1) *)
          let spliced := delete index (processingEvents domainTopicQueue) in
          await processedAt := newDate in
          writeJSON fileName
            (withProcessingEvents
               (filter (λ v, ¬ hasEventId parentId v) spliced)
               (withProcessedEvents
                  (processedEvents domainTopicQueue ++
                   [Processed.mk parentId (Processing.tries processedEvent)
                      processedAt])
                  domainTopicQueue))
          >> ret tt
      end
  end.

(** ** Delivery *)

Definition tryProcessing (subscriber : Domain) (topic : Topic)
    (parentId content : string) (eventHandler : Handler) (isRetry : bool)
  : Promise unit :=
  if isRetry then
    setTimeout 5000%N >>
    incrementTries subscriber topic parentId >>
    callHandler eventHandler parentId content >>
    eventAcknowledged subscriber topic parentId
  else
    incrementTries subscriber topic parentId >>
    callHandler eventHandler parentId content >>
    eventAcknowledged subscriber topic parentId.

(** The [while (!acked && triesCount < 5)] loop of [executeEventHandler].
    [fuel] bounds the number of iterations; [triesCount] grows by one in
    each, so [5 - triesCount] iterations are all the loop can make (see
    [whileLoop_fuel]). *)
Fixpoint whileLoop (fuel : nat) (eventHandler : Handler) (subscriber : Domain)
    (topic : Topic) (content : string) (tries : nat) (parentId : string)
    (acked : bool) (triesCount : nat) : Promise unit :=
  match fuel with
  | 0 => ret tt
  | S fuel' =>
      if negb acked && (triesCount <? 5) then
        let triesCount := S triesCount in
        await acked :=
          thenCatch
            (tryProcessing subscriber topic parentId content eventHandler
               (negb (triesCount =? tries)))
            (λ _, true) (λ _, acked) in
        whileLoop fuel' eventHandler subscriber topic content tries parentId
          acked triesCount
      else ret tt
  end.

Definition executeEventHandler (eventHandler : Handler) (subscriber : Domain)
    (topic : Topic) (content : string) (tries : nat) (parentId : string)
  : Promise unit :=
  whileLoop 5 eventHandler subscriber topic content tries parentId false tries.

(** ** Subscribing *)

Definition getSubscribers : Promise (list SubscriberObj) :=
  λ w, (Resolved (subscribers w), w).

Definition setSubscribers (l : list SubscriberObj) : Promise unit :=
  λ w, (Resolved tt, withSubscribers l w).

Definition getTopics : Promise (list TopicObj) :=
  λ w, (Resolved (topics w), w).

Definition setTopics (l : list TopicObj) : Promise unit :=
  λ w, (Resolved tt, withTopics l w).

Definition getListeners : Promise (list Listener) :=
  λ w, (Resolved (listeners w), w).

(** [emitter.on(`domain-event-${topic}`, ...)] *)
Definition emitterOn (l : Listener) : Promise unit :=
  λ w, (Resolved tt, withListeners (listeners w ++ [l]) w).

(** The entry a freshly created queue holds for a logged event. *)
Definition seeded (e : Logged.t) : Processing.t :=
  Processing.mk (Logged.eventId e) (Logged.content e) 0.

(** The queue document of a subscription: the one on disk when there is
    one, otherwise a new one made from the event log of the topic and
    written to disk (the statements of the subscription closure from
    [const fileName] up to the replay). *)
Definition loadDomainTopicQueue (subscriber : Domain) (topic : Topic)
  : Promise DomainTopicQueue :=
  let fileName := queueFileName subscriber topic in
  await domainTopicQueue := readJSON fileName in
  match domainTopicQueue with
  | Some domainTopicQueue => ret domainTopicQueue
  | None =>
      await topicLogs := readJSON (eventsFileName topic) in
      writeJSON fileName
        {| queue_subscriber := subscriber;
           queue_topic := topic;
           processedEvents := [];
           processingEvents :=
             match topicLogs with
             | Some topicLogs => seeded <$> events topicLogs
             | None => []
             end |}
  end.

(** [Promise.all(domainTopicQueue.processingEvents.map(...))].  The
    deliveries are run one at a time, in queue order.  The source starts
    them together; they all work on the same queue file, and where their
    reads and writes overlap a delivery can overwrite the update of
    another.  A statement below whose conclusion depends on the deliveries
    running one at a time says so. *)
Definition replay (eventHandler : Handler) (subscriber : Domain)
    (topic : Topic) (domainTopicQueue : DomainTopicQueue) : Promise unit :=
  forEach
    (λ v, executeEventHandler eventHandler subscriber topic
            (Processing.content v) (Processing.tries v)
            (Processing.eventId v))
    (processingEvents domainTopicQueue).

(** The closure [subscriberInitializer] returns.  It keeps a reference to
    the [subscriberObj] pushed on [subscribers]; as that array only grows,
    the reference is the position [ref] of the object in it. *)
Definition subscription (ref : nat) (subscriber : Domain) (topic : Topic)
    (eventHandler : Handler) : Promise unit :=
  await subs := getSubscribers in
  let subscriberObj :=
    default {| so_subscriber := subscriber; so_topics := [] |} (subs !! ref) in
  match list_find (λ v, v = topic) (so_topics subscriberObj) with
  | Some _ => throw (DuplicateSubscriptionError subscriber topic)
  | None =>
      setSubscribers
        (<[ref := {| so_subscriber := so_subscriber subscriberObj;
                     so_topics := so_topics subscriberObj ++ [topic] |}]> subs) >>
      await tops := getTopics in
      match list_find (λ t, to_topic t = topic) tops with
      | None =>
          setTopics (tops ++ [{| to_topic := topic;
                                 to_subscribers := [subscriber] |}])
      | Some (i, topicObj) =>
          setTopics
            (<[i := {| to_topic := to_topic topicObj;
                       to_subscribers :=
                         to_subscribers topicObj ++ [subscriber] |}]> tops)
      end >>
      await domainTopicQueue := loadDomainTopicQueue subscriber topic in
      replay eventHandler subscriber topic domainTopicQueue >>
      emitterOn {| l_topic := topic; l_subscriber := subscriber;
                   l_handler := eventHandler |}
  end.

Definition subscriberInitializer (subscriber : Domain)
  : Promise (Topic → Handler → Promise unit) :=
  await subs := getSubscribers in
  match list_find (λ v, so_subscriber v = subscriber) subs with
  | Some _ => throw (DuplicateSubscriberError subscriber)
  | None =>
      setSubscribers
        (subs ++ [{| so_subscriber := subscriber; so_topics := [] |}]) >>
      ret (subscription (length subs) subscriber)
  end.

(** ** Publishing *)

(** [persistEvent]; [eventId] is the value [uuid()] returns in the call. *)
Definition persistEvent (eventId : string) (topic : Topic)
    (content parentId : string) : Promise string :=
  let fileName := eventsFileName topic in
  await eventLogs := readJSON fileName in
  let eventLogs :=
    default {| log_topic := topic; events := [] |} eventLogs in
  writeJSON fileName
    {| log_topic := log_topic eventLogs;
       events := events eventLogs ++ [Logged.mk parentId eventId content] |} >>
  ret eventId.

(** The callback [persistEventsInSubscriberQueues] maps over the
    subscribers of the topic. *)
Definition persistInQueue (eventId : string) (topic : Topic)
    (content : string) (subscriber : Domain) : Promise unit :=
  let fileName := queueFileName subscriber topic in
  await logs := readJSON fileName in
  match logs with
  | None => ret tt
  | Some logs =>
      writeJSON fileName
        (withProcessingEvents
           (processingEvents logs ++ [Processing.mk eventId content 0]) logs)
      >> ret tt
  end.

Definition persistEventsInSubscriberQueues (eventId : string) (topic : Topic)
    (content : string) : Promise unit :=
  await tops := getTopics in
  match list_find (λ v, to_topic v = topic) tops with
  | None => ret tt
  | Some (_, topicObj) =>
      forEach (persistInQueue eventId topic content) (to_subscribers topicObj)
  end.

(** [emitter.emit(`domain-event-${topic}`, content, eventId)]: every
    listener of the topic starts [executeEventHandler] with [tries = 0].
    The deliveries are run one after the other, so the clock adds up their
    timers; the source starts them together, and with more than one
    listener the times it records differ from those here. *)
Definition emit (topic : Topic) (content eventId : string) : Promise unit :=
  await ls := getListeners in
  forEach
    (λ l, executeEventHandler (l_handler l) (l_subscriber l) (l_topic l)
            content 0 eventId)
    (filter (λ l, l_topic l = topic) ls).

(** [publish]; [eventId] is the value [uuid()] returns in [persistEvent]. *)
Definition publish (eventId : string) (parentId : string) (topic : Topic)
    (content : string) : Promise unit :=
  await eventId := persistEvent eventId topic content parentId in
  persistEventsInSubscriberQueues eventId topic content >>
  emit topic content eventId.

(** ** Notions used in the statements *)

Definition run {A} (m : Promise A) (w : World) : World := (m w).2.

Definition queueOf (subscriber : Domain) (topic : Topic) (w : World)
  : option DomainTopicQueue :=
  queueFiles (disk w) !! queueFileName subscriber topic.

Definition eventsOf (topic : Topic) (w : World) : list Logged.t :=
  match eventFiles (disk w) !! eventsFileName topic with
  | Some topicLogs => events topicLogs
  | None => []
  end.

Definition processingIds (q : DomainTopicQueue) : list string :=
  Processing.eventId <$> processingEvents q.

Definition processedIds (q : DomainTopicQueue) : list string :=
  Processed.eventId <$> processedEvents q.

(** No event id of [processingEvents] is also in [processedEvents]. *)
Definition exclusive (q : DomainTopicQueue) : Prop :=
  Forall (λ id, id ∉ processedIds q) (processingIds q).

Definition diskExclusive (d : FileSystem) : Prop :=
  map_Forall (λ _ q, exclusive q) (queueFiles d).

(** What is assumed of [uuid()]: the identifier it returns has not been
    used for an event that some queue has already processed. *)
Definition freshId (eventId : string) (d : FileSystem) : Prop :=
  map_Forall (λ _ q, eventId ∉ processedIds q) (queueFiles d).

(** The world after a queue document has been written. *)
Definition wrote (fileName : string) (q : DomainTopicQueue) (w : World)
  : World :=
  logged (WriteQueue fileName q)
    (withDisk (withQueueFiles (<[fileName := q]> (queueFiles (disk w)))
                 (disk w)) w).

(** The queue documents [incrementTries] and [eventAcknowledged] write. *)
Definition incremented (i : nat) (v : Processing.t) (q : DomainTopicQueue)
  : DomainTopicQueue :=
  withProcessingEvents (<[i := bumped v]> (processingEvents q)) q.

Definition acknowledged (index : nat) (v : Processing.t) (parentId : string)
    (processedAt : N) (q : DomainTopicQueue) : DomainTopicQueue :=
  withProcessingEvents
    (filter (λ v, ¬ hasEventId parentId v)
       (delete index (processingEvents q)))
    (withProcessedEvents
       (processedEvents q ++
        [Processed.mk parentId (Processing.tries v) processedAt]) q).

Definition enqueued (eventId content : string) (q : DomainTopicQueue)
  : DomainTopicQueue :=
  withProcessingEvents
    (processingEvents q ++ [Processing.mk eventId content 0]) q.

(** One move of the broker: a queue operation on its own, in any order
    and with any arguments, or a call of the public interface.  Event ids
    that enter the queues through publishing come from [uuid()]. *)
Inductive step : World → World → Prop :=
  | step_load subscriber topic w :
      step w (run (loadDomainTopicQueue subscriber topic) w)
  | step_fanout eventId topic content w :
      freshId eventId (disk w) →
      step w (run (persistEventsInSubscriberQueues eventId topic content) w)
  | step_increment subscriber topic eventId w :
      step w (run (incrementTries subscriber topic eventId) w)
  | step_acknowledge subscriber topic eventId w :
      step w (run (eventAcknowledged subscriber topic eventId) w)
  | step_deliver eventHandler subscriber topic content tries eventId w :
      step w (run (executeEventHandler eventHandler subscriber topic content
                     tries eventId) w)
  | step_register subscriber w :
      step w (run (subscriberInitializer subscriber) w)
  | step_subscribe ref subscriber topic eventHandler w :
      step w (run (subscription ref subscriber topic eventHandler) w)
  | step_publish eventId parentId topic content w :
      freshId eventId (disk w) →
      step w (run (publish eventId parentId topic content) w).

Definition reachable (w : World) : Prop := rtc step initialWorld w.

(** The world when a timer of [ms] fires. *)
Definition afterTimeout (ms : N) (w : World) : World :=
  logged (SetTimeout ms) (withNow (now w + ms)%N w).

(** The world after the handler has been called. *)
Definition invoked (eventHandler : Handler) (parentId content : string)
    (w : World) : World :=
  logged (Invoke parentId content (eventHandler (invocations w) parentId content))
    (withInvocations (S (invocations w)) w).

(** A delivery attempt on entry [v], found at position [i] of the queue
    [q] of (subscriber, topic), up to and including the handler call ... *)
Definition attempted (subscriber : Domain) (topic : Topic)
    (parentId content : string) (eventHandler : Handler) (w : World)
    (q : DomainTopicQueue) (i : nat) (v : Processing.t) (isRetry : bool)
  : World :=
  invoked eventHandler parentId content
    (wrote (queueFileName subscriber topic) (incremented i v q)
       (if isRetry then afterTimeout 5000%N w else w)).

(** ... and the acknowledgement that follows when the handler resolves. *)
Definition delivered (subscriber : Domain) (topic : Topic)
    (parentId content : string) (eventHandler : Handler) (w : World)
    (q : DomainTopicQueue) (i : nat) (v : Processing.t) (isRetry : bool)
  : World :=
  wrote (queueFileName subscriber topic)
    (acknowledged i (bumped v) parentId
       (if isRetry then (now w + 5000)%N else now w) (incremented i v q))
    (attempted subscriber topic parentId content eventHandler w q i v isRetry).

(** Why a queue operation on [(subscriber, topic, eventId)] cannot go
    through, with the error that is expected then. *)
Inductive notDeliverable (subscriber : Domain) (topic : Topic)
    (eventId : string) (w : World) : Error → Prop :=
  | queue_missing :
      queueOf subscriber topic w = None →
      notDeliverable subscriber topic eventId w
        (QueueNotFoundError (queueFileName subscriber topic))
  | event_absent q :
      queueOf subscriber topic w = Some q →
      eventId ∉ processingIds q →
      notDeliverable subscriber topic eventId w (EventNotFoundError eventId).

(** The queue document of (subscriber, topic) exists and has [v] among
    its [processingEvents]. *)
Definition holdsEntry (subscriber : Domain) (topic : Topic)
    (v : Processing.t) (d : FileSystem) : Prop :=
  ∃ q, queueFiles d !! queueFileName subscriber topic = Some q ∧
       v ∈ processingEvents q.

(** Entry [v] after [n] more attempts have been started on it. *)
Definition retried (n : nat) (v : Processing.t) : Processing.t :=
  Processing.mk (Processing.eventId v) (Processing.content v)
    (Processing.tries v + n).

(** The queue document made for a new subscription from the event log
    of its topic. *)
Definition backfilled (subscriber : Domain) (topic : Topic) (w : World)
  : DomainTopicQueue :=
  {| queue_subscriber := subscriber; queue_topic := topic;
     processedEvents := [];
     processingEvents := seeded <$> eventsOf topic w |}.

(** An effect that is not a write to the given file. *)
Definition sparesFile (fileName : string) (e : Effect) : Prop :=
  match e with
  | WriteQueue fileName' _ => fileName' ≠ fileName
  | _ => True
  end.

(** The directory is exclusive and [eventId] is fresh in it. *)
Definition exclusiveAndFresh (eventId : string) (d : FileSystem) : Prop :=
  diskExclusive d ∧ freshId eventId d.

(** ** Writes that follow reads that are out of date

    Between the [readJSON] and the [writeJSON] of a queue operation other
    operations on the same file may complete, so the document an operation
    writes can derive from any earlier version of the file.  The relations
    below keep, for each queue file, every version it has had, and let a
    write start from any of them. *)

(** What a queue operation writes when it has read [q]: the documents of
    [incrementTries_found], [eventAcknowledged_found] and
    [persistInQueue_eq]. *)
Inductive rewrites (fresh : string → Prop)
  : DomainTopicQueue → DomainTopicQueue → Prop :=
  | rewrites_increment q eventId i v :
      list_find (hasEventId eventId) (processingEvents q) = Some (i, v) →
      rewrites fresh q (incremented i v q)
  | rewrites_acknowledge q parentId i v processedAt :
      list_find (hasEventId parentId) (processingEvents q) = Some (i, v) →
      rewrites fresh q (acknowledged i v parentId processedAt q)
  | rewrites_enqueue q eventId content :
      fresh eventId →
      rewrites fresh q (enqueued eventId content q).

(** No version of any file has [eventId] among its processed events. *)
Definition neverProcessed (h : gmap string (list DomainTopicQueue))
    (eventId : string) : Prop :=
  ∀ fileName versions q,
    h !! fileName = Some versions → q ∈ versions → eventId ∉ processedIds q.

Inductive racyStep
  : gmap string (list DomainTopicQueue) →
    gmap string (list DomainTopicQueue) → Prop :=
  | racy_create fileName q h :
      processedEvents q = [] →
      racyStep h (<[fileName := q :: default [] (h !! fileName)]> h)
  | racy_write fileName versions q q' h :
      h !! fileName = Some versions →
      q ∈ versions →
      rewrites (neverProcessed h) q q' →
      racyStep h (<[fileName := q' :: versions]> h).

(** Every version of every file is exclusive. *)
Definition historyExclusive (h : gmap string (list DomainTopicQueue)) : Prop :=
  ∀ fileName versions q,
    h !! fileName = Some versions → q ∈ versions → exclusive q.

(** ** Worlds used in examples *)

(** One event published to [ORDER_CREATED] before anyone subscribed; then
    the queue of [PAYMENT] for that topic is created from the log. *)
Definition demoQueue : DomainTopicQueue :=
  {| queue_subscriber := PAYMENT; queue_topic := ORDER_CREATED;
     processedEvents := [];
     processingEvents := [Processing.mk "e1" "x" 0] |}.

Definition demoWorld : World :=
  run (publish "e1" "p0" ORDER_CREATED "x" >>
       loadDomainTopicQueue PAYMENT ORDER_CREATED) initialWorld.

(** A queue restored from an earlier run: one entry has used up its five
    attempts, the other has never been tried. *)
Definition restoredQueue : DomainTopicQueue :=
  {| queue_subscriber := PAYMENT; queue_topic := ORDER_CREATED;
     processedEvents := [];
     processingEvents := [Processing.mk "e1" "x" 5; Processing.mk "e2" "y" 0] |}.

Definition restoredWorld : World :=
  wrote (queueFileName PAYMENT ORDER_CREATED) restoredQueue initialWorld.

(** [PAYMENT] and [INVENTORY] are bound to [ORDER_CREATED] in the
    registry, but only [INVENTORY] has a queue document. *)
Definition inventoryQueue : DomainTopicQueue :=
  {| queue_subscriber := INVENTORY; queue_topic := ORDER_CREATED;
     processedEvents := []; processingEvents := [] |}.

Definition boundWorld : World :=
  withTopics
    [{| to_topic := ORDER_CREATED; to_subscribers := [PAYMENT; INVENTORY] |}]
    (wrote (queueFileName INVENTORY ORDER_CREATED) inventoryQueue initialWorld).

(** The world after [PAYMENT] has subscribed to [ORDER_CREATED] with a
    handler that resolves and one event has been published. *)
Definition servedWorld : World :=
  run (publish "e1" "p0" ORDER_CREATED "x")
    (run (subscription 0 PAYMENT ORDER_CREATED (λ _ _ _, true))
       (run (subscriberInitializer PAYMENT) initialWorld)).

Definition servedQueue : DomainTopicQueue :=
  {| queue_subscriber := PAYMENT; queue_topic := ORDER_CREATED;
     processedEvents := [Processed.mk "e1" 1 5000%N];
     processingEvents := [] |}.

(** The effects a computation adds to those of the world it starts in. *)
Definition effectsOf {A} (m : Promise A) (w : World) : list Effect :=
  drop (length (trace w)) (trace (run m w)).

(** Handlers used in examples. *)
Definition always (b : bool) : Handler := λ _ _ _, b.

(** Rejects the first [n] invocations, resolves afterwards. *)
Definition failsFirst (n : nat) : Handler := λ k _ _, n <=? k.

(** Started in a directory with property [P], [m] leaves one with
    property [Q], whether it resolves or rejects. *)
Definition transfers {A} (P Q : FileSystem → Prop) (m : Promise A) : Prop :=
  ∀ w, P (disk w) → Q (disk (run m w)).

(** [m] keeps the property [J] of the directory. *)
Definition preserves {A} (J : FileSystem → Prop) (m : Promise A) : Prop :=
  transfers J J m.

(** [m] does not touch the directory. *)
Definition readOnly {A} (m : Promise A) : Prop :=
  ∀ w, disk (run m w) = disk w.

(** A property of the directory that no write of a queue document can
    change ... *)
Definition queueStable (J : FileSystem → Prop) : Prop :=
  ∀ fileName (q : DomainTopicQueue) d,
    J d → J (withQueueFiles (<[fileName := q]> (queueFiles d)) d).

(** ... that no write of an event log can change ... *)
Definition logStable (J : FileSystem → Prop) : Prop :=
  ∀ fileName (l : EventLog) d,
    J d → J (withEventFiles (<[fileName := l]> (eventFiles d)) d).

(** ... and that neither can change. *)
Definition stable (J : FileSystem → Prop) : Prop :=
  queueStable J ∧ logStable J.

(** The queue file [fileName] does not exist. *)
Definition noQueueFile (fileName : string) (d : FileSystem) : Prop :=
  queueFiles d !! fileName = None.

(** The event logs are the given ones. *)
Definition eventFilesAre (m : gmap string EventLog) (d : FileSystem) : Prop :=
  eventFiles d = m.

(** [m] resolves from every world. *)
Definition resolves (m : Promise unit) : Prop :=
  ∀ w, (m w).1 = Resolved tt.

(** Publishing the events of a list to a topic, one after the other. *)
Definition publishAll (topic : Topic) (l : list Logged.t) : Promise unit :=
  forEach
    (λ e, publish (Logged.eventId e) (Logged.parentId e) topic
            (Logged.content e)) l.

(** The dead-letter file and the error file are the given ones. *)
Definition sideFilesAre (dead : option (list DeadLetterQueue))
    (errors : option (list DomainTopicErrors)) (d : FileSystem) : Prop :=
  deadLetterFile d = dead ∧ errorFile d = errors.

(** [w'] has the effects of [w] and possibly more after them. *)
Definition extends (w w' : World) : Prop :=
  ∃ tr, trace w' = trace w ++ tr.

(** [m] only adds effects. *)
Definition monotone {A} (m : Promise A) : Prop :=
  ∀ w, extends w (run m w).

(** ** Notions for the rest of the code *)

(** [m] keeps the property [I] of the world. *)
Definition keeps {A} (I : World → Prop) (m : Promise A) : Prop :=
  ∀ w, I w → I (run m w).

(** A property of the world that looks neither at the directory nor at
    the clock, the count of handler calls and the effects. *)
Definition diskBlind (I : World → Prop) : Prop :=
  ∀ w, I w →
       (∀ d, I (withDisk d w)) ∧ (∀ e, I (logged e w)) ∧
       (∀ n, I (withNow n w)) ∧ (∀ n, I (withInvocations n w)).

(** The in-memory tables of the module are the given ones. *)
Definition registryIs (subs : list SubscriberObj) (tops : list TopicObj)
    (ls : list Listener) (w : World) : Prop :=
  subscribers w = subs ∧ topics w = tops ∧ listeners w = ls.

(** The queue file [fileName] is in the given state. *)
Definition queueFileIs (fileName : string) (o : option DomainTopicQueue)
    (d : FileSystem) : Prop :=
  queueFiles d !! fileName = o.


(** The log of [topic] starts with the events [l]. *)
Definition logStartsWith (topic : Topic) (l : list Logged.t)
    (d : FileSystem) : Prop :=
  l `prefix_of`
    match eventFiles d !! eventsFileName topic with
    | Some topicLogs => events topicLogs
    | None => []
    end.

(** The queue file [fileName] exists and its [processedEvents] start
    with [l]. *)
Definition processedStartsWith (fileName : string) (l : list Processed.t)
    (d : FileSystem) : Prop :=
  ∃ q, queueFiles d !! fileName = Some q ∧ l `prefix_of` processedEvents q.


(** Id and [tries] of each processed event, in order. *)
Definition processedSummary (q : DomainTopicQueue) : list (string * nat) :=
  (λ p, (Processed.eventId p, Processed.tries p)) <$> processedEvents q.


(** ** The registry *)

(** The object a subscription closure refers to. *)
Definition subscriberObjAt (ref : nat) (subscriber : Domain) (w : World)
  : SubscriberObj :=
  default {| so_subscriber := subscriber; so_topics := [] |}
    (subscribers w !! ref).

(** The topic table after [subscriber] has been bound to [topic]. *)
Definition boundTopics (subscriber : Domain) (topic : Topic)
    (tops : list TopicObj) : list TopicObj :=
  match list_find (λ t, to_topic t = topic) tops with
  | None => tops ++ [{| to_topic := topic; to_subscribers := [subscriber] |}]
  | Some (i, topicObj) =>
      <[i := {| to_topic := to_topic topicObj;
                to_subscribers := to_subscribers topicObj ++ [subscriber] |}]>
        tops
  end.

(** The subscriber table after [topic] has been pushed on the object at
    [ref]. *)
Definition boundSubscribers (ref : nat) (o : SubscriberObj) (topic : Topic)
    (subs : list SubscriberObj) : list SubscriberObj :=
  <[ref := {| so_subscriber := so_subscriber o;
              so_topics := so_topics o ++ [topic] |}]> subs.

(** The world after the two tables have been updated by a subscription. *)
Definition bound (ref : nat) (subscriber : Domain) (topic : Topic)
    (w : World) : World :=
  withTopics (boundTopics subscriber topic (topics w))
    (withSubscribers
       (boundSubscribers ref (subscriberObjAt ref subscriber w) topic
          (subscribers w)) w).

(** [subscriber] is bound to [topic] according to the subscriber table,
    according to the topic table, and according to the listeners. *)
Definition boundBySubscriber (subs : list SubscriberObj) (subscriber : Domain)
    (topic : Topic) : Prop :=
  ∃ o, o ∈ subs ∧ so_subscriber o = subscriber ∧ topic ∈ so_topics o.

Definition boundByTopic (tops : list TopicObj) (subscriber : Domain)
    (topic : Topic) : Prop :=
  ∃ o, o ∈ tops ∧ to_topic o = topic ∧ subscriber ∈ to_subscribers o.

Definition listenerKeys (ls : list Listener) : list (Domain * Topic) :=
  (λ l, (l_subscriber l, l_topic l)) <$> ls.

(** The three tables agree and hold nothing twice. *)
Record registryConsistent (w : World) : Prop := {
  rc_subscribers : NoDup (so_subscriber <$> subscribers w);
  rc_topics : NoDup (to_topic <$> topics w);
  rc_so_topics : Forall (λ o, NoDup (so_topics o)) (subscribers w);
  rc_to_subscribers : Forall (λ o, NoDup (to_subscribers o)) (topics w);
  rc_listeners : NoDup (listenerKeys (listeners w));
  rc_tables :
    ∀ subscriber topic,
      boundBySubscriber (subscribers w) subscriber topic ↔
      boundByTopic (topics w) subscriber topic;
  rc_listening :
    ∀ subscriber topic,
      boundBySubscriber (subscribers w) subscriber topic ↔
      (subscriber, topic) ∈ listenerKeys (listeners w)
}.

(** The calls a program can make: registering a subscriber, subscribing
    through a closure that [subscriberInitializer] returned (its reference
    is the position of the object of its subscriber), and publishing. *)
Inductive apiStep : World → World → Prop :=
  | api_register subscriber w :
      apiStep w (run (subscriberInitializer subscriber) w)
  | api_subscribe ref subscriber topic eventHandler w o :
      subscribers w !! ref = Some o →
      so_subscriber o = subscriber →
      apiStep w (run (subscription ref subscriber topic eventHandler) w)
  | api_publish eventId parentId topic content w :
      apiStep w (run (publish eventId parentId topic content) w).

(** ** Subscriptions and their queue documents *)

(** Every pair the subscriber table binds has a queue document. *)
Definition subscriptionsHaveQueues (w : World) : Prop :=
  ∀ subscriber topic,
    boundBySubscriber (subscribers w) subscriber topic →
    is_Some (queueOf subscriber topic w).

(** The listeners [emit] calls for [topic]. *)
Definition listenersOf (topic : Topic) (w : World) : list Listener :=
  filter (λ l, l_topic l = topic) (listeners w).

(** ** More worlds used in examples *)

(** A queue that holds the event [e1] twice, around an entry of [e2]. *)
Definition repeatedQueue : DomainTopicQueue :=
  {| queue_subscriber := PAYMENT; queue_topic := ORDER_CREATED;
     processedEvents := [];
     processingEvents :=
       [Processing.mk "e1" "x" 2; Processing.mk "e2" "y" 0;
        Processing.mk "e1" "x" 0] |}.

Definition repeatedWorld : World :=
  wrote (queueFileName PAYMENT ORDER_CREATED) repeatedQueue initialWorld.

(** One event in the log of [ORDER_CREATED], nobody subscribed. *)
Definition loggedWorld : World :=
  run (publish "e1" "p0" ORDER_CREATED "x") initialWorld.

(** [PAYMENT] has been registered; then it has subscribed to
    [ORDER_CREATED] with a handler that resolves. *)
Definition paymentObj : SubscriberObj :=
  {| so_subscriber := PAYMENT; so_topics := [] |}.

Definition registeredWorld : World :=
  run (subscriberInitializer PAYMENT) initialWorld.

Definition subscribedWorld : World :=
  run (subscription 0 PAYMENT ORDER_CREATED (always true)) registeredWorld.

Definition paymentListener : Listener :=
  {| l_topic := ORDER_CREATED; l_subscriber := PAYMENT;
     l_handler := always true |}.

(** The world [servedWorld] after a second publication. *)
Definition servedTwiceWorld : World :=
  run (publish "e2" "p0" ORDER_CREATED "y") servedWorld.

(** [PAYMENT] is registered and one event has been published to
    [ORDER_CREATED], which nobody has subscribed to. *)
Definition announcedWorld : World :=
  run (publish "e1" "p0" ORDER_CREATED "x") registeredWorld.

Definition announcedQueue : DomainTopicQueue :=
  {| queue_subscriber := PAYMENT; queue_topic := ORDER_CREATED;
     processedEvents := [];
     processingEvents := seeded <$> eventsOf ORDER_CREATED announcedWorld |}.

(** [PAYMENT] is registered and the queue file of an earlier run is on
    disk. *)
Definition returningWorld : World :=
  wrote (queueFileName PAYMENT ORDER_CREATED) restoredQueue registeredWorld.

(** * Properties *)

(** ** Small runs *)

(** Scenario A then B: one event published before anyone subscribed,
    then [PAYMENT] subscribes with a handler that resolves. *)
Example scenarioB_queue :
  queueOf PAYMENT ORDER_CREATED
    (run (publish "e1" "p0" ORDER_CREATED "x" >>
          await subscribe := subscriberInitializer PAYMENT in
          subscribe ORDER_CREATED (always true)) initialWorld) =
  Some {| queue_subscriber := PAYMENT; queue_topic := ORDER_CREATED;
          processedEvents := [Processed.mk "e1" 1 5000%N];
          processingEvents := [] |}.
Proof. vm_compute. reflexivity. Qed.

(** ** The monad *)

Lemma run_ret {A} (a : A) w : run (ret a) w = w.
Proof. reflexivity. Qed.

Lemma bind_resolved {A B} (m : Promise A) (k : A → Promise B) w a w' :
  m w = (Resolved a, w') → bind m k w = k a w'.
Proof. unfold bind. intros ->. reflexivity. Qed.

Lemma bind_rejected {A B} (m : Promise A) (k : A → Promise B) w e w' :
  m w = (Rejected e, w') → bind m k w = (Rejected e, w').
Proof. unfold bind. intros ->. reflexivity. Qed.

(** ** Queue operations, case by case *)

Section QueueOperations.
Variables (subscriber : Domain) (topic : Topic) (eventId : string).
Variable w : World.

Let fileName := queueFileName subscriber topic.

Lemma incrementTries_missing :
  queueOf subscriber topic w = None →
  incrementTries subscriber topic eventId w =
  (Rejected (QueueNotFoundError fileName), w).
Proof.
  unfold queueOf, incrementTries, bind, readJSON. simpl.
  intros ->. reflexivity.
Qed.

Lemma incrementTries_absent q :
  queueOf subscriber topic w = Some q →
  list_find (hasEventId eventId) (processingEvents q) = None →
  incrementTries subscriber topic eventId w =
  (Rejected (EventNotFoundError eventId), w).
Proof.
  unfold queueOf, incrementTries, bind, readJSON. simpl.
  intros -> ->. reflexivity.
Qed.

Lemma incrementTries_found q i v :
  queueOf subscriber topic w = Some q →
  list_find (hasEventId eventId) (processingEvents q) = Some (i, v) →
  incrementTries subscriber topic eventId w =
  (Resolved tt, wrote fileName (incremented i v q) w).
Proof.
  unfold queueOf, incrementTries, bind, readJSON. simpl.
  intros -> ->. reflexivity.
Qed.

Lemma eventAcknowledged_missing :
  queueOf subscriber topic w = None →
  eventAcknowledged subscriber topic eventId w =
  (Rejected (QueueNotFoundError fileName), w).
Proof.
  unfold queueOf, eventAcknowledged, bind, readJSON. simpl.
  intros ->. reflexivity.
Qed.

Lemma eventAcknowledged_absent q :
  queueOf subscriber topic w = Some q →
  list_find (hasEventId eventId) (processingEvents q) = None →
  eventAcknowledged subscriber topic eventId w =
  (Rejected (EventNotFoundError eventId), w).
Proof.
  unfold queueOf, eventAcknowledged, bind, readJSON. simpl.
  intros -> ->. reflexivity.
Qed.

Lemma eventAcknowledged_found q i v :
  queueOf subscriber topic w = Some q →
  list_find (hasEventId eventId) (processingEvents q) = Some (i, v) →
  eventAcknowledged subscriber topic eventId w =
  (Resolved tt, wrote fileName (acknowledged i v eventId (now w) q) w).
Proof.
  unfold queueOf, eventAcknowledged, bind, readJSON. simpl.
  intros -> ->. reflexivity.
Qed.
End QueueOperations.

Lemma list_find_absent eventId (l : list Processing.t) :
  eventId ∉ Processing.eventId <$> l ↔ list_find (hasEventId eventId) l = None.
Proof.
  rewrite list_find_None, Forall_forall, list_elem_of_fmap. split.
  - intros H v Hv Hid. apply H. exists v. split; [symmetry; exact Hid | exact Hv].
  - intros H (v & -> & Hv). exact (H v Hv eq_refl).
Qed.

Lemma list_find_present eventId (l : list Processing.t) :
  eventId ∈ Processing.eventId <$> l →
  ∃ i v, list_find (hasEventId eventId) l = Some (i, v).
Proof.
  intros Hin. destruct (list_find (hasEventId eventId) l) as [[i v]|] eqn:E.
  - eauto.
  - apply list_find_absent in E. contradiction.
Qed.

Lemma notDeliverable_incrementTries subscriber topic eventId w e :
  notDeliverable subscriber topic eventId w e →
  incrementTries subscriber topic eventId w = (Rejected e, w).
Proof.
  intros [Hq | q Hq Hid].
  - by apply incrementTries_missing.
  - apply (incrementTries_absent _ _ _ _ q Hq). by apply list_find_absent.
Qed.

Lemma notDeliverable_eventAcknowledged subscriber topic eventId w e :
  notDeliverable subscriber topic eventId w e →
  eventAcknowledged subscriber topic eventId w = (Rejected e, w).
Proof.
  intros [Hq | q Hq Hid].
  - by apply eventAcknowledged_missing.
  - apply (eventAcknowledged_absent _ _ _ _ q Hq). by apply list_find_absent.
Qed.

(** Whether an operation can go through is a matter of the directory
    alone. *)
Lemma notDeliverable_disk subscriber topic eventId w w' e :
  disk w' = disk w →
  notDeliverable subscriber topic eventId w e →
  notDeliverable subscriber topic eventId w' e.
Proof.
  intros Hd [Hq | q Hq Hid].
  - apply queue_missing. unfold queueOf in *. by rewrite Hd.
  - apply (event_absent _ _ _ _ q); [|done]. unfold queueOf in *. by rewrite Hd.
Qed.

(** ** Failing queue operations *)

Lemma tryProcessing_notDeliverable subscriber topic eventId content
    eventHandler isRetry w e :
  notDeliverable subscriber topic eventId w e →
  tryProcessing subscriber topic eventId content eventHandler isRetry w =
  (Rejected e, if isRetry then afterTimeout 5000%N w else w).
Proof.
  intros Hnd. unfold tryProcessing. destruct isRetry.
  - assert (setTimeout 5000%N w = (Resolved tt, afterTimeout 5000%N w)) as H0
      by reflexivity.
    rewrite (bind_resolved _ _ _ _ _ H0).
    apply bind_rejected, notDeliverable_incrementTries.
    by apply (notDeliverable_disk _ _ _ w).
  - by apply bind_rejected, notDeliverable_incrementTries.
Qed.

(** C6. [incrementTries] rejects with the queue-not-found error when the
    queue document of (subscriber, topic) is missing and with the
    event-not-found error when the event id is not in [processingEvents];
    the error is raised by the operation, and it ends the delivery attempt
    it is part of: [tryProcessing] rejects with that same error, the handler
    is not invoked and nothing is written. *)
Theorem incrementTries_raises subscriber topic eventId w e :
  notDeliverable subscriber topic eventId w e →
  incrementTries subscriber topic eventId w = (Rejected e, w) ∧
  ∀ content eventHandler isRetry,
    let attempt :=
      tryProcessing subscriber topic eventId content eventHandler isRetry w in
    attempt.1 = Rejected e ∧
    invocations attempt.2 = invocations w ∧
    disk attempt.2 = disk w.
Proof.
  intros Hnd. split; [by apply notDeliverable_incrementTries|].
  intros content eventHandler isRetry attempt. subst attempt.
  rewrite (tryProcessing_notDeliverable _ _ _ _ _ _ _ _ Hnd).
  by destruct isRetry.
Qed.

(** C9. When [incrementTries] or [eventAcknowledged] fails because the
    queue document is missing or the event id is not in [processingEvents],
    no write has been issued: the directory and the list of effects are
    what they were before the call. *)
Theorem failed_queue_update_writes_nothing subscriber topic eventId w e :
  notDeliverable subscriber topic eventId w e →
  ∃ w1 w2,
    incrementTries subscriber topic eventId w = (Rejected e, w1) ∧
    eventAcknowledged subscriber topic eventId w = (Rejected e, w2) ∧
    disk w1 = disk w ∧ trace w1 = trace w ∧
    disk w2 = disk w ∧ trace w2 = trace w.
Proof.
  intros Hnd. exists w, w.
  rewrite (notDeliverable_incrementTries _ _ _ _ _ Hnd).
  rewrite (notDeliverable_eventAcknowledged _ _ _ _ _ Hnd).
  done.
Qed.

(** ** One delivery attempt *)

Lemma queueOf_wrote subscriber topic q w :
  queueOf subscriber topic (wrote (queueFileName subscriber topic) q w) = Some q.
Proof. unfold queueOf, wrote. simpl. apply lookup_insert_eq. Qed.

Lemma list_find_bumped eventId (l : list Processing.t) i v :
  list_find (hasEventId eventId) l = Some (i, v) →
  list_find (hasEventId eventId) (<[i := bumped v]> l) = Some (i, bumped v).
Proof.
  intros (Hi & Hv & Hlt)%list_find_Some.
  apply list_find_insert_Some. right. left.
  split_and!; [done | done | by eapply lookup_lt_Some | exact Hv | exact Hlt].
Qed.

Lemma callHandler_eq eventHandler parentId content w :
  callHandler eventHandler parentId content w =
  (if eventHandler (invocations w) parentId content
   then Resolved tt else Rejected (HandlerError parentId),
   invoked eventHandler parentId content w).
Proof. unfold callHandler, invoked. simpl. by destruct (eventHandler _ _ _). Qed.

Section Attempt.
Variables (subscriber : Domain) (topic : Topic) (parentId content : string).
Variable eventHandler : Handler.
Variables (w : World) (q : DomainTopicQueue) (i : nat) (v : Processing.t).
Hypothesis Hq : queueOf subscriber topic w = Some q.
Hypothesis Hfind :
  list_find (hasEventId parentId) (processingEvents q) = Some (i, v).

Let fileName := queueFileName subscriber topic.

Lemma tryProcessing_found isRetry :
  tryProcessing subscriber topic parentId content eventHandler isRetry w =
  if eventHandler (invocations w) parentId content
  then (Resolved tt,
        delivered subscriber topic parentId content eventHandler w q i v
          isRetry)
  else (Rejected (HandlerError parentId),
        attempted subscriber topic parentId content eventHandler w q i v
          isRetry).
Proof using Hq Hfind.
  set (w0 := if isRetry then afterTimeout 5000%N w else w).
  assert (queueOf subscriber topic w0 = Some q) as Hq0
    by (subst w0; by destruct isRetry).
  assert (invocations w0 = invocations w) as Hinv
    by (subst w0; by destruct isRetry).
  assert ((incrementTries subscriber topic parentId >>
           callHandler eventHandler parentId content >>
           eventAcknowledged subscriber topic parentId) w0 =
          if eventHandler (invocations w) parentId content
          then (Resolved tt,
                delivered subscriber topic parentId content eventHandler w
                  q i v isRetry)
          else (Rejected (HandlerError parentId),
                attempted subscriber topic parentId content eventHandler w
                  q i v isRetry)) as H.
  { rewrite (bind_resolved _ _ _ _ _
               (incrementTries_found _ _ _ _ _ _ _ Hq0 Hfind)).
    unfold bind at 1. rewrite callHandler_eq. simpl. rewrite Hinv.
    unfold attempted, delivered. fold w0. fold fileName.
    destruct (eventHandler (invocations w) parentId content) eqn:Hok;
      [|done].
    set (w2 := invoked _ _ _ _).
    assert (queueOf subscriber topic w2 = Some (incremented i v q)) as Hq2.
    { subst w2. unfold invoked. apply queueOf_wrote. }
    rewrite (eventAcknowledged_found _ _ _ _ _ _ _ Hq2
               (list_find_bumped _ _ _ _ Hfind)).
    do 3 f_equal. subst w2 w0. by destruct isRetry. }
  unfold tryProcessing. destruct isRetry; [|exact H].
  unfold bind at 1. exact H.
Qed.
End Attempt.

(** ** Properties of the directory along a computation *)

Section Transfers.
Context {A B : Type}.
Implicit Types P Q R J : FileSystem → Prop.

Lemma transfers_ret P (a : A) : transfers P P (ret a).
Proof. by intros w. Qed.

Lemma transfers_throw P e : transfers P P (@throw A e).
Proof. by intros w. Qed.

Lemma transfers_bind P Q R (m : Promise A) (k : A → Promise B) :
  transfers P Q m → (∀ d, Q d → R d) → (∀ a, transfers Q R (k a)) →
  transfers P R (bind m k).
Proof.
  intros Hm HQR Hk w HP. specialize (Hm w HP). unfold run, bind in *.
  destruct (m w) as [[a|e] w']; simpl in *.
  - by apply (Hk a w').
  - by apply HQR.
Qed.

Lemma preserves_bind J (m : Promise A) (k : A → Promise B) :
  preserves J m → (∀ a, preserves J (k a)) → preserves J (bind m k).
Proof. intros Hm Hk. by apply (transfers_bind J J J). Qed.

Lemma preserves_thenCatch J (m : Promise A) (onOk : A → B) onErr :
  preserves J m → preserves J (thenCatch m onOk onErr).
Proof.
  intros Hm w HJ. specialize (Hm w HJ). unfold run, thenCatch in *.
  by destruct (m w) as [[a|e] w'].
Qed.

Lemma readOnly_preserves J (m : Promise A) : readOnly m → preserves J m.
Proof. intros Hm w HJ. by rewrite Hm. Qed.

Lemma transfers_weaken P P' Q Q' (m : Promise A) :
  (∀ d, P' d → P d) → (∀ d, Q d → Q' d) → transfers P Q m →
  transfers P' Q' m.
Proof. intros HP HQ Hm w H. apply HQ, Hm, HP, H. Qed.
End Transfers.

Lemma preserves_forEach {A} J (f : A → Promise unit) (l : list A) :
  (∀ x, x ∈ l → preserves J (f x)) → preserves J (forEach f l).
Proof.
  induction l as [|x l IH]; intros Hf; simpl.
  - apply transfers_ret.
  - apply preserves_bind.
    + apply Hf. left.
    + intros _. apply IH. intros y Hy. apply Hf. by right.
Qed.

Lemma preserves_writeJSON_queue J fileName (q : DomainTopicQueue) :
  queueStable J → preserves J (writeJSON fileName q).
Proof. intros Hq w HJ. apply Hq, HJ. Qed.

Lemma preserves_writeJSON_log J fileName (l : EventLog) :
  logStable J → preserves J (writeJSON fileName l).
Proof. intros Hl w HJ. apply Hl, HJ. Qed.

Lemma stable_sideFilesAre dead errors : stable (sideFilesAre dead errors).
Proof. split; intros ? ? d H; exact H. Qed.

(** Closes [preserves J m] for an [m] that leaves the directory alone. *)
Ltac read_only :=
  apply readOnly_preserves; intros ?;
  first [reflexivity | unfold run; rewrite callHandler_eq; reflexivity].

(** An attempt keeps what its two queue operations keep. *)
Lemma tryProcessing_preserves J subscriber topic parentId content
    eventHandler isRetry :
  preserves J (incrementTries subscriber topic parentId) →
  preserves J (eventAcknowledged subscriber topic parentId) →
  preserves J
    (tryProcessing subscriber topic parentId content eventHandler isRetry).
Proof.
  intros Hinc Hack.
  assert (preserves J
            (incrementTries subscriber topic parentId >>
             callHandler eventHandler parentId content >>
             eventAcknowledged subscriber topic parentId)) as H.
  { apply preserves_bind; [exact Hinc|]. intros _.
    apply preserves_bind; [read_only|]. intros _. exact Hack. }
  unfold tryProcessing. destruct isRetry; [|exact H].
  apply preserves_bind; [read_only|]. intros _. exact H.
Qed.

(** ** What no operation writes *)

Section Stable.
Variable J : FileSystem → Prop.
Hypothesis HJ : queueStable J.

Lemma incrementTries_stable subscriber topic eventId :
  preserves J (incrementTries subscriber topic eventId).
Proof using HJ.
  unfold incrementTries. apply preserves_bind; [read_only|].
  intros [q|]; [|apply transfers_throw].
  destruct (list_find _ _) as [[i v]|]; [|apply transfers_throw].
  apply preserves_bind; [by apply preserves_writeJSON_queue|].
  intros _. apply transfers_ret.
Qed.

Lemma eventAcknowledged_stable subscriber topic parentId :
  preserves J (eventAcknowledged subscriber topic parentId).
Proof using HJ.
  unfold eventAcknowledged.
  apply preserves_bind; [read_only|].
  intros [q|]; [|apply transfers_throw].
  destruct (list_find _ _) as [[i v]|]; [|apply transfers_throw].
  apply preserves_bind; [read_only|]. intros processedAt.
  apply preserves_bind; [by apply preserves_writeJSON_queue|].
  intros _. apply transfers_ret.
Qed.

Lemma tryProcessing_stable subscriber topic parentId content eventHandler
    isRetry :
  preserves J
    (tryProcessing subscriber topic parentId content eventHandler isRetry).
Proof using HJ.
  apply tryProcessing_preserves;
    [apply incrementTries_stable | apply eventAcknowledged_stable].
Qed.
End Stable.

(** A property that each delivery attempt keeps is kept by the loop and
    by everything built from the loop. *)
Lemma whileLoop_preserves J fuel eventHandler subscriber topic content tries
    parentId acked triesCount :
  (∀ isRetry,
     preserves J
       (tryProcessing subscriber topic parentId content eventHandler isRetry)) →
  preserves J
    (whileLoop fuel eventHandler subscriber topic content tries parentId
       acked triesCount).
Proof.
  intros Hattempt. revert acked triesCount.
  induction fuel as [|fuel IH]; intros acked triesCount; simpl.
  - apply transfers_ret.
  - destruct (negb acked && (triesCount <? 5)); [|apply transfers_ret].
    apply preserves_bind; [apply preserves_thenCatch, Hattempt|].
    intros acked'. apply IH.
Qed.

Section Delivery.
Variable J : FileSystem → Prop.
Hypothesis Hattempt :
  ∀ subscriber topic parentId content eventHandler isRetry,
    preserves J
      (tryProcessing subscriber topic parentId content eventHandler isRetry).

Lemma executeEventHandler_preserves eventHandler subscriber topic content
    tries parentId :
  preserves J
    (executeEventHandler eventHandler subscriber topic content tries parentId).
Proof using Hattempt. apply whileLoop_preserves. intros. apply Hattempt. Qed.

Lemma replay_preserves eventHandler subscriber topic q :
  preserves J (replay eventHandler subscriber topic q).
Proof using Hattempt.
  apply preserves_forEach. intros v _. apply executeEventHandler_preserves.
Qed.

Lemma emit_preserves topic content eventId :
  preserves J (emit topic content eventId).
Proof using Hattempt.
  unfold emit. apply preserves_bind; [read_only|]. intros ls.
  apply preserves_forEach. intros l _. apply executeEventHandler_preserves.
Qed.
End Delivery.

Lemma subscriberInitializer_readOnly subscriber :
  readOnly (subscriberInitializer subscriber).
Proof.
  intros w. unfold run, subscriberInitializer, bind, getSubscribers. simpl.
  by destruct (list_find _ _) as [[i o]|].
Qed.

Section QueueStable.
Variable J : FileSystem → Prop.
Hypothesis HJ : queueStable J.

Lemma persistInQueue_stable eventId topic content subscriber :
  preserves J (persistInQueue eventId topic content subscriber).
Proof using HJ.
  unfold persistInQueue. apply preserves_bind; [read_only|].
  intros [logs|]; [|apply transfers_ret].
  apply preserves_bind; [by apply preserves_writeJSON_queue|].
  intros _. apply transfers_ret.
Qed.

Lemma persistEventsInSubscriberQueues_stable eventId topic content :
  preserves J (persistEventsInSubscriberQueues eventId topic content).
Proof using HJ.
  unfold persistEventsInSubscriberQueues.
  apply preserves_bind; [read_only|]. intros tops.
  destruct (list_find _ _) as [[i topicObj]|]; [|apply transfers_ret].
  apply preserves_forEach. intros s _. apply persistInQueue_stable.
Qed.

Lemma emit_stable topic content eventId :
  preserves J (emit topic content eventId).
Proof using HJ. apply emit_preserves. intros. by apply tryProcessing_stable. Qed.
End QueueStable.

Section StableAPI.
Variable J : FileSystem → Prop.
Hypothesis HJ : stable J.

Let HQ : queueStable J := proj1 HJ.
Let HL : logStable J := proj2 HJ.

Lemma loadDomainTopicQueue_stable subscriber topic :
  preserves J (loadDomainTopicQueue subscriber topic).
Proof using HJ.
  unfold loadDomainTopicQueue. apply preserves_bind; [read_only|].
  intros [q|]; [apply transfers_ret|].
  apply preserves_bind; [read_only|]. intros topicLogs.
  by apply preserves_writeJSON_queue, HQ.
Qed.

Lemma subscription_stable ref subscriber topic eventHandler :
  preserves J (subscription ref subscriber topic eventHandler).
Proof using HJ.
  unfold subscription. apply preserves_bind; [read_only|]. intros subs.
  destruct (list_find _ _) as [[i o]|]; [apply transfers_throw|].
  apply preserves_bind; [read_only|]. intros _.
  apply preserves_bind; [read_only|]. intros tops.
  apply preserves_bind;
    [destruct (list_find _ _) as [[j topicObj]|]; read_only|].
  intros _.
  apply preserves_bind; [apply loadDomainTopicQueue_stable|]. intros q.
  apply preserves_bind;
    [apply replay_preserves; by apply tryProcessing_stable, HQ|].
  intros _. read_only.
Qed.

Lemma persistEvent_stable eventId topic content parentId :
  preserves J (persistEvent eventId topic content parentId).
Proof using HJ.
  unfold persistEvent. apply preserves_bind; [read_only|]. intros eventLogs.
  apply preserves_bind; [by apply preserves_writeJSON_log, HL|].
  intros _. apply transfers_ret.
Qed.

Lemma publish_stable eventId parentId topic content :
  preserves J (publish eventId parentId topic content).
Proof using HJ.
  unfold publish. apply preserves_bind; [apply persistEvent_stable|].
  intros eventId'.
  apply preserves_bind; [apply persistEventsInSubscriberQueues_stable, HQ|].
  intros _. apply emit_stable, HQ.
Qed.

(** Every move of the broker keeps a stable property. *)
Lemma step_stable w w' : step w w' → J (disk w) → J (disk w').
Proof using HJ.
  destruct 1.
  - apply loadDomainTopicQueue_stable.
  - apply persistEventsInSubscriberQueues_stable, HQ.
  - by apply incrementTries_stable, HQ.
  - by apply eventAcknowledged_stable, HQ.
  - apply executeEventHandler_preserves. by apply tryProcessing_stable, HQ.
  - apply readOnly_preserves, subscriberInitializer_readOnly.
  - apply subscription_stable.
  - apply publish_stable.
Qed.
End StableAPI.

(** The dead-letter file and the error file are never written. *)
Lemma step_sideFiles w w' :
  step w w' →
  deadLetterFile (disk w') = deadLetterFile (disk w) ∧
  errorFile (disk w') = errorFile (disk w).
Proof.
  intros Hstep.
  by apply (step_stable _ (stable_sideFilesAre _ _) w w' Hstep).
Qed.

(** ** The delivery loop *)

Section Loop.
Variables (eventHandler : Handler) (subscriber : Domain) (topic : Topic).
Variables (content : string) (tries : nat) (parentId : string).

Lemma whileLoop_exit fuel acked triesCount :
  acked = true ∨ 5 ≤ triesCount →
  whileLoop fuel eventHandler subscriber topic content tries parentId acked
    triesCount = ret tt.
Proof.
  destruct fuel as [|fuel]; [done|]. simpl. intros [-> | Hge]; [done|].
  apply Nat.ltb_ge in Hge. rewrite Hge. by rewrite andb_false_r.
Qed.

Lemma whileLoop_iterate fuel triesCount w :
  triesCount < 5 →
  whileLoop (S fuel) eventHandler subscriber topic content tries parentId
    false triesCount w =
  let attempt :=
    tryProcessing subscriber topic parentId content eventHandler
      (negb (S triesCount =? tries)) w in
  whileLoop fuel eventHandler subscriber topic content tries parentId
    (match attempt.1 with Resolved _ => true | Rejected _ => false end)
    (S triesCount) attempt.2.
Proof.
  intros Hlt. apply Nat.ltb_lt in Hlt. simpl. rewrite Hlt. simpl.
  unfold bind, thenCatch.
  by destruct (tryProcessing _ _ _ _ _ _ w) as [[[]|e] w'].
Qed.

(** The loop never needs more than [5 - triesCount] iterations: with that
    much fuel or more it runs until its own condition ends it. *)
Lemma whileLoop_fuel fuel acked triesCount w :
  5 - triesCount ≤ fuel →
  whileLoop fuel eventHandler subscriber topic content tries parentId acked
    triesCount w =
  whileLoop (5 - triesCount) eventHandler subscriber topic content tries
    parentId acked triesCount w.
Proof.
  revert acked triesCount w.
  induction fuel as [|fuel IH]; intros acked triesCount w Hfuel.
  - by replace (5 - triesCount) with 0 by lia.
  - destruct acked; [by rewrite !whileLoop_exit by auto|].
    destruct (decide (5 ≤ triesCount)) as [Hge|Hlt];
      [by rewrite !whileLoop_exit by auto|].
    replace (5 - triesCount) with (S (5 - S triesCount)) by lia.
    rewrite !whileLoop_iterate by lia. simpl.
    apply IH. lia.
Qed.
End Loop.

Lemma executeEventHandler_fuel fuel eventHandler subscriber topic content
    tries parentId w :
  5 ≤ fuel →
  whileLoop fuel eventHandler subscriber topic content tries parentId false
    tries w =
  executeEventHandler eventHandler subscriber topic content tries parentId w.
Proof.
  intros Hfuel. unfold executeEventHandler.
  rewrite (whileLoop_fuel _ _ _ _ _ _ fuel) by lia.
  by rewrite (whileLoop_fuel _ _ _ _ _ _ 5) by lia.
Qed.

(** ** Entries that have used up their attempts *)

Lemma replay_exhausted eventHandler subscriber topic q w :
  Forall (λ v, 5 ≤ Processing.tries v) (processingEvents q) →
  replay eventHandler subscriber topic q w = (Resolved tt, w).
Proof.
  unfold replay. induction 1 as [|v l Hv Hl IH]; simpl; [done|].
  unfold bind at 1. unfold executeEventHandler at 1.
  rewrite whileLoop_exit by auto. simpl. exact IH.
Qed.

(** Operations on another event id leave an entry where it is. *)
Section OtherEntry.
Variables (subscriber : Domain) (topic : Topic) (v : Processing.t).
Variable parentId : string.
Hypothesis Hother : Processing.eventId v ≠ parentId.

Lemma incrementTries_holdsEntry :
  preserves (holdsEntry subscriber topic v)
    (incrementTries subscriber topic parentId).
Proof using Hother.
  intros w (q & Hq & Hv). unfold run.
  destruct (list_find (hasEventId parentId) (processingEvents q))
    as [[i x]|] eqn:Hfind.
  - rewrite (incrementTries_found _ _ _ _ q i x Hq Hfind). simpl.
    exists (incremented i x q). split; [apply lookup_insert_eq|]. simpl.
    apply list_find_Some in Hfind as (Hi & Hx & _).
    apply list_elem_of_lookup in Hv as [j Hj].
    apply list_elem_of_lookup. exists j.
    rewrite list_lookup_insert_ne; [done|].
    intros ->. rewrite Hi in Hj. injection Hj as ->. by apply Hother.
  - rewrite (incrementTries_absent _ _ _ _ q Hq Hfind). simpl. by exists q.
Qed.

Lemma eventAcknowledged_holdsEntry :
  preserves (holdsEntry subscriber topic v)
    (eventAcknowledged subscriber topic parentId).
Proof using Hother.
  intros w (q & Hq & Hv). unfold run.
  destruct (list_find (hasEventId parentId) (processingEvents q))
    as [[i x]|] eqn:Hfind.
  - rewrite (eventAcknowledged_found _ _ _ _ q i x Hq Hfind). simpl.
    exists (acknowledged i x parentId (now w) q).
    split; [apply lookup_insert_eq|]. simpl.
    apply list_elem_of_filter. split; [exact Hother|].
    apply list_find_Some in Hfind as (Hi & Hx & _).
    rewrite <- (take_drop_middle _ _ _ Hi) in Hv.
    rewrite delete_take_drop.
    apply elem_of_app in Hv as [Hv|Hv]; [apply elem_of_app; by left|].
    apply elem_of_cons in Hv as [->|Hv]; [by destruct Hother|].
    apply elem_of_app. by right.
  - rewrite (eventAcknowledged_absent _ _ _ _ q Hq Hfind). simpl. by exists q.
Qed.

Lemma executeEventHandler_holdsEntry eventHandler content tries :
  preserves (holdsEntry subscriber topic v)
    (executeEventHandler eventHandler subscriber topic content tries parentId).
Proof using Hother.
  apply whileLoop_preserves. intros isRetry.
  apply tryProcessing_preserves;
    [apply incrementTries_holdsEntry | apply eventAcknowledged_holdsEntry].
Qed.
End OtherEntry.

(** C8. An entry of [processingEvents] that is restored with [tries >= 5]
    is left alone: [executeEventHandler] returns at once, with no handler
    invocation, no write and no other effect, so the entry is neither
    acknowledged nor dead-lettered.  It also survives the replay of the
    rest of the queue it belongs to (whose event ids are pairwise
    distinct), and a queue made of such entries only is replayed without
    any effect at all. *)
Theorem exhausted_entry_is_left_alone eventHandler subscriber topic w q v :
  queueOf subscriber topic w = Some q →
  v ∈ processingEvents q →
  5 ≤ Processing.tries v →
  executeEventHandler eventHandler subscriber topic (Processing.content v)
    (Processing.tries v) (Processing.eventId v) w = (Resolved tt, w) ∧
  (NoDup (processingIds q) →
   holdsEntry subscriber topic v
     (disk (run (replay eventHandler subscriber topic q) w))) ∧
  (Forall (λ x, 5 ≤ Processing.tries x) (processingEvents q) →
   replay eventHandler subscriber topic q w = (Resolved tt, w)).
Proof.
  intros Hq Hv Htries. split_and!.
  - unfold executeEventHandler. by rewrite whileLoop_exit by auto.
  - intros Hnodup.
    apply (preserves_forEach (holdsEntry subscriber topic v));
      [|by exists q].
    intros x Hx.
    destruct (decide (Processing.eventId v = Processing.eventId x)) as [Heq|Hne].
    + assert (x = v) as ->.
      { apply list_elem_of_lookup in Hx as [j Hj].
        apply list_elem_of_lookup in Hv as [k Hk].
        assert (j = k) as ->; [|congruence].
        apply (NoDup_lookup _ _ _ (Processing.eventId v) Hnodup);
          unfold processingIds; rewrite list_lookup_fmap.
        * by rewrite Hj, Heq.
        * by rewrite Hk. }
      intros w' H. unfold run, executeEventHandler.
      by rewrite whileLoop_exit by auto.
    + by apply executeEventHandler_holdsEntry.
  - apply replay_exhausted.
Qed.

(** ** Runs of failing attempts *)

Lemma retried_0 v : retried 0 v = v.
Proof. destruct v as [a b c]. unfold retried. simpl. f_equal. lia. Qed.

Lemma retried_bumped n v : retried n (bumped v) = retried (S n) v.
Proof. unfold retried, bumped. simpl. f_equal. lia. Qed.

Lemma withProcessingEvents_id q : withProcessingEvents (processingEvents q) q = q.
Proof. by destruct q. Qed.

Lemma list_find_retried eventId (l : list Processing.t) i v n :
  list_find (hasEventId eventId) l = Some (i, v) →
  list_find (hasEventId eventId) (<[i := retried n v]> l) =
  Some (i, retried n v).
Proof.
  intros (Hi & Hv & Hlt)%list_find_Some.
  apply list_find_insert_Some. right. left.
  split_and!; [done | done | by eapply lookup_lt_Some | exact Hv | exact Hlt].
Qed.

Section Failures.
Variables (eventHandler : Handler) (subscriber : Domain) (topic : Topic).
Variables (content : string) (tries : nat) (parentId : string).

(** [n] attempts in a row on which the handler rejects: each one waits
    for the timer, increments [tries] on disk and calls the handler. *)
Lemma whileLoop_failures n fuel triesCount w q i v :
  tries ≤ triesCount → triesCount + n ≤ 5 →
  (∀ k, k < n → eventHandler (invocations w + k) parentId content = false) →
  queueOf subscriber topic w = Some q →
  list_find (hasEventId parentId) (processingEvents q) = Some (i, v) →
  ∃ w',
    whileLoop (n + fuel) eventHandler subscriber topic content tries parentId
      false triesCount w =
    whileLoop fuel eventHandler subscriber topic content tries parentId
      false (triesCount + n) w' ∧
    invocations w' = invocations w + n ∧
    now w' = (now w + 5000 * N.of_nat n)%N ∧
    queueOf subscriber topic w' =
      Some (withProcessingEvents
              (<[i := retried n v]> (processingEvents q)) q).
Proof.
  revert triesCount w q v.
  induction n as [|n IH]; intros triesCount w q v Htries Hbound Hfail Hq Hfind.
  - exists w. rewrite !Nat.add_0_r, retried_0. split_and!; [done|done|lia|].
    rewrite list_insert_id; [by rewrite withProcessingEvents_id|].
    by apply list_find_Some in Hfind as (? & _).
  - change (S n + fuel) with (S (n + fuel)).
    rewrite whileLoop_iterate by lia.
    replace (S triesCount =? tries) with false
      by (symmetry; apply Nat.eqb_neq; lia).
    cbv zeta. change (negb false) with true.
    rewrite (tryProcessing_found _ _ _ _ _ _ q i v Hq Hfind).
    pose proof (Hfail 0 ltac:(lia)) as H0. rewrite Nat.add_0_r in H0.
    rewrite H0. cbn [fst snd].
    set (w1 := attempted subscriber topic parentId content eventHandler w q i
                 v true).
    assert (invocations w1 = S (invocations w)) as Hinv1 by reflexivity.
    assert (now w1 = (now w + 5000)%N) as Hnow1 by reflexivity.
    assert (queueOf subscriber topic w1 = Some (incremented i v q)) as Hq1
      by apply queueOf_wrote.
    clearbody w1.
    destruct (IH (S triesCount) w1 (incremented i v q) (bumped v))
      as (w' & Hrun & Hinv & Hnow & Hq'); [lia | lia | | done | |].
    + intros k Hk. replace (invocations w1 + k) with (invocations w + S k)
        by lia.
      apply Hfail. lia.
    + by apply list_find_bumped.
    + exists w'. rewrite Hrun.
      replace (S triesCount + n) with (triesCount + S n) by lia.
      split_and!; [done | lia | lia |].
      rewrite Hq'. unfold incremented, withProcessingEvents.
      cbn [processingEvents processedEvents queue_subscriber queue_topic].
      by rewrite list_insert_insert_eq, retried_bumped.
Qed.
End Failures.

(** ** Effects are only ever added *)

Lemma extends_refl w : extends w w.
Proof. exists []. by rewrite app_nil_r. Qed.

Lemma extends_trans w1 w2 w3 : extends w1 w2 → extends w2 w3 → extends w1 w3.
Proof.
  intros [tr1 H1] [tr2 H2]. exists (tr1 ++ tr2). by rewrite H2, H1, app_assoc.
Qed.

Lemma monotone_bind {A B} (m : Promise A) (k : A → Promise B) :
  monotone m → (∀ a, monotone (k a)) → monotone (bind m k).
Proof.
  intros Hm Hk w. specialize (Hm w). unfold run, bind in *.
  destruct (m w) as [[a|e] w']; simpl in *; [|done].
  eapply extends_trans; [exact Hm | apply Hk].
Qed.

Lemma monotone_thenCatch {A B} (m : Promise A) (onOk : A → B) onErr :
  monotone m → monotone (thenCatch m onOk onErr).
Proof.
  intros Hm w. specialize (Hm w). unfold run, thenCatch in *.
  by destruct (m w) as [[a|e] w'].
Qed.

Lemma monotone_writeJSON fileName (q : DomainTopicQueue) :
  monotone (writeJSON fileName q).
Proof. intros w. by eexists. Qed.

(** Closes [monotone m] for an [m] that adds at most one effect. *)
Ltac one_effect :=
  intros ?; first [apply extends_refl | by eexists
                  | unfold run; rewrite callHandler_eq; by eexists].

Lemma incrementTries_monotone subscriber topic eventId :
  monotone (incrementTries subscriber topic eventId).
Proof.
  unfold incrementTries. apply monotone_bind; [one_effect|].
  intros [q|]; [|one_effect].
  destruct (list_find _ _) as [[i v]|]; [|one_effect].
  apply monotone_bind; [apply monotone_writeJSON|]. intros _. one_effect.
Qed.

Lemma eventAcknowledged_monotone subscriber topic parentId :
  monotone (eventAcknowledged subscriber topic parentId).
Proof.
  unfold eventAcknowledged. apply monotone_bind; [one_effect|].
  intros [q|]; [|one_effect].
  destruct (list_find _ _) as [[i v]|]; [|one_effect].
  apply monotone_bind; [one_effect|]. intros processedAt.
  apply monotone_bind; [apply monotone_writeJSON|]. intros _. one_effect.
Qed.

Lemma attempt_monotone subscriber topic parentId content eventHandler :
  monotone
    (incrementTries subscriber topic parentId >>
     callHandler eventHandler parentId content >>
     eventAcknowledged subscriber topic parentId).
Proof.
  apply monotone_bind; [apply incrementTries_monotone|]. intros _.
  apply monotone_bind; [one_effect|]. intros _.
  apply eventAcknowledged_monotone.
Qed.

Lemma tryProcessing_monotone subscriber topic parentId content eventHandler
    isRetry :
  monotone
    (tryProcessing subscriber topic parentId content eventHandler isRetry).
Proof.
  unfold tryProcessing. destruct isRetry; [|apply attempt_monotone].
  apply monotone_bind; [one_effect|]. intros _. apply attempt_monotone.
Qed.

Lemma whileLoop_monotone fuel eventHandler subscriber topic content tries
    parentId acked triesCount :
  monotone
    (whileLoop fuel eventHandler subscriber topic content tries parentId
       acked triesCount).
Proof.
  revert acked triesCount.
  induction fuel as [|fuel IH]; intros acked triesCount; simpl; [one_effect|].
  destruct (negb acked && (triesCount <? 5)); [|one_effect].
  apply monotone_bind; [apply monotone_thenCatch, tryProcessing_monotone|].
  intros acked'. apply IH.
Qed.

(** A delayed attempt starts by setting the timer. *)
Lemma tryProcessing_delayed subscriber topic parentId content eventHandler w :
  ∃ tr,
    trace (run (tryProcessing subscriber topic parentId content eventHandler
                  true) w) =
    trace w ++ SetTimeout 5000%N :: tr.
Proof.
  unfold tryProcessing, run. unfold bind at 1. simpl.
  destruct (attempt_monotone subscriber topic parentId content eventHandler
              (afterTimeout 5000%N w)) as [tr Htr].
  exists tr. unfold run in Htr. fold (afterTimeout 5000%N w).
  rewrite Htr. simpl. by rewrite <- app_assoc.
Qed.

(** ** The first attempt *)

(** In the loop of [executeEventHandler] the counter is never below
    [tries], so [isRetry] is [true] in every iteration. *)
Lemma whileLoop_always_delayed fuel eventHandler subscriber topic content
    tries parentId triesCount w :
  tries ≤ triesCount → triesCount < 5 →
  whileLoop (S fuel) eventHandler subscriber topic content tries parentId
    false triesCount w =
  let attempt :=
    tryProcessing subscriber topic parentId content eventHandler true w in
  whileLoop fuel eventHandler subscriber topic content tries parentId
    (match attempt.1 with Resolved _ => true | Rejected _ => false end)
    (S triesCount) attempt.2.
Proof.
  intros Hle Hlt. rewrite whileLoop_iterate by done.
  by replace (S triesCount =? tries) with false
    by (symmetry; apply Nat.eqb_neq; lia).
Qed.

(** C4. The code first increments [triesCount] and then passes
    [triesCount !== tries] as [isRetry], so the first attempt on an event
    that enters with [tries = 0] already takes the delayed path of
    [tryProcessing]: the first effect of [executeEventHandler] is the
    five-second timer, and the branch without a timer is never taken. *)
Theorem first_attempt_is_delayed eventHandler subscriber topic content
    parentId w :
  let first :=
    tryProcessing subscriber topic parentId content eventHandler true w in
  executeEventHandler eventHandler subscriber topic content 0 parentId w =
  whileLoop 4 eventHandler subscriber topic content 0 parentId
    (match first.1 with Resolved _ => true | Rejected _ => false end) 1
    first.2 ∧
  ∃ tr,
    trace (run (executeEventHandler eventHandler subscriber topic content 0
                  parentId) w) =
    trace w ++ SetTimeout 5000%N :: tr.
Proof.
  intros first.
  assert (executeEventHandler eventHandler subscriber topic content 0
            parentId w =
          whileLoop 4 eventHandler subscriber topic content 0 parentId
            (match first.1 with Resolved _ => true | Rejected _ => false end)
            1 first.2) as Hrun.
  { unfold executeEventHandler. by rewrite whileLoop_iterate by lia. }
  split; [exact Hrun|].
  unfold run. rewrite Hrun.
  destruct (tryProcessing_delayed subscriber topic parentId content
              eventHandler w) as [tr1 H1].
  destruct (whileLoop_monotone 4 eventHandler subscriber topic content 0
              parentId
              (match first.1 with Resolved _ => true | Rejected _ => false end)
              1 first.2) as [tr2 H2].
  exists (tr1 ++ tr2). unfold run in *. rewrite H2. subst first.
  rewrite H1. by rewrite <- app_assoc.
Qed.

(** ** Outcomes of a delivery *)

Lemma acknowledged_processingIds i v parentId processedAt q :
  parentId ∉ processingIds (acknowledged i v parentId processedAt q).
Proof.
  unfold processingIds. simpl. rewrite list_elem_of_fmap.
  intros (x & Hid & Hx). apply list_elem_of_filter in Hx as [Hx _].
  by apply Hx.
Qed.

Lemma executeEventHandler_sideFiles eventHandler subscriber topic content
    tries parentId w :
  let w' :=
    run (executeEventHandler eventHandler subscriber topic content tries
           parentId) w in
  deadLetterFile (disk w') = deadLetterFile (disk w) ∧
  errorFile (disk w') = errorFile (disk w).
Proof. apply step_sideFiles, step_deliver. Qed.

(** C1. With a handler that rejects every time, an event that has had
    [tries] attempts so far gets [5 - tries] more, five in total, and the
    loop ends; the entry stays in [processingEvents] with [tries = 5], where
    it will not be attempted again.  No dead-letter record is written: the
    dead-letter file is what it was before the delivery. *)
Theorem always_failing_handler_is_abandoned eventHandler subscriber topic
    content tries parentId w q i v :
  (∀ n, eventHandler n parentId content = false) →
  queueOf subscriber topic w = Some q →
  list_find (hasEventId parentId) (processingEvents q) = Some (i, v) →
  Processing.tries v = tries →
  tries ≤ 5 →
  let w' :=
    run (executeEventHandler eventHandler subscriber topic content tries
           parentId) w in
  invocations w' = invocations w + (5 - tries) ∧
  queueOf subscriber topic w' =
    Some (withProcessingEvents
            (<[i := Processing.mk parentId (Processing.content v) 5]>
               (processingEvents q)) q) ∧
  executeEventHandler eventHandler subscriber topic content 5 parentId w' =
    (Resolved tt, w') ∧
  deadLetterFile (disk w') = deadLetterFile (disk w).
Proof.
  intros Hfail Hq Hfind Hv Htries w'.
  pose proof (executeEventHandler_sideFiles eventHandler subscriber topic
                content tries parentId w) as [Hdead _].
  cbv zeta in Hdead. fold w' in Hdead.
  destruct (whileLoop_failures eventHandler subscriber topic content tries
              parentId (5 - tries) tries tries w q i v)
    as (w1 & Hrun & Hinv & _ & Hq1); [lia | lia | auto | done | done |].
  assert (w' = w1) as Hw'.
  { subst w'. unfold run, executeEventHandler.
    replace 5 with (5 - tries + tries) at 1 by lia.
    rewrite Hrun. by rewrite whileLoop_exit by (right; lia). }
  clearbody w'. subst w1. split_and!.
  - exact Hinv.
  - rewrite Hq1. do 3 f_equal.
    apply list_find_Some in Hfind as (_ & Hid & _). unfold hasEventId in Hid.
    unfold retried. rewrite Hid, Hv. f_equal. lia.
  - unfold executeEventHandler. by rewrite whileLoop_exit by auto.
  - exact Hdead.
Qed.

(** C7. A handler that rejects on attempts 1 to 4 and resolves on attempt
    5 is called five times and the event ends in [processedEvents] with
    [tries = 5], gone from [processingEvents]; the rejections are dropped by
    the empty [catch]: the error file is what it was before the delivery,
    so no error record exists for any of the four failed attempts. *)
Theorem failed_attempts_leave_no_error_record eventHandler subscriber topic
    content parentId w q i v :
  (∀ k, k < 4 → eventHandler (invocations w + k) parentId content = false) →
  eventHandler (invocations w + 4) parentId content = true →
  queueOf subscriber topic w = Some q →
  list_find (hasEventId parentId) (processingEvents q) = Some (i, v) →
  Processing.tries v = 0 →
  let w' :=
    run (executeEventHandler eventHandler subscriber topic content 0
           parentId) w in
  invocations w' = invocations w + 5 ∧
  (∃ q', queueOf subscriber topic w' = Some q' ∧
         processedEvents q' =
           processedEvents q ++ [Processed.mk parentId 5 (now w + 25000)%N] ∧
         parentId ∉ processingIds q') ∧
  errorFile (disk w') = errorFile (disk w).
Proof.
  intros Hfail Hok Hq Hfind Hv w'.
  pose proof (executeEventHandler_sideFiles eventHandler subscriber topic
                content 0 parentId w) as [_ Herr].
  cbv zeta in Herr. fold w' in Herr.
  destruct (whileLoop_failures eventHandler subscriber topic content 0
              parentId 4 1 0 w q i v)
    as (w4 & Hrun & Hinv & Hnow & Hq4); [lia | lia | auto | done | done |].
  set (q4 := withProcessingEvents (<[i := retried 4 v]> (processingEvents q)) q)
    in Hq4.
  assert (list_find (hasEventId parentId) (processingEvents q4) =
          Some (i, retried 4 v)) as Hfind4
    by (by apply list_find_retried).
  assert (w' = delivered subscriber topic parentId content eventHandler w4 q4
                 i (retried 4 v) true) as Hw'.
  { subst w'. unfold run, executeEventHandler.
    change 5 with (4 + 1). rewrite Hrun. simpl (0 + 4).
    rewrite whileLoop_iterate by lia. simpl negb.
    rewrite (tryProcessing_found _ _ _ _ _ _ q4 i (retried 4 v) Hq4 Hfind4).
    rewrite Hinv, Hok. reflexivity. }
  clearbody w'. subst w'. split_and!.
  - simpl. lia.
  - eexists. split; [apply queueOf_wrote|]. split.
    + simpl. rewrite Hv, Hnow. do 3 f_equal. lia.
    + apply acknowledged_processingIds.
  - exact Herr.
Qed.

(** C5. In a delivery attempt on an entry of the queue, [incrementTries]
    writes the queue with the entry's [tries] raised by one before the
    handler is invoked, and when the handler resolves the acknowledgement
    is written next.  So an event that enters with [tries = 0] and whose
    handler resolves on the first attempt ends in [processedEvents] with
    [tries = 1] and is gone from [processingEvents]. *)
Theorem tries_incremented_before_handler eventHandler subscriber topic
    content parentId w q i v :
  queueOf subscriber topic w = Some q →
  list_find (hasEventId parentId) (processingEvents q) = Some (i, v) →
  (∀ isRetry,
     let attempt :=
       tryProcessing subscriber topic parentId content eventHandler isRetry
         w in
     let ok := eventHandler (invocations w) parentId content in
     let fileName := queueFileName subscriber topic in
     let stamp := if isRetry then (now w + 5000)%N else now w in
     let q1 := incremented i v q in
     processingEvents q1 !! i =
       Some (Processing.mk parentId (Processing.content v)
               (S (Processing.tries v))) ∧
     trace attempt.2 =
       trace w ++ (if isRetry then [SetTimeout 5000%N] else []) ++
       [WriteQueue fileName q1; Invoke parentId content ok] ++
       (if ok
        then [WriteQueue fileName (acknowledged i (bumped v) parentId stamp q1)]
        else []) ∧
     attempt.1 = if ok then Resolved tt else Rejected (HandlerError parentId)) ∧
  (eventHandler (invocations w) parentId content = true →
   Processing.tries v = 0 →
   let w' :=
     run (executeEventHandler eventHandler subscriber topic content 0
            parentId) w in
   invocations w' = S (invocations w) ∧
   ∃ q', queueOf subscriber topic w' = Some q' ∧
         processedEvents q' =
           processedEvents q ++ [Processed.mk parentId 1 (now w + 5000)%N] ∧
         parentId ∉ processingIds q').
Proof.
  intros Hq Hfind. split.
  - intros isRetry attempt ok fileName stamp q1. subst attempt.
    rewrite (tryProcessing_found _ _ _ _ _ _ q i v Hq Hfind).
    subst ok fileName stamp q1. split_and!.
    + simpl.
      pose proof Hfind as (Hi & Hid & _)%list_find_Some.
      rewrite list_lookup_insert_eq by (by eapply lookup_lt_Some).
      unfold bumped. unfold hasEventId in Hid. by rewrite Hid.
    + destruct isRetry;
        destruct (eventHandler (invocations w) parentId content) eqn:Hok;
        simpl; by rewrite ?Hok, <- ?app_assoc.
    + by destruct (eventHandler (invocations w) parentId content).
  - intros Hok Hv w'.
    assert (w' = delivered subscriber topic parentId content eventHandler w q
                   i v true) as Hw'.
    { subst w'. unfold run, executeEventHandler.
      rewrite whileLoop_iterate by lia. simpl negb.
      rewrite (tryProcessing_found _ _ _ _ _ _ q i v Hq Hfind).
      rewrite Hok. reflexivity. }
    clearbody w'. subst w'. split; [done|].
    eexists. split; [apply queueOf_wrote|]. split.
    + simpl. by rewrite Hv.
    + apply acknowledged_processingIds.
Qed.

(** ** Creating the queue of a new subscription *)

(** Publishing appends the event to the log of its topic. *)
Lemma persistEvent_eventsOf eventId topic content parentId w :
  eventsOf topic (run (persistEvent eventId topic content parentId) w) =
  eventsOf topic w ++ [Logged.mk parentId eventId content].
Proof.
  unfold eventsOf, run, persistEvent, bind, readJSON. simpl.
  rewrite lookup_insert_eq.
  by destruct (eventFiles (disk w) !! eventsFileName topic).
Qed.

Example backfill_of_three_events :
  queueOf INVENTORY ORDER_CREATED
    (run (publish "e1" "p1" ORDER_CREATED "a" >>
          publish "e2" "p2" ORDER_CREATED "b" >>
          publish "e3" "p3" ORDER_CREATED "c" >>
          loadDomainTopicQueue INVENTORY ORDER_CREATED) initialWorld) =
  Some {| queue_subscriber := INVENTORY; queue_topic := ORDER_CREATED;
          processedEvents := [];
          processingEvents :=
            [Processing.mk "e1" "a" 0; Processing.mk "e2" "b" 0;
             Processing.mk "e3" "c" 0] |}.
Proof. vm_compute. reflexivity. Qed.

Lemma loadDomainTopicQueue_absent subscriber topic w :
  queueOf subscriber topic w = None →
  loadDomainTopicQueue subscriber topic w =
  (Resolved (backfilled subscriber topic w),
   wrote (queueFileName subscriber topic) (backfilled subscriber topic w) w).
Proof.
  unfold queueOf, loadDomainTopicQueue, backfilled, bind, readJSON, eventsOf.
  simpl. intros ->.
  by destruct (eventFiles (disk w) !! eventsFileName topic).
Qed.

Lemma loadDomainTopicQueue_present subscriber topic w q :
  queueOf subscriber topic w = Some q →
  loadDomainTopicQueue subscriber topic w = (Resolved q, w).
Proof.
  unfold queueOf, loadDomainTopicQueue, bind, readJSON. simpl. by intros ->.
Qed.

Lemma persistInQueue_eq eventId topic content subscriber w :
  persistInQueue eventId topic content subscriber w =
  (Resolved tt,
   match queueOf subscriber topic w with
   | Some q => wrote (queueFileName subscriber topic)
                 (enqueued eventId content q) w
   | None => w
   end).
Proof.
  unfold persistInQueue, queueOf, bind, readJSON. simpl.
  by destruct (queueFiles (disk w) !! queueFileName subscriber topic).
Qed.

(** *** Publishing before the subscription exists *)

Lemma whileLoop_resolves fuel eventHandler subscriber topic content tries
    parentId acked triesCount :
  resolves
    (whileLoop fuel eventHandler subscriber topic content tries parentId
       acked triesCount).
Proof.
  revert acked triesCount.
  induction fuel as [|fuel IH]; intros acked triesCount w; simpl; [done|].
  destruct (negb acked && (triesCount <? 5)); [|done].
  unfold bind, thenCatch.
  destruct (tryProcessing _ _ _ _ _ _ w) as [[[]|e] w']; apply IH.
Qed.

Lemma forEach_resolves {A} (f : A → Promise unit) l :
  (∀ x, resolves (f x)) → resolves (forEach f l).
Proof.
  intros Hf. induction l as [|x l IH]; intros w; simpl; [done|].
  unfold bind. specialize (Hf x w).
  destruct (f x w) as [[[]|e] w']; simpl in Hf; [apply IH | discriminate].
Qed.

Lemma bind_resolves {A} (m : Promise A) (k : A → Promise unit) :
  (∀ w, ∃ a, (m w).1 = Resolved a) → (∀ a, resolves (k a)) →
  resolves (bind m k).
Proof.
  intros Hm Hk w. unfold bind. destruct (Hm w) as [a Ha].
  destruct (m w) as [[a'|e] w']; simpl in Ha; [apply Hk | discriminate].
Qed.

Lemma publish_resolves eventId parentId topic content :
  resolves (publish eventId parentId topic content).
Proof.
  unfold publish. apply bind_resolves; [by eexists|]. intros eventId'.
  apply bind_resolves.
  - intros w. exists tt. unfold persistEventsInSubscriberQueues, bind, getTopics.
    simpl. destruct (list_find _ _) as [[i topicObj]|]; [|done].
    apply forEach_resolves. intros s w'. by rewrite persistInQueue_eq.
  - intros _. unfold emit. apply bind_resolves; [by eexists|]. intros ls.
    apply forEach_resolves. intros l. apply whileLoop_resolves.
Qed.

(** Queue files are written only where they exist: a missing one stays
    missing through deliveries and fan-outs. *)
Section NoQueueFile.
Variable fileName : string.

Lemma wrote_noQueueFile other q w :
  is_Some (queueFiles (disk w) !! other) →
  noQueueFile fileName (disk w) →
  noQueueFile fileName (disk (wrote other q w)).
Proof.
  unfold noQueueFile. simpl. intros [q' Hq'] Hnone.
  rewrite lookup_insert_ne; [done|]. intros ->. congruence.
Qed.

Lemma incrementTries_noQueueFile subscriber topic eventId :
  preserves (noQueueFile fileName) (incrementTries subscriber topic eventId).
Proof.
  intros w Hnone. unfold run.
  destruct (queueOf subscriber topic w) as [q|] eqn:Hq;
    [|by rewrite incrementTries_missing].
  destruct (list_find (hasEventId eventId) (processingEvents q))
    as [[i v]|] eqn:Hfind;
    [|by rewrite (incrementTries_absent _ _ _ _ q)].
  rewrite (incrementTries_found _ _ _ _ q i v Hq Hfind).
  apply wrote_noQueueFile; [by exists q | done].
Qed.

Lemma eventAcknowledged_noQueueFile subscriber topic parentId :
  preserves (noQueueFile fileName)
    (eventAcknowledged subscriber topic parentId).
Proof.
  intros w Hnone. unfold run.
  destruct (queueOf subscriber topic w) as [q|] eqn:Hq;
    [|by rewrite eventAcknowledged_missing].
  destruct (list_find (hasEventId parentId) (processingEvents q))
    as [[i v]|] eqn:Hfind;
    [|by rewrite (eventAcknowledged_absent _ _ _ _ q)].
  rewrite (eventAcknowledged_found _ _ _ _ q i v Hq Hfind).
  apply wrote_noQueueFile; [by exists q | done].
Qed.

Lemma persistInQueue_noQueueFile eventId topic content subscriber :
  preserves (noQueueFile fileName)
    (persistInQueue eventId topic content subscriber).
Proof.
  intros w Hnone. unfold run. rewrite persistInQueue_eq. simpl.
  destruct (queueOf subscriber topic w) as [q|] eqn:Hq; [|done].
  apply wrote_noQueueFile; [by exists q | done].
Qed.

Lemma publish_noQueueFile eventId parentId topic content :
  preserves (noQueueFile fileName) (publish eventId parentId topic content).
Proof.
  unfold publish. apply preserves_bind; [by intros w H|]. intros eventId'.
  apply preserves_bind.
  - unfold persistEventsInSubscriberQueues.
    apply preserves_bind; [read_only|]. intros tops.
    destruct (list_find _ _) as [[i topicObj]|]; [|apply transfers_ret].
    apply preserves_forEach. intros s _. apply persistInQueue_noQueueFile.
  - intros _. apply emit_preserves. intros.
    apply tryProcessing_preserves;
      [apply incrementTries_noQueueFile | apply eventAcknowledged_noQueueFile].
Qed.
End NoQueueFile.

Lemma queueStable_eventFilesAre m : queueStable (eventFilesAre m).
Proof. by intros fileName q d H. Qed.

Lemma publish_eventsOf eventId parentId topic content w :
  eventsOf topic (run (publish eventId parentId topic content) w) =
  eventsOf topic w ++ [Logged.mk parentId eventId content].
Proof.
  rewrite <- persistEvent_eventsOf.
  set (w1 := run (persistEvent eventId topic content parentId) w).
  assert (persistEvent eventId topic content parentId w = (Resolved eventId, w1))
    as Hpe by reflexivity.
  unfold run at 1. unfold publish. rewrite (bind_resolved _ _ _ _ _ Hpe).
  assert (preserves (eventFilesAre (eventFiles (disk w1)))
            (persistEventsInSubscriberQueues eventId topic content >>
             emit topic content eventId)) as Hkeep.
  { apply preserves_bind.
    - apply persistEventsInSubscriberQueues_stable, queueStable_eventFilesAre.
    - intros _. apply emit_stable, queueStable_eventFilesAre. }
  specialize (Hkeep w1 eq_refl). unfold eventFilesAre, run in Hkeep.
  unfold eventsOf. by rewrite Hkeep.
Qed.

Lemma publishAll_log topic l fileName w :
  noQueueFile fileName (disk w) →
  (publishAll topic l w).1 = Resolved tt ∧
  noQueueFile fileName (disk (run (publishAll topic l) w)) ∧
  eventsOf topic (run (publishAll topic l) w) = eventsOf topic w ++ l.
Proof.
  revert w. induction l as [|e l IH]; intros w Hnone.
  - by rewrite app_nil_r.
  - unfold publishAll, run. simpl.
    pose proof (publish_resolves (Logged.eventId e) (Logged.parentId e) topic
                  (Logged.content e) w) as Hres.
    pose proof (publish_noQueueFile fileName (Logged.eventId e)
                  (Logged.parentId e) topic (Logged.content e) w Hnone) as Hn1.
    pose proof (publish_eventsOf (Logged.eventId e) (Logged.parentId e) topic
                  (Logged.content e) w) as He1.
    unfold run in Hn1, He1. unfold bind.
    destruct (publish _ _ _ _ w) as [[[]|err] w1]; simpl in *; [|discriminate].
    destruct (IH w1 Hn1) as (Hr & Hn & He). unfold publishAll, run in Hr, Hn, He.
    split_and!; [exact Hr | exact Hn |].
    rewrite He, He1, <- app_assoc. by destruct e.
Qed.

(** ** Fan-out *)

Lemma queueFileName_inj subscriber subscriber' topic :
  queueFileName subscriber topic = queueFileName subscriber' topic →
  subscriber = subscriber'.
Proof. destruct subscriber, subscriber', topic; by intros [=]. Qed.

Lemma forEach_persistInQueue eventId topic content l w :
  ∃ w',
    forEach (persistInQueue eventId topic content) l w = (Resolved tt, w') ∧
    (∀ subscriber,
       queueOf subscriber topic w = None →
       queueOf subscriber topic w' = None ∧
       ∃ tr, trace w' = trace w ++ tr ∧
             Forall (sparesFile (queueFileName subscriber topic)) tr) ∧
    (NoDup l →
     ∀ subscriber q,
       queueOf subscriber topic w = Some q →
       queueOf subscriber topic w' =
       Some (if decide (subscriber ∈ l) then enqueued eventId content q else q)).
Proof.
  revert w. induction l as [|s l IH]; intros w.
  - exists w. split_and!; [done| |].
    + intros subscriber Hq. split; [done|]. exists []. by rewrite app_nil_r.
    + intros _ subscriber q Hq. rewrite decide_False; [done|]. by intros H%elem_of_nil.
  - simpl. unfold bind at 1. rewrite persistInQueue_eq.
    set (w1 := match queueOf s topic w with
               | Some q => wrote (queueFileName s topic)
                             (enqueued eventId content q) w
               | None => w
               end).
    destruct (IH w1) as (w' & Hrun & Hnone & Hsome). exists w'.
    split_and!; [exact Hrun| |].
    + intros subscriber Hq.
      assert (queueOf subscriber topic w1 = None ∧
              ∃ tr, trace w1 = trace w ++ tr ∧
                    Forall (sparesFile (queueFileName subscriber topic)) tr)
        as (Hq1 & tr1 & Htr1 & Hsp1).
      { subst w1. destruct (queueOf s topic w) as [qs|] eqn:Hs.
        - assert (queueFileName s topic ≠ queueFileName subscriber topic) as Hne.
          { intros Heq. unfold queueOf in Hs, Hq. rewrite Heq in Hs. congruence. }
          split.
          + unfold queueOf, wrote. simpl. by rewrite lookup_insert_ne.
          + eexists. split; [reflexivity|]. by apply Forall_singleton.
        - split; [done|]. exists []. by rewrite app_nil_r. }
      destruct (Hnone subscriber Hq1) as (Hq' & tr & Htr & Hsp).
      split; [exact Hq'|]. exists (tr1 ++ tr).
      split; [by rewrite Htr, Htr1, app_assoc | by apply Forall_app].
    + intros [Hs Hl]%NoDup_cons subscriber q Hq.
      destruct (decide (subscriber = s)) as [->|Hne].
      * rewrite decide_True by left.
        subst w1. rewrite Hq in Hsome.
        rewrite (Hsome Hl s (enqueued eventId content q) (queueOf_wrote _ _ _ _)).
        by rewrite decide_False.
      * assert (queueOf subscriber topic w1 = Some q) as Hq1.
        { subst w1. destruct (queueOf s topic w) as [qs|]; [|done].
          unfold queueOf, wrote. simpl. rewrite lookup_insert_ne; [done|].
          intros Heq%queueFileName_inj. by apply Hne. }
        rewrite (Hsome Hl subscriber q Hq1).
        destruct (decide (subscriber ∈ l)) as [Hin|Hnin].
        -- rewrite decide_True; [done|]. by right.
        -- rewrite decide_False; [done|].
           intros [?|?]%elem_of_cons; contradiction.
Qed.

(** C10. A subscriber that the registry binds to the topic but that has
    no queue document is passed over by the fan-out: nothing is written to
    its file, which stays absent, and no error is raised; the other
    subscribers of the topic get the new entry at the end of their
    [processingEvents]. *)
Theorem fanout_skips_missing_queue eventId topic content w j topicObj
    subscriber :
  list_find (λ v, to_topic v = topic) (topics w) = Some (j, topicObj) →
  subscriber ∈ to_subscribers topicObj →
  NoDup (to_subscribers topicObj) →
  queueOf subscriber topic w = None →
  let fanout := persistEventsInSubscriberQueues eventId topic content w in
  fanout.1 = Resolved tt ∧
  queueOf subscriber topic fanout.2 = None ∧
  (∃ tr, trace fanout.2 = trace w ++ tr ∧
         Forall (sparesFile (queueFileName subscriber topic)) tr) ∧
  (∀ s q, s ∈ to_subscribers topicObj →
          queueOf s topic w = Some q →
          queueOf s topic fanout.2 = Some (enqueued eventId content q)).
Proof.
  intros Hfind Hin Hnodup Hq fanout.
  destruct (forEach_persistInQueue eventId topic content
              (to_subscribers topicObj) w) as (w' & Hrun & Hnone & Hsome).
  assert (fanout = (Resolved tt, w')) as ->.
  { subst fanout. unfold persistEventsInSubscriberQueues, bind, getTopics.
    simpl. rewrite Hfind. exact Hrun. }
  simpl. destruct (Hnone subscriber Hq) as (Hq' & Htr).
  split_and!; [done | exact Hq' | exact Htr |].
  intros s q Hs Hqs. rewrite (Hsome Hnodup s q Hqs). by rewrite decide_True.
Qed.

(** ** Exclusivity of the two sets of a queue *)

Lemma incremented_processingIds i v q :
  processingEvents q !! i = Some v →
  processingIds (incremented i v q) = processingIds q.
Proof.
  intros Hi. unfold processingIds. simpl.
  rewrite list_fmap_insert. apply list_insert_id.
  by rewrite list_lookup_fmap, Hi.
Qed.

Lemma incremented_exclusive i v q :
  processingEvents q !! i = Some v → exclusive q →
  exclusive (incremented i v q).
Proof.
  intros Hi Hex. unfold exclusive. by rewrite incremented_processingIds.
Qed.

Lemma acknowledged_exclusive i v parentId processedAt q :
  exclusive q → exclusive (acknowledged i v parentId processedAt q).
Proof.
  unfold exclusive, processingIds, processedIds. simpl.
  rewrite !Forall_forall. intros Hex id Hid.
  apply list_elem_of_fmap in Hid as (x & -> & Hx).
  apply list_elem_of_filter in Hx as [Hne Hx].
  apply list_elem_of_delete_inv in Hx.
  rewrite fmap_app. intros [Hin|Hin]%elem_of_app.
  - revert Hin. apply Hex. by apply list_elem_of_fmap_2.
  - apply list_elem_of_singleton in Hin. by apply Hne.
Qed.

Lemma enqueued_exclusive eventId content q :
  eventId ∉ processedIds q → exclusive q →
  exclusive (enqueued eventId content q).
Proof.
  unfold exclusive, processingIds. simpl. intros Hfresh Hex.
  rewrite fmap_app. apply Forall_app. split; [exact Hex|].
  by apply Forall_singleton.
Qed.

Lemma wrote_diskExclusive fileName q w :
  exclusive q → diskExclusive (disk w) →
  diskExclusive (disk (wrote fileName q w)).
Proof. intros Hq Hd. unfold diskExclusive. simpl. by apply map_Forall_insert_2. Qed.

Lemma incrementTries_exclusive subscriber topic eventId :
  preserves diskExclusive (incrementTries subscriber topic eventId).
Proof.
  intros w Hd. unfold run.
  destruct (queueOf subscriber topic w) as [q|] eqn:Hq;
    [|by rewrite incrementTries_missing].
  destruct (list_find (hasEventId eventId) (processingEvents q))
    as [[i v]|] eqn:Hfind;
    [|by rewrite (incrementTries_absent _ _ _ _ q)].
  rewrite (incrementTries_found _ _ _ _ q i v Hq Hfind).
  apply wrote_diskExclusive; [|done].
  apply list_find_Some in Hfind as (Hi & _).
  apply incremented_exclusive; [done|]. exact (Hd _ _ Hq).
Qed.

Lemma eventAcknowledged_exclusive subscriber topic parentId :
  preserves diskExclusive (eventAcknowledged subscriber topic parentId).
Proof.
  intros w Hd. unfold run.
  destruct (queueOf subscriber topic w) as [q|] eqn:Hq;
    [|by rewrite eventAcknowledged_missing].
  destruct (list_find (hasEventId parentId) (processingEvents q))
    as [[i v]|] eqn:Hfind;
    [|by rewrite (eventAcknowledged_absent _ _ _ _ q)].
  rewrite (eventAcknowledged_found _ _ _ _ q i v Hq Hfind).
  apply wrote_diskExclusive; [|done].
  apply acknowledged_exclusive. exact (Hd _ _ Hq).
Qed.

Lemma tryProcessing_exclusive subscriber topic parentId content eventHandler
    isRetry :
  preserves diskExclusive
    (tryProcessing subscriber topic parentId content eventHandler isRetry).
Proof.
  apply tryProcessing_preserves;
    [apply incrementTries_exclusive | apply eventAcknowledged_exclusive].
Qed.

Lemma loadDomainTopicQueue_exclusive subscriber topic :
  preserves diskExclusive (loadDomainTopicQueue subscriber topic).
Proof.
  intros w Hd. unfold run.
  destruct (queueOf subscriber topic w) as [q|] eqn:Hq.
  - by rewrite (loadDomainTopicQueue_present subscriber topic w q Hq).
  - rewrite (loadDomainTopicQueue_absent subscriber topic w Hq).
    apply wrote_diskExclusive; [|done]. unfold exclusive. simpl.
    apply Forall_forall. intros id _ Hin. by apply elem_of_nil in Hin.
Qed.

Lemma persistInQueue_exclusive eventId topic content subscriber :
  preserves (exclusiveAndFresh eventId)
    (persistInQueue eventId topic content subscriber).
Proof.
  intros w [Hd Hfresh]. unfold run. rewrite persistInQueue_eq. simpl.
  destruct (queueOf subscriber topic w) as [q|] eqn:Hq; [|done]. split.
  - apply wrote_diskExclusive; [|done].
    apply enqueued_exclusive; [exact (Hfresh _ _ Hq) | exact (Hd _ _ Hq)].
  - unfold freshId. simpl. apply map_Forall_insert_2; [|done].
    exact (Hfresh _ _ Hq).
Qed.

Lemma persistEventsInSubscriberQueues_exclusive eventId topic content :
  preserves (exclusiveAndFresh eventId)
    (persistEventsInSubscriberQueues eventId topic content).
Proof.
  unfold persistEventsInSubscriberQueues.
  apply preserves_bind; [read_only|]. intros tops.
  destruct (list_find _ _) as [[i topicObj]|]; [|apply transfers_ret].
  apply preserves_forEach. intros s _. apply persistInQueue_exclusive.
Qed.

Lemma persistEvent_result eventId topic content parentId w :
  (persistEvent eventId topic content parentId w).1 = Resolved eventId ∧
  queueFiles (disk (run (persistEvent eventId topic content parentId) w)) =
  queueFiles (disk w).
Proof. done. Qed.

Lemma publish_exclusive eventId parentId topic content :
  transfers (exclusiveAndFresh eventId) diskExclusive
    (publish eventId parentId topic content).
Proof.
  intros w [Hd Hfresh]. unfold run, publish.
  destruct (persistEvent_result eventId topic content parentId w) as [Hr Hqf].
  unfold run in Hqf.
  destruct (persistEvent eventId topic content parentId w) as [r w1] eqn:Hpe.
  simpl in Hr, Hqf. subst r.
  rewrite (bind_resolved _ _ _ _ _ Hpe).
  apply (transfers_bind (exclusiveAndFresh eventId) (exclusiveAndFresh eventId)
           diskExclusive
           (persistEventsInSubscriberQueues eventId topic content)).
  - apply persistEventsInSubscriberQueues_exclusive.
  - by intros d [? _].
  - intros _. apply (transfers_weaken diskExclusive _ diskExclusive);
      [by intros d [? _] | done |].
    apply emit_preserves. apply tryProcessing_exclusive.
  - unfold exclusiveAndFresh, diskExclusive, freshId. by rewrite Hqf.
Qed.

Lemma subscription_exclusive ref subscriber topic eventHandler :
  preserves diskExclusive (subscription ref subscriber topic eventHandler).
Proof.
  unfold subscription. apply preserves_bind; [read_only|]. intros subs.
  destruct (list_find _ _) as [[i o]|]; [apply transfers_throw|].
  apply preserves_bind; [read_only|]. intros _.
  apply preserves_bind; [read_only|]. intros tops.
  apply preserves_bind;
    [destruct (list_find _ _) as [[j topicObj]|]; read_only|].
  intros _.
  apply preserves_bind; [apply loadDomainTopicQueue_exclusive|]. intros q.
  apply preserves_bind;
    [apply replay_preserves; apply tryProcessing_exclusive|].
  intros _. read_only.
Qed.

Lemma step_exclusive w w' :
  step w w' → diskExclusive (disk w) → diskExclusive (disk w').
Proof.
  destruct 1 as [s t w | id t c w Hfresh | s t id w | s t id w
                | h s t c n id w | s w | ref s t h w | id p t c w Hfresh];
    intros Hd.
  - by apply loadDomainTopicQueue_exclusive.
  - by apply (persistEventsInSubscriberQueues_exclusive id t c w).
  - by apply incrementTries_exclusive.
  - by apply eventAcknowledged_exclusive.
  - apply executeEventHandler_preserves; [|done].
    apply tryProcessing_exclusive.
  - by apply readOnly_preserves; [apply subscriberInitializer_readOnly|].
  - by apply subscription_exclusive.
  - by apply (publish_exclusive id p t c w).
Qed.

Lemma steps_exclusive w w' :
  rtc step w w' → diskExclusive (disk w) → diskExclusive (disk w').
Proof.
  induction 1 as [w|w1 w2 w3 Hstep _ IH]; [done|].
  intros Hd. apply IH. exact (step_exclusive _ _ Hstep Hd).
Qed.

Lemma initialWorld_exclusive : diskExclusive (disk initialWorld).
Proof. unfold diskExclusive. simpl. apply map_Forall_empty. Qed.

(** Exclusivity does not depend on the reads being up to date: a write
    that starts from an old version of a file still writes an exclusive
    document. *)
Lemma rewrites_exclusive fresh q q' :
  (∀ eventId, fresh eventId → eventId ∉ processedIds q) →
  rewrites fresh q q' → exclusive q → exclusive q'.
Proof.
  intros Hfresh Hrw Hex.
  inversion Hrw as [q0 eventId i v Hfind | q0 parentId i v processedAt Hfind
                   | q0 eventId content Hf]; subst.
  - apply incremented_exclusive; [|done].
    by apply list_find_Some in Hfind as (? & _).
  - by apply acknowledged_exclusive.
  - apply enqueued_exclusive; [|done]. by apply Hfresh.
Qed.

Lemma racyStep_exclusive h h' :
  racyStep h h' → historyExclusive h → historyExclusive h'.
Proof.
  intros [f q0 h0 Hempty | f versions q0 q1 h0 Hf Hq0 Hrw] Hex g vs q Hg Hq.
  - destruct (decide (f = g)) as [->|Hne].
    + rewrite lookup_insert_eq in Hg. injection Hg as <-.
      apply elem_of_cons in Hq as [->|Hq].
      * unfold exclusive, processedIds. rewrite Hempty. simpl.
        apply Forall_forall. intros id _ Hin. by apply elem_of_nil in Hin.
      * destruct (h0 !! g) as [vs|] eqn:Hvs; simpl in Hq.
        -- by apply (Hex g vs).
        -- by apply elem_of_nil in Hq.
    + rewrite lookup_insert_ne in Hg by done. by apply (Hex g vs).
  - destruct (decide (f = g)) as [->|Hne].
    + rewrite lookup_insert_eq in Hg. injection Hg as <-.
      apply elem_of_cons in Hq as [->|Hq]; [|by apply (Hex g versions)].
      apply (rewrites_exclusive (neverProcessed h0) q0); [|done|].
      * intros id Hid. by apply (Hid g versions).
      * by apply (Hex g versions).
    + rewrite lookup_insert_ne in Hg by done. by apply (Hex g vs).
Qed.

Lemma racy_exclusive h : rtc racyStep ∅ h → historyExclusive h.
Proof.
  assert (∀ h0 h1, rtc racyStep h0 h1 →
                   historyExclusive h0 → historyExclusive h1) as Hrtc.
  { induction 1 as [|h0 h1 h2 Hstep _ IH]; [done|].
    intros Hex. apply IH. by apply (racyStep_exclusive h0). }
  intros Hreach. apply (Hrtc ∅ h Hreach).
  intros f vs q Hf. by rewrite lookup_empty in Hf.
Qed.

(** C3. In every queue document of every reachable world no event id is
    in both [processingEvents] and [processedEvents]: initialization,
    fan-out, [incrementTries] and acknowledgement, alone or inside the
    calls of the interface, keep the two sets apart; and an acknowledgement
    takes the entry out of [processingEvents] in the one write that puts it
    in [processedEvents]. *)
Theorem processing_and_processed_are_disjoint :
  (∀ w w', step w w' → diskExclusive (disk w) → diskExclusive (disk w')) ∧
  (∀ w, reachable w →
        ∀ subscriber topic q eventId,
          queueOf subscriber topic w = Some q →
          eventId ∈ processingIds q → eventId ∈ processedIds q → False) ∧
  (∀ subscriber topic eventId w q,
     queueOf subscriber topic w = Some q →
     eventId ∈ processingIds q →
     ∃ q',
       eventAcknowledged subscriber topic eventId w =
         (Resolved tt, wrote (queueFileName subscriber topic) q' w) ∧
       eventId ∈ processedIds q' ∧ eventId ∉ processingIds q').
Proof.
  split_and!.
  - exact step_exclusive.
  - intros w Hreach subscriber topic q eventId Hq Hing Hed.
    pose proof (steps_exclusive _ _ Hreach initialWorld_exclusive) as Hd.
    specialize (Hd _ _ Hq). unfold exclusive in Hd.
    rewrite Forall_forall in Hd. exact (Hd _ Hing Hed).
  - intros subscriber topic eventId w q Hq Hin.
    destruct (list_find_present _ _ Hin) as (i & v & Hfind).
    exists (acknowledged i v eventId (now w) q). split_and!.
    + by apply eventAcknowledged_found.
    + unfold processedIds. simpl. rewrite fmap_app. apply elem_of_app.
      right. by apply list_elem_of_singleton.
    + apply acknowledged_processingIds.
Qed.

(** * Instances of the theorems on concrete worlds *)

Lemma demoWorld_queue : queueOf PAYMENT ORDER_CREATED demoWorld = Some demoQueue.
Proof. vm_compute. reflexivity. Defined.

Lemma demoQueue_find :
  list_find (hasEventId "e1") (processingEvents demoQueue) =
  Some (0, Processing.mk "e1" "x" 0).
Proof. vm_compute. reflexivity. Defined.

Lemma incrementTries_raises_witness :
  notDeliverable PAYMENT ORDER_CREATED "e1" initialWorld
    (QueueNotFoundError (queueFileName PAYMENT ORDER_CREATED)) ∧
  incrementTries PAYMENT ORDER_CREATED "e1" initialWorld =
    (Rejected (QueueNotFoundError (queueFileName PAYMENT ORDER_CREATED)),
     initialWorld) ∧
  ∀ content eventHandler isRetry,
    let attempt :=
      tryProcessing PAYMENT ORDER_CREATED "e1" content eventHandler isRetry
        initialWorld in
    attempt.1 =
      Rejected (QueueNotFoundError (queueFileName PAYMENT ORDER_CREATED)) ∧
    invocations attempt.2 = invocations initialWorld ∧
    disk attempt.2 = disk initialWorld.
Proof.
  assert (notDeliverable PAYMENT ORDER_CREATED "e1" initialWorld
            (QueueNotFoundError (queueFileName PAYMENT ORDER_CREATED))) as H
    by (apply queue_missing; reflexivity).
  exact (conj H (incrementTries_raises _ _ _ _ _ H)).
Defined.

Lemma failed_queue_update_writes_nothing_witness :
  notDeliverable PAYMENT ORDER_CREATED "e9" demoWorld (EventNotFoundError "e9") ∧
  ∃ w1 w2,
    incrementTries PAYMENT ORDER_CREATED "e9" demoWorld =
      (Rejected (EventNotFoundError "e9"), w1) ∧
    eventAcknowledged PAYMENT ORDER_CREATED "e9" demoWorld =
      (Rejected (EventNotFoundError "e9"), w2) ∧
    disk w1 = disk demoWorld ∧ trace w1 = trace demoWorld ∧
    disk w2 = disk demoWorld ∧ trace w2 = trace demoWorld.
Proof.
  assert (notDeliverable PAYMENT ORDER_CREATED "e9" demoWorld
            (EventNotFoundError "e9")) as H.
  { apply (event_absent _ _ _ _ demoQueue); [exact demoWorld_queue|].
    apply (bool_decide_unpack _). vm_compute. exact I. }
  exact (conj H (failed_queue_update_writes_nothing _ _ _ _ _ H)).
Defined.

Lemma always_failing_handler_is_abandoned_witness :
  let w' :=
    run (executeEventHandler (always false) PAYMENT ORDER_CREATED "x" 0 "e1")
      demoWorld in
  (∀ n, always false n "e1" "x" = false) ∧
  queueOf PAYMENT ORDER_CREATED demoWorld = Some demoQueue ∧
  list_find (hasEventId "e1") (processingEvents demoQueue) =
    Some (0, Processing.mk "e1" "x" 0) ∧
  0 ≤ 5 ∧
  invocations w' = invocations demoWorld + (5 - 0) ∧
  queueOf PAYMENT ORDER_CREATED w' =
    Some (withProcessingEvents
            (<[0 := Processing.mk "e1" "x" 5]> (processingEvents demoQueue))
            demoQueue) ∧
  executeEventHandler (always false) PAYMENT ORDER_CREATED "x" 5 "e1" w' =
    (Resolved tt, w') ∧
  deadLetterFile (disk w') = deadLetterFile (disk demoWorld).
Proof.
  intros w'.
  assert (∀ n, always false n "e1" "x" = false) as H1 by reflexivity.
  assert (0 ≤ 5) as H5 by lia.
  exact (conj H1 (conj demoWorld_queue (conj demoQueue_find (conj H5
           (always_failing_handler_is_abandoned (always false) PAYMENT
              ORDER_CREATED "x" 0 "e1" demoWorld demoQueue 0
              (Processing.mk "e1" "x" 0) H1 demoWorld_queue demoQueue_find
              eq_refl H5))))).
Defined.

Lemma failed_attempts_leave_no_error_record_witness :
  let w' :=
    run (executeEventHandler (failsFirst 4) PAYMENT ORDER_CREATED "x" 0 "e1")
      demoWorld in
  (∀ k, k < 4 → failsFirst 4 (invocations demoWorld + k) "e1" "x" = false) ∧
  failsFirst 4 (invocations demoWorld + 4) "e1" "x" = true ∧
  invocations w' = invocations demoWorld + 5 ∧
  (∃ q', queueOf PAYMENT ORDER_CREATED w' = Some q' ∧
         processedEvents q' =
           processedEvents demoQueue ++
           [Processed.mk "e1" 5 (now demoWorld + 25000)%N] ∧
         "e1" ∉ processingIds q') ∧
  errorFile (disk w') = errorFile (disk demoWorld).
Proof.
  intros w'.
  assert (∀ k, k < 4 →
               failsFirst 4 (invocations demoWorld + k) "e1" "x" = false) as H1.
  { intros k Hk. unfold failsFirst. apply Nat.leb_gt.
    change (invocations demoWorld) with 0. lia. }
  assert (failsFirst 4 (invocations demoWorld + 4) "e1" "x" = true) as H2
    by reflexivity.
  exact (conj H1 (conj H2
           (failed_attempts_leave_no_error_record (failsFirst 4) PAYMENT
              ORDER_CREATED "x" "e1" demoWorld demoQueue 0
              (Processing.mk "e1" "x" 0) H1 H2 demoWorld_queue demoQueue_find
              eq_refl))).
Defined.

Lemma tries_incremented_before_handler_witness :
  queueOf PAYMENT ORDER_CREATED demoWorld = Some demoQueue ∧
  list_find (hasEventId "e1") (processingEvents demoQueue) =
    Some (0, Processing.mk "e1" "x" 0) ∧
  always true (invocations demoWorld) "e1" "x" = true ∧
  let w' :=
    run (executeEventHandler (always true) PAYMENT ORDER_CREATED "x" 0 "e1")
      demoWorld in
  invocations w' = S (invocations demoWorld) ∧
  ∃ q', queueOf PAYMENT ORDER_CREATED w' = Some q' ∧
        processedEvents q' =
          processedEvents demoQueue ++
          [Processed.mk "e1" 1 (now demoWorld + 5000)%N] ∧
        "e1" ∉ processingIds q'.
Proof.
  assert (always true (invocations demoWorld) "e1" "x" = true) as Hok
    by reflexivity.
  exact (conj demoWorld_queue (conj demoQueue_find (conj Hok
           (proj2 (tries_incremented_before_handler (always true) PAYMENT
                     ORDER_CREATED "x" "e1" demoWorld demoQueue 0
                     (Processing.mk "e1" "x" 0) demoWorld_queue
                     demoQueue_find) Hok eq_refl)))).
Defined.

Lemma restoredWorld_queue :
  queueOf PAYMENT ORDER_CREATED restoredWorld = Some restoredQueue.
Proof. apply queueOf_wrote. Defined.

Lemma exhausted_entry_is_left_alone_witness :
  let v := Processing.mk "e1" "x" 5 in
  queueOf PAYMENT ORDER_CREATED restoredWorld = Some restoredQueue ∧
  v ∈ processingEvents restoredQueue ∧
  5 ≤ Processing.tries v ∧
  NoDup (processingIds restoredQueue) ∧
  executeEventHandler (always true) PAYMENT ORDER_CREATED "x" 5 "e1"
    restoredWorld = (Resolved tt, restoredWorld) ∧
  holdsEntry PAYMENT ORDER_CREATED v
    (disk (run (replay (always true) PAYMENT ORDER_CREATED restoredQueue)
             restoredWorld)).
Proof.
  intros v.
  assert (v ∈ processingEvents restoredQueue) as Hv
    by (apply (bool_decide_unpack _); vm_compute; exact I).
  assert (5 ≤ Processing.tries v) as Htries by (simpl; lia).
  assert (NoDup (processingIds restoredQueue)) as Hnodup
    by (apply (bool_decide_unpack _); vm_compute; exact I).
  pose proof (exhausted_entry_is_left_alone (always true) PAYMENT
                ORDER_CREATED restoredWorld restoredQueue v
                restoredWorld_queue Hv Htries) as (Hrun & Hkeep & _).
  exact (conj restoredWorld_queue (conj Hv (conj Htries (conj Hnodup
           (conj Hrun (Hkeep Hnodup)))))).
Defined.

Lemma fanout_skips_missing_queue_witness :
  let topicObj :=
    {| to_topic := ORDER_CREATED; to_subscribers := [PAYMENT; INVENTORY] |} in
  let fanout :=
    persistEventsInSubscriberQueues "e1" ORDER_CREATED "x" boundWorld in
  list_find (λ v, to_topic v = ORDER_CREATED) (topics boundWorld) =
    Some (0, topicObj) ∧
  PAYMENT ∈ to_subscribers topicObj ∧
  NoDup (to_subscribers topicObj) ∧
  queueOf PAYMENT ORDER_CREATED boundWorld = None ∧
  fanout.1 = Resolved tt ∧
  queueOf PAYMENT ORDER_CREATED fanout.2 = None ∧
  (∃ tr, trace fanout.2 = trace boundWorld ++ tr ∧
         Forall (sparesFile (queueFileName PAYMENT ORDER_CREATED)) tr) ∧
  (∀ s q, s ∈ to_subscribers topicObj →
          queueOf s ORDER_CREATED boundWorld = Some q →
          queueOf s ORDER_CREATED fanout.2 = Some (enqueued "e1" "x" q)).
Proof.
  intros topicObj fanout.
  assert (list_find (λ v, to_topic v = ORDER_CREATED) (topics boundWorld) =
          Some (0, topicObj)) as H1 by reflexivity.
  assert (PAYMENT ∈ to_subscribers topicObj) as H2
    by (apply (bool_decide_unpack _); vm_compute; exact I).
  assert (NoDup (to_subscribers topicObj)) as H3
    by (apply (bool_decide_unpack _); vm_compute; exact I).
  assert (queueOf PAYMENT ORDER_CREATED boundWorld = None) as H4
    by (vm_compute; reflexivity).
  exact (conj H1 (conj H2 (conj H3 (conj H4
           (fanout_skips_missing_queue "e1" ORDER_CREATED "x" boundWorld 0
              topicObj PAYMENT H1 H2 H3 H4))))).
Defined.

Lemma servedWorld_reachable : reachable servedWorld.
Proof.
  unfold reachable, servedWorld.
  eapply rtc_l; [apply (step_register PAYMENT)|].
  eapply rtc_l; [apply (step_subscribe 0 PAYMENT ORDER_CREATED (λ _ _ _, true))|].
  eapply rtc_l; [|apply rtc_refl].
  apply (step_publish "e1" "p0" ORDER_CREATED "x").
  apply (bool_decide_unpack _). vm_compute. exact I.
Defined.

Lemma servedWorld_queue :
  queueOf PAYMENT ORDER_CREATED servedWorld = Some servedQueue.
Proof. vm_compute. reflexivity. Defined.

Lemma processing_and_processed_are_disjoint_witness :
  reachable servedWorld ∧
  queueOf PAYMENT ORDER_CREATED servedWorld = Some servedQueue ∧
  "e1" ∈ processedIds servedQueue ∧
  ("e1" ∈ processingIds servedQueue → False).
Proof.
  assert ("e1" ∈ processedIds servedQueue) as Hed
    by (apply (bool_decide_unpack _); vm_compute; exact I).
  exact (conj servedWorld_reachable (conj servedWorld_queue (conj Hed
           (λ Hing,
              proj1 (proj2 processing_and_processed_are_disjoint) servedWorld
                servedWorld_reachable PAYMENT ORDER_CREATED servedQueue "e1"
                servedWorld_queue Hing Hed)))).
Defined.

(** * The scenarios, run *)

(** Scenario D: the handler always rejects.  Five calls are made, the
    entry stays in [processingEvents] with [tries = 5], and there is no
    dead-letter file. *)
Example scenarioD_no_dead_letter :
  let w' :=
    run (executeEventHandler (always false) PAYMENT ORDER_CREATED "x" 0 "e1")
      demoWorld in
  invocations w' = 5 ∧
  queueOf PAYMENT ORDER_CREATED w' =
    Some {| queue_subscriber := PAYMENT; queue_topic := ORDER_CREATED;
            processedEvents := [];
            processingEvents := [Processing.mk "e1" "x" 5] |} ∧
  deadLetterFile (disk w') = None.
Proof. vm_compute. done. Qed.

(** Scenario C: the handler rejects four times and then resolves.  The
    event is processed with [tries = 5] and there is no error file. *)
Example scenarioC_no_error_record :
  let w' :=
    run (executeEventHandler (failsFirst 4) PAYMENT ORDER_CREATED "x" 0 "e1")
      demoWorld in
  invocations w' = 5 ∧
  queueOf PAYMENT ORDER_CREATED w' =
    Some {| queue_subscriber := PAYMENT; queue_topic := ORDER_CREATED;
            processedEvents := [Processed.mk "e1" 5 25000%N];
            processingEvents := [] |} ∧
  errorFile (disk w') = None.
Proof. vm_compute. done. Qed.

(** The effects of delivering a fresh event to a handler that resolves:
    the timer comes first. *)
Example fresh_event_effects :
  effectsOf (executeEventHandler (always true) PAYMENT ORDER_CREATED "x" 0 "e1")
    demoWorld =
  [SetTimeout 5000%N;
   WriteQueue (queueFileName PAYMENT ORDER_CREATED)
     {| queue_subscriber := PAYMENT; queue_topic := ORDER_CREATED;
        processedEvents := [];
        processingEvents := [Processing.mk "e1" "x" 1] |};
   Invoke "e1" "x" true;
   WriteQueue (queueFileName PAYMENT ORDER_CREATED)
     {| queue_subscriber := PAYMENT; queue_topic := ORDER_CREATED;
        processedEvents := [Processed.mk "e1" 1 5000%N];
        processingEvents := [] |}].
Proof. vm_compute. reflexivity. Qed.

(** A missing queue document is not noticed by the loop: it makes five
    delayed attempts, none of which reaches the handler. *)
Example missing_queue_is_retried :
  effectsOf (executeEventHandler (always true) PAYMENT ORDER_CREATED "x" 0 "e1")
    initialWorld =
  [SetTimeout 5000%N; SetTimeout 5000%N; SetTimeout 5000%N; SetTimeout 5000%N;
   SetTimeout 5000%N].
Proof. vm_compute. reflexivity. Qed.

(** * The rest of the delivery engine *)

(** ** Every case of a delivery attempt *)

Lemma tryProcessing_cases subscriber topic parentId content eventHandler
    isRetry w :
  (∃ e, notDeliverable subscriber topic parentId w e ∧
        tryProcessing subscriber topic parentId content eventHandler isRetry
          w =
        (Rejected e, if isRetry then afterTimeout 5000%N w else w)) ∨
  (∃ q i v,
     queueOf subscriber topic w = Some q ∧
     list_find (hasEventId parentId) (processingEvents q) = Some (i, v) ∧
     tryProcessing subscriber topic parentId content eventHandler isRetry w =
     if eventHandler (invocations w) parentId content
     then (Resolved tt,
           delivered subscriber topic parentId content eventHandler w q i v
             isRetry)
     else (Rejected (HandlerError parentId),
           attempted subscriber topic parentId content eventHandler w q i v
             isRetry)).
Proof.
  destruct (queueOf subscriber topic w) as [q|] eqn:Hq.
  - destruct (list_find (hasEventId parentId) (processingEvents q))
      as [[i v]|] eqn:Hfind.
    + right. exists q, i, v. split_and!; [done..|].
      by apply tryProcessing_found.
    + left. exists (EventNotFoundError parentId).
      assert (notDeliverable subscriber topic parentId w
                (EventNotFoundError parentId)) as Hnd.
      { apply (event_absent _ _ _ _ q Hq). by apply list_find_absent. }
      split; [exact Hnd|]. by apply tryProcessing_notDeliverable.
  - left. exists (QueueNotFoundError (queueFileName subscriber topic)).
    assert (notDeliverable subscriber topic parentId w
              (QueueNotFoundError (queueFileName subscriber topic))) as Hnd
      by (by apply queue_missing).
    split; [exact Hnd|]. by apply tryProcessing_notDeliverable.
Qed.

(** An attempt calls the handler at most once and takes at most one
    timer. *)
Lemma tryProcessing_cost subscriber topic parentId content eventHandler
    isRetry w :
  let w' :=
    run (tryProcessing subscriber topic parentId content eventHandler isRetry)
      w in
  invocations w ≤ invocations w' ≤ S (invocations w) ∧
  (now w ≤ now w' ≤ now w + 5000)%N.
Proof.
  intros w'. subst w'. unfold run.
  destruct (tryProcessing_cases subscriber topic parentId content eventHandler
              isRetry w) as [(e & _ & ->) | (q & i & v & _ & _ & ->)].
  - destruct isRetry; simpl; lia.
  - destruct (eventHandler (invocations w) parentId content);
      destruct isRetry; simpl; lia.
Qed.

Lemma whileLoop_cost fuel eventHandler subscriber topic content tries
    parentId acked triesCount w :
  let w' :=
    run (whileLoop fuel eventHandler subscriber topic content tries parentId
           acked triesCount) w in
  invocations w ≤ invocations w' ≤
    invocations w + (if acked then 0 else 5 - triesCount) ∧
  (now w ≤ now w' ≤
     now w + 5000 * N.of_nat (if acked then 0 else 5 - triesCount))%N.
Proof.
  revert acked triesCount w.
  induction fuel as [|fuel IH]; intros acked triesCount w; cbv zeta.
  - unfold run. simpl. lia.
  - destruct acked; [rewrite whileLoop_exit by auto; unfold run; simpl; lia|].
    destruct (decide (5 ≤ triesCount)) as [Hge|Hlt];
      [rewrite whileLoop_exit by auto; unfold run; simpl; lia|].
    unfold run. rewrite whileLoop_iterate by lia. cbv zeta.
    pose proof (tryProcessing_cost subscriber topic parentId content
                  eventHandler (negb (S triesCount =? tries)) w) as Hcost.
    cbv zeta in Hcost. unfold run in Hcost.
    destruct (tryProcessing subscriber topic parentId content eventHandler
                (negb (S triesCount =? tries)) w) as [r w1].
    cbn [fst snd] in *.
    pose proof (IH (match r with Resolved _ => true | Rejected _ => false end)
                  (S triesCount) w1) as Hrest.
    cbv zeta in Hrest. unfold run in Hrest.
    destruct r; lia.
Qed.

(** X1. When the files it reads hold documents and the calls of the
    handler settle, as in the model, a delivery settles and never rejects:
    the rejection of an attempt, be it for a missing queue document, for an
    event that is not in [processingEvents] or for a handler that rejects,
    is caught by the loop.  It calls the handler at most [5 - tries] times
    and waits at most that many timers. *)
Theorem delivery_never_rejects_and_is_bounded eventHandler subscriber topic
    content tries parentId w :
  let delivery :=
    executeEventHandler eventHandler subscriber topic content tries parentId
      w in
  delivery.1 = Resolved tt ∧
  invocations w ≤ invocations delivery.2 ≤ invocations w + (5 - tries) ∧
  (now w ≤ now delivery.2 ≤ now w + 5000 * N.of_nat (5 - tries))%N.
Proof.
  intros delivery. subst delivery. split.
  - apply whileLoop_resolves.
  - apply (whileLoop_cost 5 eventHandler subscriber topic content tries
             parentId false tries w).
Qed.

(** ** Deliveries that cannot go through *)

Lemma whileLoop_undeliverable fuel eventHandler subscriber topic content
    tries parentId triesCount w e :
  tries ≤ triesCount → 5 - triesCount ≤ fuel →
  notDeliverable subscriber topic parentId w e →
  let w' :=
    run (whileLoop fuel eventHandler subscriber topic content tries parentId
           false triesCount) w in
  disk w' = disk w ∧
  invocations w' = invocations w ∧
  trace w' = trace w ++ replicate (5 - triesCount) (SetTimeout 5000%N) ∧
  now w' = (now w + 5000 * N.of_nat (5 - triesCount))%N.
Proof.
  revert triesCount w.
  induction fuel as [|fuel IH]; intros triesCount w Htries Hfuel Hnd; cbv zeta.
  - replace (5 - triesCount) with 0 by lia. unfold run. simpl.
    rewrite app_nil_r. split_and!; [done | done | done | lia].
  - destruct (decide (5 ≤ triesCount)) as [Hge|Hlt].
    + rewrite whileLoop_exit by auto.
      replace (5 - triesCount) with 0 by lia. unfold run. simpl.
      rewrite app_nil_r. split_and!; [done | done | done | lia].
    + unfold run. rewrite whileLoop_always_delayed by lia. cbv zeta.
      rewrite (tryProcessing_notDeliverable _ _ _ _ _ _ _ _ Hnd).
      cbn [fst snd].
      assert (notDeliverable subscriber topic parentId
                (afterTimeout 5000%N w) e) as Hnd1
        by (by apply (notDeliverable_disk _ _ _ w)).
      destruct (IH (S triesCount) (afterTimeout 5000%N w)
                  ltac:(lia) ltac:(lia) Hnd1) as (Hd & Hi & Ht & Hn).
      unfold run in Hd, Hi, Ht, Hn. rewrite Hd, Hi, Ht, Hn.
      replace (5 - triesCount) with (S (5 - S triesCount)) by lia.
      split_and!; [done | done | |].
      * simpl. by rewrite <- app_assoc.
      * simpl now. lia.
Qed.

(** X2. When the queue document is missing or the event is not in
    [processingEvents], the loop does not notice: it waits [5 - tries]
    timers, one per attempt, never calls the handler, writes nothing, and
    resolves. *)
Theorem undeliverable_event_is_retried_blindly eventHandler subscriber topic
    content tries parentId w e :
  notDeliverable subscriber topic parentId w e →
  let delivery :=
    executeEventHandler eventHandler subscriber topic content tries parentId
      w in
  delivery.1 = Resolved tt ∧
  disk delivery.2 = disk w ∧
  invocations delivery.2 = invocations w ∧
  trace delivery.2 = trace w ++ replicate (5 - tries) (SetTimeout 5000%N) ∧
  now delivery.2 = (now w + 5000 * N.of_nat (5 - tries))%N.
Proof.
  intros Hnd delivery. subst delivery. split; [apply whileLoop_resolves|].
  apply (whileLoop_undeliverable 5 eventHandler subscriber topic content tries
           parentId tries w e); [done | lia | done].
Qed.

(** ** What an acknowledgement leaves in the queue *)

Lemma list_delete_insert_same {A} (l : list A) i x :
  delete i (<[i := x]> l) = delete i l.
Proof.
  revert i. induction l as [|y l IH]; intros [|i]; simpl; [done..|].
  f_equal. apply IH.
Qed.

Lemma filter_delete_matching parentId (l : list Processing.t) i v :
  l !! i = Some v → hasEventId parentId v →
  filter (λ x, ¬ hasEventId parentId x) (delete i l) =
  filter (λ x, ¬ hasEventId parentId x) l.
Proof.
  intros Hi Hv. rewrite delete_take_drop.
  rewrite <- (take_drop_middle l i v Hi) at 3.
  rewrite !filter_app. f_equal.
  rewrite filter_cons_False; [done|]. by intros H.
Qed.

Lemma acknowledged_incremented i v x parentId processedAt q :
  list_find (hasEventId parentId) (processingEvents q) = Some (i, v) →
  processingEvents (acknowledged i x parentId processedAt (incremented i v q)) =
  filter (λ y, ¬ hasEventId parentId y) (processingEvents q).
Proof.
  intros (Hi & Hv & _)%list_find_Some. simpl.
  rewrite list_delete_insert_same. by apply (filter_delete_matching _ _ i v).
Qed.

(** X3. An acknowledgement removes every entry of the event from
    [processingEvents], also when the id occurs more than once, and keeps
    the entries of the other events in their order; the entry added to
    [processedEvents] carries the [tries] of the first entry of the event
    and the time of the call.  Subscriber and topic of the document are
    kept. *)
Theorem acknowledgement_drops_every_entry_of_the_event subscriber topic
    parentId w q :
  queueOf subscriber topic w = Some q →
  parentId ∈ processingIds q →
  ∃ i v q',
    list_find (hasEventId parentId) (processingEvents q) = Some (i, v) ∧
    eventAcknowledged subscriber topic parentId w =
      (Resolved tt, wrote (queueFileName subscriber topic) q' w) ∧
    processingEvents q' =
      filter (λ x, ¬ hasEventId parentId x) (processingEvents q) ∧
    processedEvents q' =
      processedEvents q ++
      [Processed.mk parentId (Processing.tries v) (now w)] ∧
    queue_subscriber q' = queue_subscriber q ∧
    queue_topic q' = queue_topic q.
Proof.
  intros Hq Hin. destruct (list_find_present _ _ Hin) as (i & v & Hfind).
  exists i, v, (acknowledged i v parentId (now w) q).
  split_and!; [done | by apply eventAcknowledged_found | | done..].
  simpl. apply list_find_Some in Hfind as (Hi & Hv & _).
  by apply (filter_delete_matching _ _ i v).
Qed.

(** ** Deliveries that succeed in the end *)

Lemma executeEventHandler_succeeds_after eventHandler subscriber topic
    content tries parentId w q i v n :
  queueOf subscriber topic w = Some q →
  list_find (hasEventId parentId) (processingEvents q) = Some (i, v) →
  tries + n < 5 →
  (∀ k, k < n → eventHandler (invocations w + k) parentId content = false) →
  eventHandler (invocations w + n) parentId content = true →
  ∃ w1,
    invocations w1 = invocations w + n ∧
    now w1 = (now w + 5000 * N.of_nat n)%N ∧
    executeEventHandler eventHandler subscriber topic content tries parentId
      w =
    (Resolved tt,
     delivered subscriber topic parentId content eventHandler w1
       (withProcessingEvents (<[i := retried n v]> (processingEvents q)) q)
       i (retried n v) true).
Proof.
  intros Hq Hfind Hn Hfail Hok.
  destruct (whileLoop_failures eventHandler subscriber topic content tries
              parentId n (5 - n) tries w q i v)
    as (w1 & Hrun & Hinv & Hnow & Hq1); [lia | lia | done | done | done |].
  exists w1. split_and!; [done | done |].
  unfold executeEventHandler. replace 5 with (n + (5 - n)) at 1 by lia.
  rewrite Hrun. replace (5 - n) with (S (4 - n)) by lia.
  rewrite whileLoop_always_delayed by lia. cbv zeta.
  rewrite (tryProcessing_found _ _ _ _ _ _ _ i (retried n v) Hq1
             (list_find_retried _ _ _ _ n Hfind)).
  rewrite Hinv, Hok. cbn [fst snd]. by rewrite whileLoop_exit by auto.
Qed.

(** X4. When the handler rejects [n] times and then resolves, with
    [tries + n < 5], the delivery makes exactly [n + 1] handler calls, each
    after a five-second timer, and then stops.  The event is recorded in
    [processedEvents] with its persisted [tries] raised by [n + 1], every
    entry of the event is gone from [processingEvents], and the other
    entries are as they were. *)
Theorem delivery_succeeds_after_failures eventHandler subscriber topic
    content tries parentId w q i v n :
  queueOf subscriber topic w = Some q →
  list_find (hasEventId parentId) (processingEvents q) = Some (i, v) →
  tries + n < 5 →
  (∀ k, k < n → eventHandler (invocations w + k) parentId content = false) →
  eventHandler (invocations w + n) parentId content = true →
  let w' :=
    run (executeEventHandler eventHandler subscriber topic content tries
           parentId) w in
  invocations w' = invocations w + S n ∧
  now w' = (now w + 5000 * N.of_nat (S n))%N ∧
  ∃ q',
    queueOf subscriber topic w' = Some q' ∧
    processedEvents q' =
      processedEvents q ++
      [Processed.mk parentId (Processing.tries v + S n)
         (now w + 5000 * N.of_nat (S n))%N] ∧
    processingEvents q' =
      filter (λ x, ¬ hasEventId parentId x) (processingEvents q).
Proof.
  intros Hq Hfind Hn Hfail Hok w'.
  destruct (executeEventHandler_succeeds_after eventHandler subscriber topic
              content tries parentId w q i v n Hq Hfind Hn Hfail Hok)
    as (w1 & Hinv & Hnow & Hrun).
  subst w'. unfold run. rewrite Hrun. cbn [snd].
  split_and!.
  - simpl. lia.
  - simpl. lia.
  - eexists. split; [apply queueOf_wrote|]. split.
    + simpl. rewrite Hnow. do 3 f_equal; lia.
    + rewrite (acknowledged_incremented i (retried n v) _ parentId _
                 (withProcessingEvents (<[i := retried n v]> (processingEvents q)) q)
                 (list_find_retried _ _ _ _ n Hfind)).
      simpl.
      pose proof Hfind as (Hi & Hv & _)%list_find_Some.
      rewrite <- (filter_delete_matching parentId
                    (<[i := retried n v]> (processingEvents q)) i (retried n v)).
      * rewrite list_delete_insert_same.
        by apply (filter_delete_matching _ _ i v).
      * apply list_lookup_insert_eq. by eapply lookup_lt_Some.
      * exact Hv.
Qed.

(** X5. An event that has been acknowledged is not handed to the handler
    again: after a delivery whose first attempt succeeds, any further
    delivery of the same event to the same subscriber, with any handler and
    any [tries], changes nothing in the directory and calls no handler. *)
Theorem acknowledged_event_is_not_redelivered eventHandler subscriber topic
    content tries parentId w q :
  queueOf subscriber topic w = Some q →
  parentId ∈ processingIds q →
  tries < 5 →
  eventHandler (invocations w) parentId content = true →
  let w' :=
    run (executeEventHandler eventHandler subscriber topic content tries
           parentId) w in
  ∀ eventHandler' content' tries',
    let again :=
      executeEventHandler eventHandler' subscriber topic content' tries'
        parentId w' in
    again.1 = Resolved tt ∧
    disk again.2 = disk w' ∧
    invocations again.2 = invocations w'.
Proof.
  intros Hq Hin Htries Hok w' eventHandler' content' tries' again.
  destruct (list_find_present _ _ Hin) as (i & v & Hfind).
  destruct (executeEventHandler_succeeds_after eventHandler subscriber topic
              content tries parentId w q i v 0 Hq Hfind)
    as (w1 & _ & _ & Hrun); [lia | intros k Hk; lia | by rewrite Nat.add_0_r |].
  assert (notDeliverable subscriber topic parentId w'
            (EventNotFoundError parentId)) as Hnd.
  { subst w'. unfold run. rewrite Hrun. cbn [snd].
    eapply event_absent; [apply queueOf_wrote|].
    apply acknowledged_processingIds. }
  subst again. split; [apply whileLoop_resolves|].
  destruct (whileLoop_undeliverable 5 eventHandler' subscriber topic content'
              tries' parentId tries' w' _ ltac:(lia) ltac:(lia) Hnd)
    as (Hd & Hi & _).
  by split.
Qed.

(** ** What a computation leaves alone in the world *)

Lemma keeps_ret {A} I (a : A) : keeps I (ret a).
Proof. by intros w. Qed.

Lemma keeps_throw {A} I e : keeps I (@throw A e).
Proof. by intros w. Qed.

Lemma keeps_bind {A B} I (m : Promise A) (k : A → Promise B) :
  keeps I m → (∀ a, keeps I (k a)) → keeps I (bind m k).
Proof.
  intros Hm Hk w HI. specialize (Hm w HI). unfold run, bind in *.
  destruct (m w) as [[a|e] w']; simpl in *; [by apply (Hk a w') | done].
Qed.

Lemma keeps_thenCatch {A B} I (m : Promise A) (onOk : A → B) onErr :
  keeps I m → keeps I (thenCatch m onOk onErr).
Proof.
  intros Hm w HI. specialize (Hm w HI). unfold run, thenCatch in *.
  by destruct (m w) as [[a|e] w'].
Qed.

Lemma keeps_forEach {A} I (f : A → Promise unit) (l : list A) :
  (∀ x, keeps I (f x)) → keeps I (forEach f l).
Proof.
  intros Hf. induction l as [|x l IH]; simpl; [apply keeps_ret|].
  apply keeps_bind; [apply Hf | intros _; apply IH].
Qed.

Lemma diskBlind_registryIs subs tops ls : diskBlind (registryIs subs tops ls).
Proof. intros w H. by split_and!. Qed.

Section DiskBlind.
Variable I : World → Prop.
Hypothesis HI : diskBlind I.

Lemma keeps_readJSON {T} `{Document T} fileName :
  keeps I (readJSON (T:=T) fileName).
Proof using Type. by intros w. Qed.

Lemma keeps_writeJSON {T} `{Document T} fileName (content : T) :
  keeps I (writeJSON fileName content).
Proof using HI.
  intros w Hw. unfold run, writeJSON. simpl.
  apply HI. by apply HI.
Qed.

Lemma keeps_setTimeout ms : keeps I (setTimeout ms).
Proof using HI. intros w Hw. unfold run, setTimeout. simpl. apply HI. by apply HI. Qed.

Lemma keeps_callHandler eventHandler parentId content :
  keeps I (callHandler eventHandler parentId content).
Proof using HI.
  intros w Hw. unfold run. rewrite callHandler_eq. simpl. unfold invoked.
  apply HI. by apply HI.
Qed.

Lemma keeps_incrementTries subscriber topic eventId :
  keeps I (incrementTries subscriber topic eventId).
Proof using HI.
  unfold incrementTries. apply keeps_bind; [apply keeps_readJSON|].
  intros [q|]; [|apply keeps_throw].
  destruct (list_find _ _) as [[i v]|]; [|apply keeps_throw].
  apply keeps_bind; [apply keeps_writeJSON|]. intros _. apply keeps_ret.
Qed.

Lemma keeps_eventAcknowledged subscriber topic parentId :
  keeps I (eventAcknowledged subscriber topic parentId).
Proof using HI.
  unfold eventAcknowledged. apply keeps_bind; [apply keeps_readJSON|].
  intros [q|]; [|apply keeps_throw].
  destruct (list_find _ _) as [[i v]|]; [|apply keeps_throw].
  apply keeps_bind; [by intros w|]. intros processedAt.
  apply keeps_bind; [apply keeps_writeJSON|]. intros _. apply keeps_ret.
Qed.

Lemma keeps_tryProcessing subscriber topic parentId content eventHandler
    isRetry :
  keeps I
    (tryProcessing subscriber topic parentId content eventHandler isRetry).
Proof using HI.
  assert (keeps I
            (incrementTries subscriber topic parentId >>
             callHandler eventHandler parentId content >>
             eventAcknowledged subscriber topic parentId)) as H.
  { apply keeps_bind; [apply keeps_incrementTries|]. intros _.
    apply keeps_bind; [apply keeps_callHandler|]. intros _.
    apply keeps_eventAcknowledged. }
  unfold tryProcessing. destruct isRetry; [|exact H].
  apply keeps_bind; [apply keeps_setTimeout|]. intros _. exact H.
Qed.

Lemma keeps_executeEventHandler eventHandler subscriber topic content tries
    parentId :
  keeps I
    (executeEventHandler eventHandler subscriber topic content tries parentId).
Proof using HI.
  unfold executeEventHandler. generalize false, tries at 2, 5.
  intros acked triesCount fuel. revert acked triesCount.
  induction fuel as [|fuel IH]; intros acked triesCount; simpl;
    [apply keeps_ret|].
  destruct (negb acked && (triesCount <? 5)); [|apply keeps_ret].
  apply keeps_bind; [apply keeps_thenCatch, keeps_tryProcessing|].
  intros acked'. apply IH.
Qed.

Lemma keeps_replay eventHandler subscriber topic q :
  keeps I (replay eventHandler subscriber topic q).
Proof using HI.
  apply keeps_forEach. intros v. apply keeps_executeEventHandler.
Qed.

Lemma keeps_loadDomainTopicQueue subscriber topic :
  keeps I (loadDomainTopicQueue subscriber topic).
Proof using HI.
  unfold loadDomainTopicQueue. apply keeps_bind; [apply keeps_readJSON|].
  intros [q|]; [apply keeps_ret|].
  apply keeps_bind; [apply keeps_readJSON|]. intros topicLogs.
  apply keeps_writeJSON.
Qed.

Lemma keeps_persistEvent eventId topic content parentId :
  keeps I (persistEvent eventId topic content parentId).
Proof using HI.
  unfold persistEvent. apply keeps_bind; [apply keeps_readJSON|].
  intros eventLogs. apply keeps_bind; [apply keeps_writeJSON|].
  intros _. apply keeps_ret.
Qed.

Lemma keeps_persistEventsInSubscriberQueues eventId topic content :
  keeps I (persistEventsInSubscriberQueues eventId topic content).
Proof using HI.
  unfold persistEventsInSubscriberQueues.
  apply keeps_bind; [by intros w|]. intros tops.
  destruct (list_find _ _) as [[i topicObj]|]; [|apply keeps_ret].
  apply keeps_forEach. intros s. unfold persistInQueue.
  apply keeps_bind; [apply keeps_readJSON|].
  intros [logs|]; [|apply keeps_ret].
  apply keeps_bind; [apply keeps_writeJSON|]. intros _. apply keeps_ret.
Qed.

Lemma keeps_emit topic content eventId : keeps I (emit topic content eventId).
Proof using HI.
  unfold emit. apply keeps_bind; [by intros w|]. intros ls.
  apply keeps_forEach. intros l. apply keeps_executeEventHandler.
Qed.

Lemma keeps_publish eventId parentId topic content :
  keeps I (publish eventId parentId topic content).
Proof using HI.
  unfold publish. apply keeps_bind; [apply keeps_persistEvent|].
  intros eventId'.
  apply keeps_bind; [apply keeps_persistEventsInSubscriberQueues|].
  intros _. apply keeps_emit.
Qed.
End DiskBlind.

(** ** File names *)

Lemma queueFileName_inj2 subscriber topic subscriber' topic' :
  queueFileName subscriber topic = queueFileName subscriber' topic' →
  subscriber = subscriber' ∧ topic = topic'.
Proof.
  destruct subscriber, subscriber', topic, topic'; by intros [=].
Qed.

Lemma eventsFileName_inj topic topic' :
  eventsFileName topic = eventsFileName topic' → topic = topic'.
Proof. destruct topic, topic'; by intros [=]. Qed.

(** ** A delivery writes one file *)

Section OtherFile.
Variables (fileName : string) (o : option DomainTopicQueue).
Variables (subscriber : Domain) (topic : Topic).
Hypothesis Hother : fileName ≠ queueFileName subscriber topic.

Lemma wrote_queueFileIs q w :
  queueFileIs fileName o (disk w) →
  queueFileIs fileName o (disk (wrote (queueFileName subscriber topic) q w)).
Proof using Hother.
  unfold queueFileIs. simpl. intros H. by rewrite lookup_insert_ne.
Qed.

Lemma incrementTries_queueFileIs eventId :
  preserves (queueFileIs fileName o) (incrementTries subscriber topic eventId).
Proof using Hother.
  intros w H. unfold run.
  destruct (queueOf subscriber topic w) as [q|] eqn:Hq;
    [|by rewrite incrementTries_missing].
  destruct (list_find (hasEventId eventId) (processingEvents q))
    as [[i v]|] eqn:Hfind;
    [|by rewrite (incrementTries_absent _ _ _ _ q)].
  rewrite (incrementTries_found _ _ _ _ q i v Hq Hfind).
  by apply wrote_queueFileIs.
Qed.

Lemma eventAcknowledged_queueFileIs parentId :
  preserves (queueFileIs fileName o)
    (eventAcknowledged subscriber topic parentId).
Proof using Hother.
  intros w H. unfold run.
  destruct (queueOf subscriber topic w) as [q|] eqn:Hq;
    [|by rewrite eventAcknowledged_missing].
  destruct (list_find (hasEventId parentId) (processingEvents q))
    as [[i v]|] eqn:Hfind;
    [|by rewrite (eventAcknowledged_absent _ _ _ _ q)].
  rewrite (eventAcknowledged_found _ _ _ _ q i v Hq Hfind).
  by apply wrote_queueFileIs.
Qed.

Lemma executeEventHandler_queueFileIs eventHandler content tries parentId :
  preserves (queueFileIs fileName o)
    (executeEventHandler eventHandler subscriber topic content tries parentId).
Proof using Hother.
  apply whileLoop_preserves. intros isRetry.
  apply tryProcessing_preserves;
    [apply incrementTries_queueFileIs | apply eventAcknowledged_queueFileIs].
Qed.
End OtherFile.

(** X6. The delivery itself writes nothing but the queue file of its
    pair.  With a handler that has no effect of its own on the directory
    and the tables, as those of the model, after a delivery for
    (subscriber, topic) every other queue file, in particular the queue of
    every other subscriber of the topic, every event log and the in-memory
    tables are as before, whether the calls of the handler resolve or
    reject. *)
Theorem delivery_writes_only_its_queue eventHandler subscriber topic content
    tries parentId w :
  let w' :=
    run (executeEventHandler eventHandler subscriber topic content tries
           parentId) w in
  (∀ fileName,
     fileName ≠ queueFileName subscriber topic →
     queueFiles (disk w') !! fileName = queueFiles (disk w) !! fileName) ∧
  (∀ subscriber' topic',
     (subscriber', topic') ≠ (subscriber, topic) →
     queueOf subscriber' topic' w' = queueOf subscriber' topic' w) ∧
  eventFiles (disk w') = eventFiles (disk w) ∧
  subscribers w' = subscribers w ∧ topics w' = topics w ∧
  listeners w' = listeners w.
Proof.
  intros w'.
  assert (∀ fileName,
            fileName ≠ queueFileName subscriber topic →
            queueFiles (disk w') !! fileName = queueFiles (disk w) !! fileName)
    as Hfiles.
  { intros fileName Hne.
    by apply (executeEventHandler_queueFileIs fileName _ subscriber topic Hne
                eventHandler content tries parentId w). }
  split_and!.
  - exact Hfiles.
  - intros subscriber' topic' Hne. apply Hfiles.
    intros [-> ->]%queueFileName_inj2. by apply Hne.
  - apply (executeEventHandler_preserves (eventFilesAre (eventFiles (disk w))));
      [|done].
    intros. apply tryProcessing_stable, queueStable_eventFilesAre.
  - apply (keeps_executeEventHandler _
             (diskBlind_registryIs (subscribers w) (topics w) (listeners w))
             eventHandler subscriber topic content tries parentId w).
    by split_and!.
  - apply (keeps_executeEventHandler _
             (diskBlind_registryIs (subscribers w) (topics w) (listeners w))
             eventHandler subscriber topic content tries parentId w).
    by split_and!.
  - apply (keeps_executeEventHandler _
             (diskBlind_registryIs (subscribers w) (topics w) (listeners w))
             eventHandler subscriber topic content tries parentId w).
    by split_and!.
Qed.


(** ** The event log *)

(** X8. [persistEvent] resolves with the id it was given, appends the
    event at the end of the log of its topic, creating the log when the
    file does not exist, and leaves the logs of the other topics and every
    queue file alone; its only effect is the write of that log. *)
Theorem persistEvent_appends_to_its_log eventId topic content parentId w :
  let w' := run (persistEvent eventId topic content parentId) w in
  (persistEvent eventId topic content parentId w).1 = Resolved eventId ∧
  eventsOf topic w' =
    eventsOf topic w ++ [Logged.mk parentId eventId content] ∧
  (eventFiles (disk w) !! eventsFileName topic = None →
   eventFiles (disk w') !! eventsFileName topic =
   Some {| log_topic := topic;
           events := [Logged.mk parentId eventId content] |}) ∧
  (∀ topic', topic' ≠ topic → eventsOf topic' w' = eventsOf topic' w) ∧
  queueFiles (disk w') = queueFiles (disk w) ∧
  ∃ log, trace w' = trace w ++ [WriteLog (eventsFileName topic) log].
Proof.
  intros w'. split_and!.
  - done.
  - apply persistEvent_eventsOf.
  - intros Hnone. subst w'. unfold run, persistEvent, bind, readJSON. simpl.
    rewrite Hnone. simpl. apply lookup_insert_eq.
  - intros topic' Hne. subst w'.
    unfold eventsOf, run, persistEvent, bind, readJSON. simpl.
    rewrite lookup_insert_ne; [done|].
    intros Heq%eventsFileName_inj. by apply Hne.
  - done.
  - by eexists.
Qed.

Lemma publish_unbound eventId parentId topic content w :
  list_find (λ v, to_topic v = topic) (topics w) = None →
  filter (λ l, l_topic l = topic) (listeners w) = [] →
  publish eventId parentId topic content w =
  (Resolved tt, run (persistEvent eventId topic content parentId) w).
Proof.
  intros Htop Hls.
  set (w1 := run (persistEvent eventId topic content parentId) w).
  assert (persistEvent eventId topic content parentId w = (Resolved eventId, w1))
    as Hpe by reflexivity.
  assert (topics w1 = topics w) as Htops by reflexivity.
  assert (listeners w1 = listeners w) as Hlis by reflexivity.
  clearbody w1. unfold publish. rewrite (bind_resolved _ _ _ _ _ Hpe).
  unfold persistEventsInSubscriberQueues, emit, bind, getTopics, getListeners.
  simpl. rewrite Htops, Htop. simpl. by rewrite Hlis, Hls.
Qed.

(** X9. Publishing to a topic that has no entry in the topic table and no
    listener does nothing but append the event to the log of the topic: no
    queue file is read or written and no handler is called. *)
Theorem publish_without_subscribers_only_logs eventId parentId topic content
    w :
  list_find (λ v, to_topic v = topic) (topics w) = None →
  filter (λ l, l_topic l = topic) (listeners w) = [] →
  let w' := run (publish eventId parentId topic content) w in
  publish eventId parentId topic content w =
    (Resolved tt, run (persistEvent eventId topic content parentId) w) ∧
  eventsOf topic w' =
    eventsOf topic w ++ [Logged.mk parentId eventId content] ∧
  queueFiles (disk w') = queueFiles (disk w) ∧
  invocations w' = invocations w ∧
  ∃ log, trace w' = trace w ++ [WriteLog (eventsFileName topic) log].
Proof.
  intros Htop Hls w'.
  pose proof (publish_unbound eventId parentId topic content w Htop Hls) as Hrun.
  assert (w' = run (persistEvent eventId topic content parentId) w) as Hw'
    by (subst w'; unfold run at 1; by rewrite Hrun).
  clearbody w'. subst w'.
  split_and!; [done | apply persistEvent_eventsOf | done | done | by eexists].
Qed.

(** X10. An existing queue is not brought up to date from the log.  When
    an event is published while the topic has no entry in the topic table
    and no listener, as in a process that has restarted and not yet
    subscribed, a queue document that already exists for the topic does
    not get the event, and the initialization that follows loads that
    document as it is: the event is in the log, and the queue the
    subscription replays is the one from before the event. *)
Theorem event_published_before_resubscription_is_missed eventId parentId
    topic content subscriber w q :
  list_find (λ v, to_topic v = topic) (topics w) = None →
  filter (λ l, l_topic l = topic) (listeners w) = [] →
  queueOf subscriber topic w = Some q →
  let w' := run (publish eventId parentId topic content) w in
  Logged.mk parentId eventId content ∈ eventsOf topic w' ∧
  queueOf subscriber topic w' = Some q ∧
  loadDomainTopicQueue subscriber topic w' = (Resolved q, w').
Proof.
  intros Htop Hls Hq w'.
  pose proof (publish_unbound eventId parentId topic content w Htop Hls) as Hrun.
  assert (w' = run (persistEvent eventId topic content parentId) w) as Hw'
    by (subst w'; unfold run at 1; by rewrite Hrun).
  assert (queueOf subscriber topic w' = Some q) as Hq' by (by rewrite Hw').
  split_and!; [|done|].
  - rewrite Hw', persistEvent_eventsOf. apply elem_of_app. right.
    by apply list_elem_of_singleton.
  - by apply loadDomainTopicQueue_present.
Qed.

(** ** What every move of the broker keeps *)

(** A property of the directory that the five operations that write
    files keep is kept by every move. *)
Section AllSteps.
Variable J : FileSystem → Prop.
Hypothesis Hinc :
  ∀ subscriber topic eventId,
    preserves J (incrementTries subscriber topic eventId).
Hypothesis Hack :
  ∀ subscriber topic parentId,
    preserves J (eventAcknowledged subscriber topic parentId).
Hypothesis Henq :
  ∀ eventId topic content subscriber,
    preserves J (persistInQueue eventId topic content subscriber).
Hypothesis Hload :
  ∀ subscriber topic, preserves J (loadDomainTopicQueue subscriber topic).
Hypothesis Hlog :
  ∀ eventId topic content parentId,
    preserves J (persistEvent eventId topic content parentId).

Lemma all_tryProcessing subscriber topic parentId content eventHandler
    isRetry :
  preserves J
    (tryProcessing subscriber topic parentId content eventHandler isRetry).
Proof using Hinc Hack. by apply tryProcessing_preserves. Qed.

Lemma all_fanout eventId topic content :
  preserves J (persistEventsInSubscriberQueues eventId topic content).
Proof using Henq.
  unfold persistEventsInSubscriberQueues.
  apply preserves_bind; [read_only|]. intros tops.
  destruct (list_find _ _) as [[i topicObj]|]; [|apply transfers_ret].
  apply preserves_forEach. intros s _. apply Henq.
Qed.

Lemma all_subscription ref subscriber topic eventHandler :
  preserves J (subscription ref subscriber topic eventHandler).
Proof using Hinc Hack Hload.
  unfold subscription. apply preserves_bind; [read_only|]. intros subs.
  destruct (list_find _ _) as [[i o]|]; [apply transfers_throw|].
  apply preserves_bind; [read_only|]. intros _.
  apply preserves_bind; [read_only|]. intros tops.
  apply preserves_bind;
    [destruct (list_find _ _) as [[j topicObj]|]; read_only|].
  intros _.
  apply preserves_bind; [apply Hload|]. intros q.
  apply preserves_bind; [apply replay_preserves, all_tryProcessing|].
  intros _. read_only.
Qed.

Lemma all_publish eventId parentId topic content :
  preserves J (publish eventId parentId topic content).
Proof using Hinc Hack Henq Hlog.
  unfold publish. apply preserves_bind; [apply Hlog|]. intros eventId'.
  apply preserves_bind; [apply all_fanout|]. intros _.
  apply emit_preserves, all_tryProcessing.
Qed.

Lemma all_step w w' : step w w' → J (disk w) → J (disk w').
Proof using Hinc Hack Henq Hload Hlog.
  destruct 1.
  - apply Hload.
  - apply all_fanout.
  - apply Hinc.
  - apply Hack.
  - apply executeEventHandler_preserves, all_tryProcessing.
  - apply readOnly_preserves, subscriberInitializer_readOnly.
  - apply all_subscription.
  - apply all_publish.
Qed.

Lemma all_steps w w' : rtc step w w' → J (disk w) → J (disk w').
Proof using Hinc Hack Henq Hload Hlog.
  induction 1 as [w|w1 w2 w3 Hstep _ IH]; [done|].
  intros H. apply IH. by apply (all_step w1).
Qed.
End AllSteps.

(** ** The log only grows *)

Lemma queueStable_logStartsWith topic l : queueStable (logStartsWith topic l).
Proof. by intros fileName q d H. Qed.

Lemma loadDomainTopicQueue_queueStable J subscriber topic :
  queueStable J → preserves J (loadDomainTopicQueue subscriber topic).
Proof.
  intros HJ. unfold loadDomainTopicQueue. apply preserves_bind; [read_only|].
  intros [q|]; [apply transfers_ret|].
  apply preserves_bind; [read_only|]. intros topicLogs.
  by apply preserves_writeJSON_queue.
Qed.

Lemma persistEvent_logStartsWith topic l eventId topic' content parentId :
  preserves (logStartsWith topic l)
    (persistEvent eventId topic' content parentId).
Proof.
  intros w H. unfold logStartsWith in *.
  change (l `prefix_of`
            eventsOf topic (run (persistEvent eventId topic' content parentId) w)).
  change (l `prefix_of` eventsOf topic w) in H.
  destruct (decide (topic = topic')) as [->|Hne].
  - rewrite persistEvent_eventsOf. by apply prefix_app_r.
  - unfold eventsOf, run, persistEvent, bind, readJSON in *. simpl.
    rewrite lookup_insert_ne; [done|].
    intros Heq%eventsFileName_inj. by apply Hne.
Qed.

(** X11. Event logs are append-only: across any sequence of moves of the
    broker, each run to its end before the next one starts, the log of a
    topic keeps the events it had, in their order, and only gains events
    at its end. *)
Theorem event_log_only_grows topic w w' :
  rtc step w w' → eventsOf topic w `prefix_of` eventsOf topic w'.
Proof.
  intros Hsteps.
  apply (all_steps (logStartsWith topic (eventsOf topic w))) with (w := w);
    [ intros; apply incrementTries_stable, queueStable_logStartsWith
    | intros; apply eventAcknowledged_stable, queueStable_logStartsWith
    | intros; apply persistInQueue_stable, queueStable_logStartsWith
    | intros; apply loadDomainTopicQueue_queueStable, queueStable_logStartsWith
    | intros; apply persistEvent_logStartsWith
    | done
    | unfold logStartsWith, eventsOf; reflexivity ].
Qed.

(** ** Queues are never deleted and keep what they have processed *)

Section ProcessedStartsWith.
Variables (fileName : string) (l : list Processed.t).

Lemma wrote_processedStartsWith other q w :
  (∀ q0, queueFiles (disk w) !! other = Some q0 → other = fileName →
         processedEvents q0 `prefix_of` processedEvents q) →
  (queueFiles (disk w) !! other = None → other ≠ fileName) →
  processedStartsWith fileName l (disk w) →
  processedStartsWith fileName l (disk (wrote other q w)).
Proof.
  intros Hgrow Hnew (q0 & Hq0 & Hl). unfold processedStartsWith. simpl.
  destruct (decide (other = fileName)) as [->|Hne].
  - exists q. rewrite lookup_insert_eq. split; [done|].
    etrans; [exact Hl|]. by apply Hgrow.
  - exists q0. by rewrite lookup_insert_ne.
Qed.

Lemma incrementTries_processedStartsWith subscriber topic eventId :
  preserves (processedStartsWith fileName l)
    (incrementTries subscriber topic eventId).
Proof.
  intros w H. unfold run.
  destruct (queueOf subscriber topic w) as [q|] eqn:Hq;
    [|by rewrite incrementTries_missing].
  destruct (list_find (hasEventId eventId) (processingEvents q))
    as [[i v]|] eqn:Hfind;
    [|by rewrite (incrementTries_absent _ _ _ _ q)].
  rewrite (incrementTries_found _ _ _ _ q i v Hq Hfind).
  apply wrote_processedStartsWith; [|unfold queueOf in Hq; congruence|done].
  intros q0 Hq0 _. unfold queueOf in Hq. by simplify_eq.
Qed.

Lemma eventAcknowledged_processedStartsWith subscriber topic parentId :
  preserves (processedStartsWith fileName l)
    (eventAcknowledged subscriber topic parentId).
Proof.
  intros w H. unfold run.
  destruct (queueOf subscriber topic w) as [q|] eqn:Hq;
    [|by rewrite eventAcknowledged_missing].
  destruct (list_find (hasEventId parentId) (processingEvents q))
    as [[i v]|] eqn:Hfind;
    [|by rewrite (eventAcknowledged_absent _ _ _ _ q)].
  rewrite (eventAcknowledged_found _ _ _ _ q i v Hq Hfind).
  apply wrote_processedStartsWith; [|unfold queueOf in Hq; congruence|done].
  intros q0 Hq0 _. unfold queueOf in Hq. simplify_eq. simpl.
  by apply prefix_app_r.
Qed.

Lemma persistInQueue_processedStartsWith eventId topic content subscriber :
  preserves (processedStartsWith fileName l)
    (persistInQueue eventId topic content subscriber).
Proof.
  intros w H. unfold run. rewrite persistInQueue_eq. simpl.
  destruct (queueOf subscriber topic w) as [q|] eqn:Hq; [|done].
  apply wrote_processedStartsWith; [|unfold queueOf in Hq; congruence|done].
  intros q0 Hq0 _. unfold queueOf in Hq. by simplify_eq.
Qed.

Lemma loadDomainTopicQueue_processedStartsWith subscriber topic :
  preserves (processedStartsWith fileName l)
    (loadDomainTopicQueue subscriber topic).
Proof.
  intros w H. unfold run.
  destruct (queueOf subscriber topic w) as [q|] eqn:Hq.
  - by rewrite (loadDomainTopicQueue_present subscriber topic w q Hq).
  - rewrite (loadDomainTopicQueue_absent subscriber topic w Hq).
    apply wrote_processedStartsWith; [|  |done].
    + intros q0 Hq0. unfold queueOf in Hq. congruence.
    + intros _ Heq. destruct H as (q0 & Hq0 & _). unfold queueOf in Hq.
      rewrite <- Heq in Hq0. congruence.
Qed.
End ProcessedStartsWith.

(** X12. A queue document is never deleted, and what it has processed is
    not forgotten as long as no queue operation writes from a read that is
    out of date: across any sequence of moves of the broker, each run to
    its end before the next one starts, the queue of (subscriber, topic)
    still exists and its [processedEvents] keep the entries they had, in
    their order, before any new ones. *)
Theorem processed_events_only_grow subscriber topic w w' q :
  rtc step w w' →
  queueOf subscriber topic w = Some q →
  ∃ q', queueOf subscriber topic w' = Some q' ∧
        processedEvents q `prefix_of` processedEvents q'.
Proof.
  intros Hsteps Hq.
  apply (all_steps (processedStartsWith (queueFileName subscriber topic)
                      (processedEvents q))) with (w := w);
    [ intros; apply incrementTries_processedStartsWith
    | intros; apply eventAcknowledged_processedStartsWith
    | intros; apply persistInQueue_processedStartsWith
    | intros; apply loadDomainTopicQueue_processedStartsWith
    | intros; by intros w0 H0
    | done
    | exists q; split; [exact Hq | reflexivity] ].
Qed.

(** ** Replaying a backlog *)

Lemma executeEventHandler_first_success eventHandler subscriber topic content
    tries parentId w q i v :
  queueOf subscriber topic w = Some q →
  list_find (hasEventId parentId) (processingEvents q) = Some (i, v) →
  tries < 5 →
  eventHandler (invocations w) parentId content = true →
  executeEventHandler eventHandler subscriber topic content tries parentId w =
  (Resolved tt,
   delivered subscriber topic parentId content eventHandler w q i v true).
Proof.
  intros Hq Hfind Htries Hok. unfold executeEventHandler.
  rewrite whileLoop_always_delayed by lia. cbv zeta.
  rewrite (tryProcessing_found _ _ _ _ _ _ q i v Hq Hfind), Hok.
  cbn [fst snd]. by rewrite whileLoop_exit by auto.
Qed.

Lemma filter_other_ids (v : Processing.t) (l : list Processing.t) :
  Processing.eventId v ∉ Processing.eventId <$> l →
  filter (λ x, ¬ hasEventId (Processing.eventId v) x) l = l.
Proof.
  induction l as [|x l IH]; [done|]. rewrite fmap_cons, not_elem_of_cons.
  intros [Hne Hnin]. rewrite filter_cons_True; [by rewrite IH|].
  unfold hasEventId. by intros Heq.
Qed.

Lemma forEach_all_resolve eventHandler subscriber topic l :
  (∀ n a b, eventHandler n a b = true) →
  ∀ w q,
    queueOf subscriber topic w = Some q →
    processingEvents q = l →
    NoDup (Processing.eventId <$> l) →
    Forall (λ v, Processing.tries v < 5) l →
    let w' :=
      run (forEach
             (λ v, executeEventHandler eventHandler subscriber topic
                     (Processing.content v) (Processing.tries v)
                     (Processing.eventId v)) l) w in
    invocations w' = invocations w + length l ∧
    ∃ q', queueOf subscriber topic w' = Some q' ∧
          processingEvents q' = [] ∧
          processedSummary q' =
            processedSummary q ++
            ((λ v, (Processing.eventId v, S (Processing.tries v))) <$> l).
Proof.
  intros Hok. induction l as [|v l IH]; intros w q Hq Hl Hnodup Htries w'.
  - subst w'. unfold run. simpl. split; [lia|].
    exists q. by rewrite app_nil_r.
  - rewrite fmap_cons in Hnodup. apply NoDup_cons in Hnodup as [Hv Hnodup].
    apply Forall_cons in Htries as [Hlt Htries].
    assert (list_find (hasEventId (Processing.eventId v)) (processingEvents q) =
            Some (0, v)) as Hfind.
    { rewrite Hl. apply list_find_Some. split_and!; [done | done |].
      intros j y _ Hj. lia. }
    set (w1 := delivered subscriber topic (Processing.eventId v)
                 (Processing.content v) eventHandler w q 0 v true).
    set (q1 := acknowledged 0 (bumped v) (Processing.eventId v)
                 (now w + 5000)%N (incremented 0 v q)).
    assert (w' =
            run (forEach
                   (λ v, executeEventHandler eventHandler subscriber topic
                           (Processing.content v) (Processing.tries v)
                           (Processing.eventId v)) l) w1) as Hw'.
    { subst w'. unfold run. cbn [forEach]. unfold bind.
      by rewrite (executeEventHandler_first_success _ _ _ _ _ _ _ q 0 v Hq
                    Hfind Hlt (Hok _ _ _)). }
    assert (queueOf subscriber topic w1 = Some q1) as Hq1
      by apply queueOf_wrote.
    assert (invocations w1 = S (invocations w)) as Hinv1 by reflexivity.
    assert (processingEvents q1 = l) as Hl1.
    { subst q1. rewrite (acknowledged_incremented 0 v _ _ _ q Hfind), Hl.
      rewrite filter_cons_False by (by intros H).
      by apply filter_other_ids. }
    assert (processedSummary q1 =
            processedSummary q ++
            [(Processing.eventId v, S (Processing.tries v))]) as Hsum1.
    { subst q1. unfold processedSummary. simpl. by rewrite fmap_app. }
    clearbody w' w1 q1. subst w'.
    destruct (IH w1 q1 Hq1 Hl1 Hnodup Htries) as (Hinv & q' & Hq' & Hnil & Hsum).
    split; [rewrite Hinv, Hinv1; cbn [length]; lia|].
    exists q'. split_and!; [exact Hq' | exact Hnil |].
    rewrite Hsum, Hsum1, <- app_assoc. by rewrite fmap_cons.
Qed.

(** The deliveries of a backlog, run one at a time in queue order, with a
    handler that always resolves, for a queue whose event ids are pairwise
    distinct and whose entries have [tries < 5]: the handler is called once
    per entry, [processingEvents] ends empty, and [processedEvents] gains
    the entries in queue order, each with its [tries] raised by one. *)
Lemma replay_one_at_a_time eventHandler subscriber topic w q :
  (∀ n a b, eventHandler n a b = true) →
  queueOf subscriber topic w = Some q →
  NoDup (processingIds q) →
  Forall (λ v, Processing.tries v < 5) (processingEvents q) →
  let w' := run (replay eventHandler subscriber topic q) w in
  (replay eventHandler subscriber topic q w).1 = Resolved tt ∧
  invocations w' = invocations w + length (processingEvents q) ∧
  ∃ q', queueOf subscriber topic w' = Some q' ∧
        processingEvents q' = [] ∧
        processedSummary q' =
          processedSummary q ++
          ((λ v, (Processing.eventId v, S (Processing.tries v))) <$>
             processingEvents q).
Proof.
  intros Hok Hq Hnodup Htries w'. split.
  - apply forEach_resolves. intros v. apply whileLoop_resolves.
  - by apply (forEach_all_resolve eventHandler subscriber topic
                (processingEvents q) Hok w q).
Qed.

(** * The registry *)

(** ** Registering a subscriber *)

Lemma list_find_subscriber subscriber (subs : list SubscriberObj) :
  subscriber ∉ so_subscriber <$> subs ↔
  list_find (λ v, so_subscriber v = subscriber) subs = None.
Proof.
  rewrite list_find_None, Forall_forall, list_elem_of_fmap. split.
  - intros H v Hv Hid. apply H. by exists v.
  - intros H (v & -> & Hv). exact (H v Hv eq_refl).
Qed.

Lemma subscriberInitializer_duplicate subscriber w :
  subscriber ∈ so_subscriber <$> subscribers w →
  subscriberInitializer subscriber w =
  (Rejected (DuplicateSubscriberError subscriber), w).
Proof.
  intros Hin. unfold subscriberInitializer, bind, getSubscribers. simpl.
  destruct (list_find _ _) as [[i o]|] eqn:Hfind; [done|].
  by apply list_find_subscriber in Hfind.
Qed.

Lemma subscriberInitializer_new subscriber w :
  subscriber ∉ so_subscriber <$> subscribers w →
  subscriberInitializer subscriber w =
  (Resolved (subscription (length (subscribers w)) subscriber),
   withSubscribers
     (subscribers w ++ [{| so_subscriber := subscriber; so_topics := [] |}])
     w).
Proof.
  intros Hnin%list_find_subscriber.
  unfold subscriberInitializer, bind, getSubscribers. simpl.
  by rewrite Hnin.
Qed.

(** X13. A domain can be registered once.  Registering a domain that is
    not in the subscriber table adds an object with no topics at the end of
    the table and returns the subscription closure that refers to it,
    changing nothing else; registering a domain that is in the table
    rejects and changes nothing.  So the second of two registrations of a
    domain always rejects. *)
Theorem subscriber_is_registered_once subscriber w :
  (subscriber ∈ so_subscriber <$> subscribers w →
   subscriberInitializer subscriber w =
   (Rejected (DuplicateSubscriberError subscriber), w)) ∧
  (subscriber ∉ so_subscriber <$> subscribers w →
   subscriberInitializer subscriber w =
   (Resolved (subscription (length (subscribers w)) subscriber),
    withSubscribers
      (subscribers w ++ [{| so_subscriber := subscriber; so_topics := [] |}])
      w)) ∧
  (subscriberInitializer subscriber
     (run (subscriberInitializer subscriber) w)).1 =
  Rejected (DuplicateSubscriberError subscriber).
Proof.
  split_and!.
  - apply subscriberInitializer_duplicate.
  - apply subscriberInitializer_new.
  - destruct (decide (subscriber ∈ so_subscriber <$> subscribers w))
      as [Hin|Hnin].
    + unfold run. rewrite (subscriberInitializer_duplicate _ _ Hin).
      cbn [snd]. by rewrite (subscriberInitializer_duplicate _ _ Hin).
    + unfold run. rewrite (subscriberInitializer_new _ _ Hnin). cbn [snd].
      rewrite subscriberInitializer_duplicate; [done|].
      simpl. rewrite fmap_app. apply elem_of_app. right.
      by apply list_elem_of_singleton.
Qed.

(** ** Subscribing to a topic *)

Lemma list_find_topic topic (l : list Topic) :
  topic ∉ l ↔ list_find (λ v, v = topic) l = None.
Proof.
  rewrite list_find_None, Forall_forall. split.
  - intros H v Hv ->. by apply H.
  - intros H Hin. exact (H topic Hin eq_refl).
Qed.

Lemma subscription_duplicate ref subscriber topic eventHandler w :
  topic ∈ so_topics (subscriberObjAt ref subscriber w) →
  subscription ref subscriber topic eventHandler w =
  (Rejected (DuplicateSubscriptionError subscriber topic), w).
Proof.
  intros Hin. unfold subscription, bind, getSubscribers. simpl.
  fold (subscriberObjAt ref subscriber w).
  destruct (list_find _ _) as [[i o]|] eqn:Hfind; [done|].
  by apply list_find_topic in Hfind.
Qed.

Lemma subscription_new ref subscriber topic eventHandler w :
  topic ∉ so_topics (subscriberObjAt ref subscriber w) →
  subscription ref subscriber topic eventHandler w =
  (await domainTopicQueue := loadDomainTopicQueue subscriber topic in
   replay eventHandler subscriber topic domainTopicQueue >>
   emitterOn {| l_topic := topic; l_subscriber := subscriber;
                l_handler := eventHandler |}) (bound ref subscriber topic w).
Proof.
  intros Hnin%list_find_topic.
  unfold subscription, bind at 1, getSubscribers. simpl.
  fold (subscriberObjAt ref subscriber w). rewrite Hnin.
  unfold bind at 1, setSubscribers. simpl.
  unfold bind at 1, getTopics. simpl.
  unfold bound, boundTopics, boundSubscribers.
  destruct (list_find (λ t, to_topic t = topic) (topics w)) as [[i o]|];
    unfold bind at 1, setTopics; reflexivity.
Qed.

Lemma loadDomainTopicQueue_resolves subscriber topic w :
  ∃ q,
    loadDomainTopicQueue subscriber topic w =
      (Resolved q, run (loadDomainTopicQueue subscriber topic) w) ∧
    queueOf subscriber topic (run (loadDomainTopicQueue subscriber topic) w) =
      Some q.
Proof.
  unfold run. destruct (queueOf subscriber topic w) as [q|] eqn:Hq.
  - exists q. by rewrite (loadDomainTopicQueue_present _ _ _ _ Hq).
  - exists (backfilled subscriber topic w).
    rewrite (loadDomainTopicQueue_absent _ _ _ Hq). split; [done|].
    apply queueOf_wrote.
Qed.

Lemma replay_resolves eventHandler subscriber topic q w :
  replay eventHandler subscriber topic q w =
  (Resolved tt, run (replay eventHandler subscriber topic q) w).
Proof.
  pose proof (forEach_resolves
                (λ v, executeEventHandler eventHandler subscriber topic
                        (Processing.content v) (Processing.tries v)
                        (Processing.eventId v))
                (processingEvents q)
                (λ v, whileLoop_resolves _ _ _ _ _ _ _ _ _) w) as H.
  unfold run, replay in *.
  by destruct (forEach _ _ w) as [r w']; simpl in *; subst.
Qed.

(** A queue file that exists is there after a replay. *)
Lemma replay_keeps_queue eventHandler subscriber topic q fileName w :
  is_Some (queueFiles (disk w) !! fileName) →
  is_Some (queueFiles (disk (run (replay eventHandler subscriber topic q) w))
             !! fileName).
Proof.
  intros [q0 Hq0].
  assert (processedStartsWith fileName []
            (disk (run (replay eventHandler subscriber topic q) w)))
    as (q1 & Hq1 & _).
  { apply (replay_preserves (processedStartsWith fileName [])).
    - intros. apply tryProcessing_preserves;
        [apply incrementTries_processedStartsWith
        |apply eventAcknowledged_processedStartsWith].
    - exists q0. split; [done|]. apply prefix_nil. }
  by exists q1.
Qed.

(** A subscription that is not a duplicate, step by step. *)
Lemma subscription_run ref subscriber topic eventHandler w :
  topic ∉ so_topics (subscriberObjAt ref subscriber w) →
  ∃ w2,
    subscription ref subscriber topic eventHandler w =
    (Resolved tt,
     withListeners
       (listeners w ++
        [{| l_topic := topic; l_subscriber := subscriber;
            l_handler := eventHandler |}]) w2) ∧
    subscribers w2 =
      boundSubscribers ref (subscriberObjAt ref subscriber w) topic
        (subscribers w) ∧
    topics w2 = boundTopics subscriber topic (topics w) ∧
    is_Some (queueOf subscriber topic w2).
Proof.
  intros Hnin. rewrite (subscription_new _ _ _ _ _ Hnin).
  set (w0 := bound ref subscriber topic w).
  destruct (loadDomainTopicQueue_resolves subscriber topic w0)
    as (q & Hload & Hq).
  set (w1 := run (loadDomainTopicQueue subscriber topic) w0) in *.
  set (w2 := run (replay eventHandler subscriber topic q) w1).
  assert (registryIs (subscribers w0) (topics w0) (listeners w0) w1) as Hr1.
  { apply (keeps_loadDomainTopicQueue _ (diskBlind_registryIs _ _ _)).
    by split_and!. }
  assert (registryIs (subscribers w0) (topics w0) (listeners w0) w2) as Hr2
    by apply (keeps_replay _ (diskBlind_registryIs _ _ _)), Hr1.
  destruct Hr2 as (Hs & Ht & Hl).
  exists w2. split_and!.
  - rewrite (bind_resolved _ _ _ _ _ Hload).
    rewrite (bind_resolved _ _ _ _ _ (replay_resolves _ _ _ _ w1)).
    fold w2. unfold emitterOn. by rewrite Hl.
  - by rewrite Hs.
  - by rewrite Ht.
  - apply replay_keeps_queue. unfold queueOf in Hq. by rewrite Hq.
Qed.


(** Effects are only added by a list of computations that only add
    effects. *)
Lemma forEach_monotone {A} (f : A → Promise unit) (l : list A) :
  (∀ x, monotone (f x)) → monotone (forEach f l).
Proof.
  intros Hf. induction l as [|x l IH]; simpl; [one_effect|].
  apply monotone_bind; [apply Hf | intros _; apply IH].
Qed.

Lemma replay_monotone eventHandler subscriber topic q :
  monotone (replay eventHandler subscriber topic q).
Proof. apply forEach_monotone. intros v. apply whileLoop_monotone. Qed.

(** Where the replay of a subscription starts.  A subscription that is
    not a duplicate updates the tables, takes the queue document of the
    pair, which is the one on disk or else the one it writes from the log
    of the topic, and hands that document to the replay. *)
Lemma subscription_start ref subscriber topic eventHandler w :
  topic ∉ so_topics (subscriberObjAt ref subscriber w) →
  subscription ref subscriber topic eventHandler w =
  match queueOf subscriber topic w with
  | None =>
      (replay eventHandler subscriber topic (backfilled subscriber topic w) >>
       emitterOn {| l_topic := topic; l_subscriber := subscriber;
                    l_handler := eventHandler |})
        (wrote (queueFileName subscriber topic)
           (backfilled subscriber topic w) (bound ref subscriber topic w))
  | Some q =>
      (replay eventHandler subscriber topic q >>
       emitterOn {| l_topic := topic; l_subscriber := subscriber;
                    l_handler := eventHandler |})
        (bound ref subscriber topic w)
  end.
Proof.
  intros Hnin. rewrite (subscription_new _ _ _ _ _ Hnin).
  destruct (queueOf subscriber topic w) as [q|] eqn:Hq.
  - by rewrite (bind_resolved _ _ _ _ _
                  (loadDomainTopicQueue_present subscriber topic
                     (bound ref subscriber topic w) q Hq)).
  - by rewrite (bind_resolved _ _ _ _ _
                  (loadDomainTopicQueue_absent subscriber topic
                     (bound ref subscriber topic w) Hq)).
Qed.

(** With no queue document, the first effect of a subscription is the
    write of the document made from the log. *)
Lemma subscription_first_write ref subscriber topic eventHandler w :
  topic ∉ so_topics (subscriberObjAt ref subscriber w) →
  queueOf subscriber topic w = None →
  ∃ tr,
    trace (run (subscription ref subscriber topic eventHandler) w) =
    trace w ++
    WriteQueue (queueFileName subscriber topic)
      (backfilled subscriber topic w) :: tr.
Proof.
  intros Hnin Hq. unfold run.
  rewrite (subscription_start _ _ _ _ _ Hnin), Hq.
  assert (monotone
            (replay eventHandler subscriber topic
               (backfilled subscriber topic w) >>
             emitterOn {| l_topic := topic; l_subscriber := subscriber;
                          l_handler := eventHandler |})) as Hmono.
  { apply monotone_bind; [apply replay_monotone|]. intros _ w1.
    exists []. unfold run. simpl. by rewrite app_nil_r. }
  destruct (Hmono (wrote (queueFileName subscriber topic)
                     (backfilled subscriber topic w)
                     (bound ref subscriber topic w))) as [tr Htr].
  exists tr. unfold run in Htr. rewrite Htr. simpl. by rewrite <- app_assoc.
Qed.

(** Publishing leaves the object a closure refers to as it is. *)
Lemma publishAll_subscriberObjAt topic l ref subscriber w :
  subscriberObjAt ref subscriber (run (publishAll topic l) w) =
  subscriberObjAt ref subscriber w.
Proof.
  assert (registryIs (subscribers w) (topics w) (listeners w)
            (run (publishAll topic l) w)) as (Hs & _).
  { apply (keeps_forEach (registryIs (subscribers w) (topics w) (listeners w))).
    - intros e. apply keeps_publish, diskBlind_registryIs.
    - by split_and!. }
  unfold subscriberObjAt. by rewrite Hs.
Qed.


(** X15. A subscriber can subscribe to a topic once.  A subscription to a
    topic that is already on the subscriber's object rejects before
    anything is read or written: no table changes, no queue file is
    touched, no handler is called and no listener is added.  So after any
    subscription to a topic, a further one through the same closure
    rejects. *)
Theorem subscription_to_a_topic_happens_once ref subscriber topic
    eventHandler eventHandler' w o :
  subscribers w !! ref = Some o →
  (topic ∈ so_topics o →
   subscription ref subscriber topic eventHandler w =
   (Rejected (DuplicateSubscriptionError subscriber topic), w)) ∧
  let w' := run (subscription ref subscriber topic eventHandler) w in
  subscription ref subscriber topic eventHandler' w' =
  (Rejected (DuplicateSubscriptionError subscriber topic), w').
Proof.
  intros Href.
  assert (subscriberObjAt ref subscriber w = o) as Hobj
    by (unfold subscriberObjAt; by rewrite Href).
  split.
  - intros Hin. apply subscription_duplicate. by rewrite Hobj.
  - intros w'. destruct (decide (topic ∈ so_topics o)) as [Hin|Hnin].
    + assert (w' = w) as ->.
      { subst w'. unfold run. rewrite subscription_duplicate; [done|].
        by rewrite Hobj. }
      apply subscription_duplicate. by rewrite Hobj.
    + destruct (subscription_run ref subscriber topic eventHandler w)
        as (w2 & Hrun & Hsubs & _); [by rewrite Hobj|].
      apply subscription_duplicate. subst w'. unfold run. rewrite Hrun.
      cbn [snd]. unfold subscriberObjAt at 1. simpl. rewrite Hsubs.
      unfold boundSubscribers.
      rewrite list_lookup_insert_eq by (by eapply lookup_lt_Some).
      simpl. rewrite Hobj. apply elem_of_app. right.
      by apply list_elem_of_singleton.
Qed.

(** ** The queue a subscription starts from *)

(** C2. When there is no queue document for (subscriber, topic), the
    initialization of the subscription writes one whose [processingEvents]
    are the events of the topic's log, in order, one entry per event, each
    with [tries = 0], and whose [processedEvents] is empty; in particular,
    after the events of a list have been published to the topic, the new
    queue holds an entry for each of them after those of the events logged
    before.  When there is a queue document, it is the one loaded and
    nothing is written.

    The subscription closure runs this initialization between the update
    of the tables and the replay.  For a subscription that is not a
    duplicate and finds no queue document, the first effect of the closure
    is the write of that document; it is the document on disk when the
    replay starts and the one the replay is given, also after the events of
    a list have been published.  For one that finds a queue document, the
    closure reaches the replay with the directory as it was and no effect
    added, and the replay is given the document found. *)
Theorem queue_initialization subscriber topic w :
  (queueOf subscriber topic w = None →
   let q0 :=
     {| queue_subscriber := subscriber; queue_topic := topic;
        processedEvents := [];
        processingEvents := seeded <$> eventsOf topic w |} in
   loadDomainTopicQueue subscriber topic w =
     (Resolved q0, wrote (queueFileName subscriber topic) q0 w) ∧
   queueOf subscriber topic
     (run (loadDomainTopicQueue subscriber topic) w) = Some q0 ∧
   length (processingEvents q0) = length (eventsOf topic w) ∧
   (∀ k e, eventsOf topic w !! k = Some e →
           processingEvents q0 !! k =
           Some (Processing.mk (Logged.eventId e) (Logged.content e) 0)) ∧
   Forall (λ v, Processing.tries v = 0) (processingEvents q0)) ∧
  (queueOf subscriber topic w = None →
   ∀ l,
     queueOf subscriber topic
       (run (publishAll topic l >> loadDomainTopicQueue subscriber topic) w) =
     Some {| queue_subscriber := subscriber; queue_topic := topic;
             processedEvents := [];
             processingEvents := seeded <$> (eventsOf topic w ++ l) |}) ∧
  (∀ q, queueOf subscriber topic w = Some q →
        loadDomainTopicQueue subscriber topic w = (Resolved q, w) ∧
        run (loadDomainTopicQueue subscriber topic) w = w) ∧
  (∀ ref eventHandler,
     topic ∉ so_topics (subscriberObjAt ref subscriber w) →
     queueOf subscriber topic w = None →
     let q0 :=
       {| queue_subscriber := subscriber; queue_topic := topic;
          processedEvents := [];
          processingEvents := seeded <$> eventsOf topic w |} in
     let w0 :=
       wrote (queueFileName subscriber topic) q0
         (bound ref subscriber topic w) in
     subscription ref subscriber topic eventHandler w =
       (replay eventHandler subscriber topic q0 >>
        emitterOn {| l_topic := topic; l_subscriber := subscriber;
                     l_handler := eventHandler |}) w0 ∧
     queueOf subscriber topic w0 = Some q0 ∧
     ∃ tr,
       trace (run (subscription ref subscriber topic eventHandler) w) =
       trace w ++ WriteQueue (queueFileName subscriber topic) q0 :: tr) ∧
  (∀ ref eventHandler l,
     topic ∉ so_topics (subscriberObjAt ref subscriber w) →
     queueOf subscriber topic w = None →
     let w1 := run (publishAll topic l) w in
     ∃ tr,
       trace (run (subscription ref subscriber topic eventHandler) w1) =
       trace w1 ++
       WriteQueue (queueFileName subscriber topic)
         {| queue_subscriber := subscriber; queue_topic := topic;
            processedEvents := [];
            processingEvents := seeded <$> (eventsOf topic w ++ l) |} :: tr) ∧
  (∀ ref eventHandler q,
     topic ∉ so_topics (subscriberObjAt ref subscriber w) →
     queueOf subscriber topic w = Some q →
     let w0 := bound ref subscriber topic w in
     subscription ref subscriber topic eventHandler w =
       (replay eventHandler subscriber topic q >>
        emitterOn {| l_topic := topic; l_subscriber := subscriber;
                     l_handler := eventHandler |}) w0 ∧
     disk w0 = disk w ∧ trace w0 = trace w).
Proof.
  split_and!.
  - intros Hq q0.
    pose proof (loadDomainTopicQueue_absent subscriber topic w Hq) as Hrun.
    fold q0 in Hrun. split_and!.
    + exact Hrun.
    + unfold run. rewrite Hrun. apply queueOf_wrote.
    + subst q0. simpl. apply length_fmap.
    + intros k e He. subst q0. simpl. rewrite list_lookup_fmap, He. done.
    + subst q0. simpl. apply Forall_fmap, Forall_true. done.
  - intros Hq l.
    destruct (publishAll_log topic l (queueFileName subscriber topic) w Hq)
      as (Hres & Hnone & Hlog).
    unfold run in *. unfold bind.
    destruct (publishAll topic l w) as [[[]|e] w1]; simpl in *; [|discriminate].
    rewrite (loadDomainTopicQueue_absent subscriber topic w1 Hnone).
    simpl. rewrite queueOf_wrote. unfold backfilled. by rewrite Hlog.
  - intros q Hq. unfold run.
    by rewrite (loadDomainTopicQueue_present subscriber topic w q Hq).
  - intros ref eventHandler Hnin Hq q0 w0.
    pose proof (subscription_start ref subscriber topic eventHandler w Hnin)
      as Hstart.
    rewrite Hq in Hstart. split_and!.
    + exact Hstart.
    + apply queueOf_wrote.
    + by apply subscription_first_write.
  - intros ref eventHandler l Hnin Hq w1.
    destruct (publishAll_log topic l (queueFileName subscriber topic) w Hq)
      as (_ & Hnone & Hlog).
    fold w1 in Hnone, Hlog.
    destruct (subscription_first_write ref subscriber topic eventHandler w1)
      as [tr Htr]; [|exact Hnone|].
    + subst w1. by rewrite publishAll_subscriberObjAt.
    + exists tr. rewrite Htr. unfold backfilled. by rewrite Hlog.
  - intros ref eventHandler q Hnin Hq w0.
    pose proof (subscription_start ref subscriber topic eventHandler w Hnin)
      as Hstart.
    rewrite Hq in Hstart. by split_and!.
Qed.

(** ** The tables agree *)

Lemma boundBySubscriber_bound ref o topic subs subscriber' topic' :
  subs !! ref = Some o →
  boundBySubscriber (boundSubscribers ref o topic subs) subscriber' topic' ↔
  boundBySubscriber subs subscriber' topic' ∨
  (subscriber' = so_subscriber o ∧ topic' = topic).
Proof.
  intros Href. assert (ref < length subs) as Hlt by (by eapply lookup_lt_Some).
  unfold boundBySubscriber, boundSubscribers. split.
  - intros (o1 & [j Hj]%list_elem_of_lookup & Hs & Ht).
    destruct (decide (ref = j)) as [->|Hne].
    + rewrite list_lookup_insert_eq in Hj by done. injection Hj as <-.
      simpl in *. apply elem_of_app in Ht as [Ht|Ht%list_elem_of_singleton].
      * left. exists o. split; [by eapply list_elem_of_lookup_2|]. done.
      * by right.
    + rewrite list_lookup_insert_ne in Hj by done.
      left. exists o1. split; [by eapply list_elem_of_lookup_2|]. done.
  - intros [(o1 & [j Hj]%list_elem_of_lookup & Hs & Ht) | [-> ->]].
    + destruct (decide (ref = j)) as [->|Hne].
      * assert (o1 = o) as -> by congruence.
        eexists. split; [by apply list_elem_of_insert|]. split; [done|].
        simpl. apply elem_of_app. by left.
      * exists o1. split; [|done]. apply list_elem_of_lookup. exists j.
        by rewrite list_lookup_insert_ne.
    + eexists. split; [by apply list_elem_of_insert|]. split; [done|].
      simpl. apply elem_of_app. right. by apply list_elem_of_singleton.
Qed.

Lemma boundByTopic_bound subscriber topic tops subscriber' topic' :
  boundByTopic (boundTopics subscriber topic tops) subscriber' topic' ↔
  boundByTopic tops subscriber' topic' ∨
  (subscriber' = subscriber ∧ topic' = topic).
Proof.
  unfold boundByTopic, boundTopics.
  destruct (list_find (λ t, to_topic t = topic) tops) as [[i o]|] eqn:Hfind.
  - pose proof Hfind as (Hi & Ho & _)%list_find_Some.
    assert (i < length tops) as Hlt by (by eapply lookup_lt_Some). split.
    + intros (o1 & [j Hj]%list_elem_of_lookup & Ht & Hs).
      destruct (decide (i = j)) as [->|Hne].
      * rewrite list_lookup_insert_eq in Hj by done. injection Hj as <-.
        simpl in *. apply elem_of_app in Hs as [Hs|Hs%list_elem_of_singleton].
        -- left. exists o. split; [by eapply list_elem_of_lookup_2|]. done.
        -- right. split; [done|]. by rewrite <- Ht.
      * rewrite list_lookup_insert_ne in Hj by done.
        left. exists o1. split; [by eapply list_elem_of_lookup_2|]. done.
    + intros [(o1 & [j Hj]%list_elem_of_lookup & Ht & Hs) | [-> ->]].
      * destruct (decide (i = j)) as [->|Hne].
        -- assert (o1 = o) as -> by congruence.
           eexists. split; [by apply list_elem_of_insert|]. split; [done|].
           simpl. apply elem_of_app. by left.
        -- exists o1. split; [|done]. apply list_elem_of_lookup. exists j.
           by rewrite list_lookup_insert_ne.
      * eexists. split; [by apply list_elem_of_insert|]. split; [done|].
        simpl. apply elem_of_app. right. by apply list_elem_of_singleton.
  - split.
    + intros (o1 & [Hin|Hin%list_elem_of_singleton]%elem_of_app & Ht & Hs).
      * left. by exists o1.
      * subst o1. simpl in *. apply list_elem_of_singleton in Hs. by right.
    + intros [(o1 & Hin & Ht & Hs) | [-> ->]].
      * exists o1. split; [apply elem_of_app; by left|]. done.
      * eexists. split; [apply elem_of_app; right;
                         by apply list_elem_of_singleton|].
        split; [done|]. by apply list_elem_of_singleton.
Qed.

(** With distinct subscribers in the table, the object of a subscriber
    is the only one that can bind it. *)
Lemma boundBySubscriber_at subs ref o topic :
  NoDup (so_subscriber <$> subs) →
  subs !! ref = Some o →
  boundBySubscriber subs (so_subscriber o) topic → topic ∈ so_topics o.
Proof.
  intros Hnodup Href (o1 & [j Hj]%list_elem_of_lookup & Hs & Ht).
  assert (j = ref) as ->; [|by simplify_eq].
  apply (NoDup_lookup _ _ _ (so_subscriber o) Hnodup);
    rewrite list_lookup_fmap.
  - by rewrite Hj, <- Hs.
  - by rewrite Href.
Qed.

Lemma registryConsistent_ext w w' :
  subscribers w' = subscribers w → topics w' = topics w →
  listeners w' = listeners w →
  registryConsistent w → registryConsistent w'.
Proof.
  intros Hs Ht Hl [H1 H2 H3 H4 H5 H6 H7].
  split; rewrite ?Hs, ?Ht, ?Hl; done.
Qed.

Lemma registryConsistent_initial : registryConsistent initialWorld.
Proof.
  split; simpl.
  - apply NoDup_nil_2.
  - apply NoDup_nil_2.
  - apply Forall_nil_2.
  - apply Forall_nil_2.
  - apply NoDup_nil_2.
  - intros s t. split; intros (o & Hin & _); by apply elem_of_nil in Hin.
  - intros s t. split.
    + intros (o & Hin & _). by apply elem_of_nil in Hin.
    + intros Hin. by apply elem_of_nil in Hin.
Qed.

Lemma registryConsistent_register subscriber w w' :
  subscriber ∉ so_subscriber <$> subscribers w →
  subscribers w' =
    subscribers w ++ [{| so_subscriber := subscriber; so_topics := [] |}] →
  topics w' = topics w → listeners w' = listeners w →
  registryConsistent w → registryConsistent w'.
Proof.
  intros Hnin Hs Ht Hl [H1 H2 H3 H4 H5 H6 H7].
  assert (∀ s t, boundBySubscriber (subscribers w') s t ↔
                 boundBySubscriber (subscribers w) s t) as Hsame.
  { intros s t. rewrite Hs. unfold boundBySubscriber. split.
    - intros (o & [Hin|Hin%list_elem_of_singleton]%elem_of_app & Hso & Hto).
      + by exists o.
      + subst o. by apply elem_of_nil in Hto.
    - intros (o & Hin & Hso & Hto). exists o.
      split; [apply elem_of_app; by left|]. done. }
  split; rewrite ?Ht, ?Hl; try done.
  - rewrite Hs, fmap_app. apply NoDup_app. split_and!; [done| |].
    + intros s Hin ->%list_elem_of_singleton. by apply Hnin.
    + apply NoDup_singleton.
  - rewrite Hs. apply Forall_app. split; [done|].
    apply Forall_singleton. apply NoDup_nil_2.
  - intros s t. by rewrite Hsame.
  - intros s t. by rewrite Hsame.
Qed.

Lemma registryConsistent_subscribe ref o topic eventHandler w w' :
  subscribers w !! ref = Some o →
  topic ∉ so_topics o →
  subscribers w' = boundSubscribers ref o topic (subscribers w) →
  topics w' = boundTopics (so_subscriber o) topic (topics w) →
  listeners w' =
    listeners w ++
    [{| l_topic := topic; l_subscriber := so_subscriber o;
        l_handler := eventHandler |}] →
  registryConsistent w → registryConsistent w'.
Proof.
  intros Href Hnin Hs Ht Hl [H1 H2 H3 H4 H5 H6 H7].
  assert (¬ boundBySubscriber (subscribers w) (so_subscriber o) topic)
    as Hunbound.
  { intros Hb. by apply Hnin, (boundBySubscriber_at (subscribers w) ref). }
  assert (ref < length (subscribers w)) as Hlt by (by eapply lookup_lt_Some).
  split.
  - rewrite Hs. unfold boundSubscribers. rewrite list_fmap_insert. simpl.
    rewrite list_insert_id; [done|]. by rewrite list_lookup_fmap, Href.
  - rewrite Ht. unfold boundTopics.
    destruct (list_find _ (topics w)) as [[i topicObj]|] eqn:Hfind.
    + apply list_find_Some in Hfind as (Hi & _ & _).
      rewrite list_fmap_insert. simpl.
      rewrite list_insert_id; [done|]. by rewrite list_lookup_fmap, Hi.
    + rewrite fmap_app. apply NoDup_app. split_and!; [done| |].
      * intros t Hin ->%list_elem_of_singleton.
        apply list_find_None in Hfind. rewrite Forall_forall in Hfind.
        apply list_elem_of_fmap in Hin as (x & Hx & Hin).
        by apply (Hfind x Hin).
      * apply NoDup_singleton.
  - rewrite Hs. unfold boundSubscribers. apply Forall_insert; [done|].
    simpl. apply NoDup_app. split_and!.
    + by apply (Forall_lookup_1 _ _ _ _ H3 Href).
    + intros t Hin ->%list_elem_of_singleton. by apply Hnin.
    + apply NoDup_singleton.
  - rewrite Ht. unfold boundTopics.
    destruct (list_find _ (topics w)) as [[i topicObj]|] eqn:Hfind.
    + apply list_find_Some in Hfind as (Hi & Htopic & _).
      apply Forall_insert; [done|]. simpl. apply NoDup_app. split_and!.
      * by apply (Forall_lookup_1 _ _ _ _ H4 Hi).
      * intros s Hin ->%list_elem_of_singleton. apply Hunbound, H6.
        exists topicObj. split; [by eapply list_elem_of_lookup_2|]. done.
      * apply NoDup_singleton.
    + apply Forall_app. split; [done|]. apply Forall_singleton.
      apply NoDup_singleton.
  - rewrite Hl. unfold listenerKeys. rewrite fmap_app. apply NoDup_app.
    split_and!; [done| |apply NoDup_singleton].
    intros k Hin ->%list_elem_of_singleton. simpl in Hin.
    by apply Hunbound, H7.
  - intros s t. rewrite Hs, Ht.
    rewrite (boundBySubscriber_bound ref o topic _ s t Href).
    rewrite boundByTopic_bound. by rewrite H6.
  - intros s t. rewrite Hs, Hl.
    rewrite (boundBySubscriber_bound ref o topic _ s t Href).
    unfold listenerKeys. rewrite fmap_app, elem_of_app. simpl.
    rewrite list_elem_of_singleton. rewrite H7. unfold listenerKeys.
    split; (intros [?|Heq]; [by left|right]);
      [by destruct Heq as [-> ->] | by injection Heq as -> ->].
Qed.

Lemma apiStep_consistent w w' :
  apiStep w w' → registryConsistent w → registryConsistent w'.
Proof.
  destruct 1 as [s w | ref s t h w o Href Hs | id p t c w]; intros Hc.
  - destruct (decide (s ∈ so_subscriber <$> subscribers w)) as [Hin|Hnin].
    + unfold run. by rewrite (subscriberInitializer_duplicate _ _ Hin).
    + unfold run. rewrite (subscriberInitializer_new _ _ Hnin). cbn [snd].
      by apply (registryConsistent_register s w).
  - assert (subscriberObjAt ref s w = o) as Hobj
      by (unfold subscriberObjAt; by rewrite Href).
    destruct (decide (t ∈ so_topics o)) as [Hin|Hnin].
    + unfold run. rewrite subscription_duplicate; [done|]. by rewrite Hobj.
    + destruct (subscription_run ref s t h w)
        as (w2 & Hrun & Hsubs & Htops & _); [by rewrite Hobj|].
      unfold run. rewrite Hrun. cbn [snd]. rewrite Hobj in Hsubs. subst s.
      by apply (registryConsistent_subscribe ref o t h w).
  - apply (registryConsistent_ext w); [| | |done];
      by apply (keeps_publish _
                  (diskBlind_registryIs (subscribers w) (topics w)
                     (listeners w)) id p t c w).
Qed.

(** The reference of a closure stays good: the object it points at is
    never moved and keeps its subscriber. *)
Lemma apiStep_reference w w' ref o :
  apiStep w w' →
  subscribers w !! ref = Some o →
  ∃ o', subscribers w' !! ref = Some o' ∧ so_subscriber o' = so_subscriber o.
Proof.
  destruct 1 as [s w | ref' s t h w o1 Href' Hs | id p t c w]; intros Href.
  - destruct (decide (s ∈ so_subscriber <$> subscribers w)) as [Hin|Hnin].
    + unfold run. rewrite (subscriberInitializer_duplicate _ _ Hin). by exists o.
    + unfold run. rewrite (subscriberInitializer_new _ _ Hnin). cbn [snd].
      exists o. simpl. split; [|done]. by apply lookup_app_l_Some.
  - assert (subscriberObjAt ref' s w = o1) as Hobj
      by (unfold subscriberObjAt; by rewrite Href').
    destruct (decide (t ∈ so_topics o1)) as [Hin|Hnin].
    + unfold run. rewrite subscription_duplicate by (by rewrite Hobj).
      by exists o.
    + destruct (subscription_run ref' s t h w)
        as (w2 & Hrun & Hsubs & _); [by rewrite Hobj|].
      unfold run. rewrite Hrun. cbn [snd]. simpl. rewrite Hsubs, Hobj.
      unfold boundSubscribers. destruct (decide (ref' = ref)) as [->|Hne].
      * rewrite list_lookup_insert_eq by (by eapply lookup_lt_Some).
        eexists. split; [done|]. simpl. congruence.
      * rewrite list_lookup_insert_ne by done. by exists o.
  - exists o. split; [|done].
    assert (subscribers (run (publish id p t c) w) = subscribers w) as ->;
      [|done].
    by apply (keeps_publish _
                (diskBlind_registryIs (subscribers w) (topics w)
                   (listeners w)) id p t c w).
Qed.

(** X16. Whatever a program registers, subscribes and publishes, one call
    after the other, the three tables of the module agree and hold nothing
    twice: no subscriber and no
    topic has two objects, no object lists a topic or a subscriber twice,
    a subscriber's object lists a topic exactly when the topic's object
    lists the subscriber, and exactly then there is a listener for the
    pair, one only.  The object a closure refers to is never moved and
    keeps its subscriber. *)
Theorem registry_stays_consistent w :
  rtc apiStep initialWorld w →
  registryConsistent w ∧
  ∀ w' ref o,
    apiStep w w' →
    subscribers w !! ref = Some o →
    ∃ o', subscribers w' !! ref = Some o' ∧ so_subscriber o' = so_subscriber o.
Proof.
  intros Hreach. split.
  - assert (∀ w0 w1, rtc apiStep w0 w1 →
                     registryConsistent w0 → registryConsistent w1) as Hrtc.
    { induction 1 as [|w0 w1 w2 Hstep _ IH]; [done|].
      intros Hc. apply IH. by apply (apiStep_consistent w0). }
    exact (Hrtc _ _ Hreach registryConsistent_initial).
  - intros w' ref o. apply apiStep_reference.
Qed.

(** * From publication to delivery *)

(** ** Delivering an event that was just enqueued *)

Lemma executeEventHandler_other_queue eventHandler subscriber topic content
    tries parentId subscriber' topic' w :
  (subscriber', topic') ≠ (subscriber, topic) →
  queueOf subscriber' topic'
    (run (executeEventHandler eventHandler subscriber topic content tries
            parentId) w) =
  queueOf subscriber' topic' w.
Proof.
  intros Hne.
  apply (executeEventHandler_queueFileIs (queueFileName subscriber' topic') _
           subscriber topic); [|done].
  intros [-> ->]%queueFileName_inj2. by apply Hne.
Qed.

Lemma list_find_enqueued eventId content (l : list Processing.t) :
  eventId ∉ Processing.eventId <$> l →
  list_find (hasEventId eventId) (l ++ [Processing.mk eventId content 0]) =
  Some (length l, Processing.mk eventId content 0).
Proof.
  intros Hnin%list_find_absent. apply list_find_app_Some. right.
  split_and!; [lia | done |]. rewrite Nat.sub_diag. simpl.
  by rewrite decide_True.
Qed.

Lemma enqueued_inj eventId content q q' :
  enqueued eventId content q = enqueued eventId content q' → q = q'.
Proof.
  destruct q, q'. unfold enqueued, withProcessingEvents. simpl.
  intros [= -> -> -> Happ]. by apply app_inv_tail in Happ as ->.
Qed.

(** The delivery of an event that the fan-out has just put in the queue,
    to a handler that resolves. *)
Lemma executeEventHandler_enqueued eventHandler subscriber topic content
    eventId w q :
  eventHandler (invocations w) eventId content = true →
  queueOf subscriber topic w = Some (enqueued eventId content q) →
  eventId ∉ processingIds q →
  let w' :=
    run (executeEventHandler eventHandler subscriber topic content 0 eventId)
      w in
  invocations w' = S (invocations w) ∧
  ∃ q', queueOf subscriber topic w' = Some q' ∧
        processingEvents q' = processingEvents q ∧
        processedSummary q' = processedSummary q ++ [(eventId, 1)].
Proof.
  intros Hok Hq Hfresh w'.
  pose proof (list_find_enqueued eventId content (processingEvents q) Hfresh)
    as Hfind.
  assert (w' = delivered subscriber topic eventId content eventHandler w
                 (enqueued eventId content q) (length (processingEvents q))
                 (Processing.mk eventId content 0) true) as Hw'.
  { subst w'. unfold run.
    assert (0 < 5) as Hlt by lia.
    by rewrite (executeEventHandler_first_success eventHandler subscriber
                  topic content 0 eventId w _ _ _ Hq Hfind Hlt Hok). }
  clearbody w'. subst w'. split; [done|].
  eexists. split; [apply queueOf_wrote|]. split.
  - rewrite (acknowledged_incremented (length (processingEvents q))
               (Processing.mk eventId content 0) _ eventId _
               (enqueued eventId content q) Hfind). simpl.
    rewrite filter_app, filter_cons_False by (by intros H). simpl.
    rewrite app_nil_r.
    by apply (filter_other_ids (Processing.mk eventId content 0)).
  - unfold processedSummary. simpl. by rewrite fmap_app.
Qed.

(** The deliveries [emit] starts, for listeners of distinct subscribers
    whose handlers resolve and whose queues have the event at their end. *)
Lemma forEach_listeners topic content eventId (ls : list Listener) :
  NoDup (l_subscriber <$> ls) →
  Forall (λ l, l_topic l = topic ∧ ∀ n a b, l_handler l n a b = true) ls →
  ∀ w,
    Forall (λ l, ∃ q, queueOf (l_subscriber l) topic w =
                        Some (enqueued eventId content q) ∧
                      eventId ∉ processingIds q) ls →
    let w' :=
      run (forEach
             (λ l, executeEventHandler (l_handler l) (l_subscriber l)
                     (l_topic l) content 0 eventId) ls) w in
    invocations w' = invocations w + length ls ∧
    (∀ l q,
       l ∈ ls →
       queueOf (l_subscriber l) topic w = Some (enqueued eventId content q) →
       ∃ q', queueOf (l_subscriber l) topic w' = Some q' ∧
             processingEvents q' = processingEvents q ∧
             processedSummary q' = processedSummary q ++ [(eventId, 1)]) ∧
    (∀ subscriber' topic',
       (∀ l, l ∈ ls → (subscriber', topic') ≠ (l_subscriber l, topic)) →
       queueOf subscriber' topic' w' = queueOf subscriber' topic' w).
Proof.
  induction ls as [|l ls IH]; intros Hnodup Hls w Hqs w'.
  - subst w'. split_and!; [unfold run; simpl; lia | |done].
    intros l q Hin. by apply elem_of_nil in Hin.
  - rewrite fmap_cons in Hnodup. apply NoDup_cons in Hnodup as [Hl Hnodup].
    apply Forall_cons in Hls as [[Htopic Hok] Hls].
    apply Forall_cons in Hqs as [(q & Hq & Hfresh) Hqs].
    set (w1 := run (executeEventHandler (l_handler l) (l_subscriber l)
                      topic content 0 eventId) w).
    assert (w' =
            run (forEach
                   (λ l, executeEventHandler (l_handler l) (l_subscriber l)
                           (l_topic l) content 0 eventId) ls) w1) as Hw'.
    { subst w' w1. unfold run. cbn [forEach]. rewrite Htopic. unfold bind.
      pose proof (whileLoop_resolves 5 (l_handler l) (l_subscriber l)
                    topic content 0 eventId false 0 w) as Hres.
      unfold executeEventHandler.
      by destruct (whileLoop _ _ _ _ _ _ _ _ _ w) as [[[]|e] w0]. }
    assert (∀ subscriber' topic',
              (subscriber', topic') ≠ (l_subscriber l, topic) →
              queueOf subscriber' topic' w1 = queueOf subscriber' topic' w)
      as Hframe1.
    { intros s' t' Hne. subst w1.
      by apply executeEventHandler_other_queue. }
    destruct (executeEventHandler_enqueued (l_handler l) (l_subscriber l)
                topic content eventId w q (Hok _ _ _) Hq Hfresh)
      as (Hinv1 & q1 & Hq1 & Hing1 & Hsum1).
    fold w1 in Hinv1, Hq1.
    assert (Forall (λ l0, ∃ q0, queueOf (l_subscriber l0) topic w1 =
                                  Some (enqueued eventId content q0) ∧
                                eventId ∉ processingIds q0) ls) as Hqs1.
    { apply Forall_forall. intros l0 Hl0.
      rewrite Forall_forall in Hqs. destruct (Hqs l0 Hl0) as (q0 & Hq0 & Hf0).
      exists q0. split; [|done]. rewrite Hframe1; [done|].
      intros [= Heq]. apply Hl. rewrite <- Heq. by apply list_elem_of_fmap_2. }
    clearbody w' w1. subst w'.
    destruct (IH Hnodup Hls w1 Hqs1) as (Hinv & Hdone & Hframe).
    split_and!.
    + rewrite Hinv, Hinv1. cbn [length]. lia.
    + intros l0 q0 [->|Hl0]%elem_of_cons Hq0.
      * assert (q0 = q) as ->.
        { rewrite Hq in Hq0. apply (enqueued_inj eventId content).
          congruence. }
        exists q1. split; [|done]. rewrite Hframe; [done|].
        intros l1 Hl1 [= Heq]. apply Hl. rewrite Heq.
        by apply list_elem_of_fmap_2.
      * apply Hdone; [done|]. rewrite Hframe1; [done|].
        intros [= Heq]. apply Hl. rewrite <- Heq. by apply list_elem_of_fmap_2.
    + intros s' t' Hne. rewrite Hframe.
      * apply Hframe1. apply Hne. by left.
      * intros l1 Hl1. apply Hne. by right.
Qed.

(** ** Queue documents of the subscriptions *)

(** A queue file that exists is there after a subscription and after a
    publication. *)
Lemma subscription_keeps_queue ref subscriber topic eventHandler fileName w :
  is_Some (queueFiles (disk w) !! fileName) →
  is_Some
    (queueFiles
       (disk (run (subscription ref subscriber topic eventHandler) w))
       !! fileName).
Proof.
  intros [q0 Hq0].
  assert (processedStartsWith fileName []
            (disk (run (subscription ref subscriber topic eventHandler) w)))
    as (q1 & Hq1 & _).
  { apply (all_subscription (processedStartsWith fileName []));
      [ intros; apply incrementTries_processedStartsWith
      | intros; apply eventAcknowledged_processedStartsWith
      | intros; apply loadDomainTopicQueue_processedStartsWith
      | exists q0; split; [done | apply prefix_nil] ]. }
  by exists q1.
Qed.

Lemma publish_keeps_queue eventId parentId topic content fileName w :
  is_Some (queueFiles (disk w) !! fileName) →
  is_Some
    (queueFiles (disk (run (publish eventId parentId topic content) w))
       !! fileName).
Proof.
  intros [q0 Hq0].
  assert (processedStartsWith fileName []
            (disk (run (publish eventId parentId topic content) w)))
    as (q1 & Hq1 & _).
  { apply (all_publish (processedStartsWith fileName []));
      [ intros; apply incrementTries_processedStartsWith
      | intros; apply eventAcknowledged_processedStartsWith
      | intros; apply persistInQueue_processedStartsWith
      | intros; by intros w0 H0
      | exists q0; split; [done | apply prefix_nil] ]. }
  by exists q1.
Qed.

Lemma apiStep_queues w w' :
  apiStep w w' → subscriptionsHaveQueues w → subscriptionsHaveQueues w'.
Proof.
  destruct 1 as [s w | ref s t h w o Href Hs | id p t c w];
    intros Hq s' t' Hb.
  - destruct (decide (s ∈ so_subscriber <$> subscribers w)) as [Hin|Hnin].
    + unfold run in *. rewrite (subscriberInitializer_duplicate _ _ Hin) in *.
      by apply Hq.
    + unfold run in *. rewrite (subscriberInitializer_new _ _ Hnin) in *.
      cbn [snd] in *. simpl in Hb.
      destruct Hb as (o1 & [Ho1|Ho1%list_elem_of_singleton]%elem_of_app
                         & Hs1 & Ht1).
      * apply (Hq s' t'). by exists o1.
      * subst o1. simpl in Ht1. by apply elem_of_nil in Ht1.
  - assert (subscriberObjAt ref s w = o) as Hobj
      by (unfold subscriberObjAt; by rewrite Href).
    destruct (decide (t ∈ so_topics o)) as [Hin|Hnin].
    + unfold run in *.
      rewrite subscription_duplicate in * by (by rewrite Hobj).
      by apply Hq.
    + destruct (subscription_run ref s t h w)
        as (w2 & Hrun & Hsubs & _ & Hnew); [by rewrite Hobj|].
      assert (boundBySubscriber (subscribers w) s' t' ∨
              (s' = so_subscriber o ∧ t' = t)) as [Hold|[-> ->]].
      { apply (boundBySubscriber_bound ref o t (subscribers w) s' t' Href).
        rewrite <- Hobj, <- Hsubs. unfold run in Hb. by rewrite Hrun in Hb. }
      * apply subscription_keeps_queue, (Hq s' t' Hold).
      * unfold run. rewrite Hrun. cbn [snd]. by rewrite Hs.
  - apply publish_keeps_queue, Hq.
    assert (subscribers (run (publish id p t c) w) = subscribers w) as <-;
      [|done].
    by apply (keeps_publish _
                (diskBlind_registryIs (subscribers w) (topics w)
                   (listeners w)) id p t c w).
Qed.

Lemma apiSteps_queues w w' :
  rtc apiStep w w' → subscriptionsHaveQueues w → subscriptionsHaveQueues w'.
Proof.
  induction 1 as [|w0 w1 w2 Hstep _ IH]; [done|].
  intros Hq. apply IH. by apply (apiStep_queues w0).
Qed.

Lemma apiSteps_consistent w w' :
  rtc apiStep w w' → registryConsistent w → registryConsistent w'.
Proof.
  induction 1 as [|w0 w1 w2 Hstep _ IH]; [done|].
  intros Hc. apply IH. by apply (apiStep_consistent w0).
Qed.

Lemma subscriptionsHaveQueues_initial : subscriptionsHaveQueues initialWorld.
Proof. intros s t (o & Ho & _). by apply elem_of_nil in Ho. Qed.

(** X17. A subscription always has its queue document: whatever a program
    registers, subscribes and publishes, one call after the other, every
    pair of subscriber and topic that the tables bind has a queue file on
    disk, so a published event finds the queue of each of its
    subscribers. *)
Theorem every_subscription_has_its_queue w subscriber topic :
  rtc apiStep initialWorld w →
  boundBySubscriber (subscribers w) subscriber topic →
  is_Some (queueOf subscriber topic w).
Proof.
  intros Hreach.
  apply (apiSteps_queues _ _ Hreach subscriptionsHaveQueues_initial).
Qed.

(** ** Publishing to the subscribers of a topic *)

Lemma NoDup_fmap_unique {A B} (f : A → B) (l : list A) x y :
  NoDup (f <$> l) → x ∈ l → y ∈ l → f x = f y → x = y.
Proof.
  intros Hnodup [i Hi]%list_elem_of_lookup [j Hj]%list_elem_of_lookup Hf.
  assert (i = j) as ->; [|congruence].
  apply (NoDup_lookup _ _ _ (f x) Hnodup); rewrite list_lookup_fmap.
  - by rewrite Hi.
  - by rewrite Hj, Hf.
Qed.

(** With one object per topic, the subscribers [find] returns for a topic
    are the ones the topic table binds to it. *)
Lemma boundByTopic_find tops subscriber topic :
  NoDup (to_topic <$> tops) →
  boundByTopic tops subscriber topic ↔
  ∃ i o, list_find (λ v, to_topic v = topic) tops = Some (i, o) ∧
         subscriber ∈ to_subscribers o.
Proof.
  intros Hnodup. split.
  - intros (o & Ho & Ht & Hs).
    destruct (list_find_elem_of (λ v, to_topic v = topic) tops o Ho Ht)
      as [[i o'] Hfind].
    exists i, o'. split; [done|].
    apply list_find_Some in Hfind as (Hi & Ht' & _).
    assert (o' = o) as ->; [|done].
    apply (NoDup_fmap_unique to_topic tops); [done| |done|congruence].
    by eapply list_elem_of_lookup_2.
  - intros (i & o & (Hi & Ht & _)%list_find_Some & Hs).
    exists o. split; [by eapply list_elem_of_lookup_2|done].
Qed.

Lemma listenersOf_NoDup topic w :
  NoDup (listenerKeys (listeners w)) →
  NoDup (l_subscriber <$> listenersOf topic w).
Proof.
  unfold listenersOf, listenerKeys.
  induction (listeners w) as [|l ls IH]; [constructor|].
  rewrite fmap_cons. intros [Hl Hnodup]%NoDup_cons.
  destruct (decide (l_topic l = topic)) as [Ht|Ht].
  - rewrite filter_cons_True by done. rewrite fmap_cons.
    apply NoDup_cons. split; [|by apply IH].
    intros (l' & Hs & [Ht' Hl']%list_elem_of_filter)%list_elem_of_fmap.
    apply Hl. apply list_elem_of_fmap. exists l'. split; [|done].
    by rewrite Hs, Ht, Ht'.
  - rewrite filter_cons_False by done. by apply IH.
Qed.

Lemma forEach_persistInQueue_memory eventId topic content l w :
  let w' := run (forEach (persistInQueue eventId topic content) l) w in
  invocations w' = invocations w ∧ listeners w' = listeners w.
Proof.
  revert w. induction l as [|s l IH]; intros w; [done|].
  cbv zeta in *. unfold run in *. cbn [forEach]. unfold bind.
  rewrite persistInQueue_eq.
  destruct (IH (match queueOf s topic w with
                | Some q => wrote (queueFileName s topic)
                              (enqueued eventId content q) w
                | None => w
                end)) as [-> ->].
  by destruct (queueOf s topic w).
Qed.

(** The fan-out in a consistent registry: every subscriber bound to the
    topic gets the event at the end of its queue. *)
Lemma fanout_bound eventId topic content w :
  registryConsistent w →
  let w' := run (persistEventsInSubscriberQueues eventId topic content) w in
  persistEventsInSubscriberQueues eventId topic content w = (Resolved tt, w') ∧
  invocations w' = invocations w ∧ listeners w' = listeners w ∧
  ∀ subscriber q,
    boundBySubscriber (subscribers w) subscriber topic →
    queueOf subscriber topic w = Some q →
    queueOf subscriber topic w' = Some (enqueued eventId content q).
Proof.
  intros Hc w'. subst w'.
  unfold run, persistEventsInSubscriberQueues, bind, getTopics. simpl.
  destruct (list_find (λ v, to_topic v = topic) (topics w))
    as [[i topicObj]|] eqn:Hfind.
  - destruct (forEach_persistInQueue eventId topic content
                (to_subscribers topicObj) w) as (w' & Hrun & _ & Hsome).
    pose proof (forEach_persistInQueue_memory eventId topic content
                  (to_subscribers topicObj) w) as [Hinv Hls].
    unfold run in Hinv, Hls. rewrite Hrun in *. cbn [snd] in *.
    split_and!; [done..|].
    intros subscriber q Hb Hq.
    assert (NoDup (to_subscribers topicObj)) as Hnodup.
    { pose proof (rc_to_subscribers w Hc) as Hall.
      rewrite Forall_forall in Hall. apply Hall.
      apply list_find_Some in Hfind as (Hi & _).
      by eapply list_elem_of_lookup_2. }
    rewrite (Hsome Hnodup subscriber q Hq). rewrite decide_True; [done|].
    apply (rc_tables w Hc) in Hb.
    apply (boundByTopic_find _ _ _ (rc_topics w Hc)) in Hb
      as (i' & o' & Hfind' & Hin).
    by simplify_eq.
  - split_and!; [done..|].
    intros subscriber q Hb Hq.
    apply (rc_tables w Hc) in Hb.
    apply (boundByTopic_find _ _ _ (rc_topics w Hc)) in Hb
      as (i' & o' & Hfind' & Hin).
    congruence.
Qed.

(** A publication in a consistent registry whose subscriptions have their
    queue documents, with handlers that resolve and an event id that no
    queue of the topic holds. *)
Lemma publish_bound eventId parentId topic content w :
  registryConsistent w →
  subscriptionsHaveQueues w →
  (∀ l, l ∈ listenersOf topic w → ∀ n a b, l_handler l n a b = true) →
  (∀ subscriber q,
     queueOf subscriber topic w = Some q → eventId ∉ processingIds q) →
  let w' := run (publish eventId parentId topic content) w in
  eventsOf topic w' =
    eventsOf topic w ++ [Logged.mk parentId eventId content] ∧
  invocations w' = invocations w + length (listenersOf topic w) ∧
  ∀ subscriber,
    boundBySubscriber (subscribers w) subscriber topic →
    ∃ q q',
      queueOf subscriber topic w = Some q ∧
      queueOf subscriber topic w' = Some q' ∧
      processingEvents q' = processingEvents q ∧
      processedSummary q' = processedSummary q ++ [(eventId, 1)].
Proof.
  intros Hc Hqueues Hok Hfresh w'.
  set (w1 := run (persistEvent eventId topic content parentId) w).
  assert (persistEvent eventId topic content parentId w = (Resolved eventId, w1))
    as Hpe by reflexivity.
  assert (registryConsistent w1) as Hc1
    by (by apply (registryConsistent_ext w)).
  assert (queueFiles (disk w1) = queueFiles (disk w)) as Hqf by reflexivity.
  assert (invocations w1 = invocations w) as Hinv1 by reflexivity.
  assert (listeners w1 = listeners w) as Hls1 by reflexivity.
  assert (subscribers w1 = subscribers w) as Hsubs1 by reflexivity.
  pose proof (persistEvent_eventsOf eventId topic content parentId w) as Hlog1.
  fold w1 in Hlog1.
  destruct (fanout_bound eventId topic content w1 Hc1)
    as (Hfan & Hinv2 & Hls2 & Hq2).
  set (w2 := run (persistEventsInSubscriberQueues eventId topic content) w1)
    in *.
  assert (eventFiles (disk w2) = eventFiles (disk w1)) as Hef2.
  { apply (persistEventsInSubscriberQueues_stable
             (eventFilesAre (eventFiles (disk w1)))); [|done].
    by intros fileName q d H. }
  assert (w' =
          run (forEach
                 (λ l, executeEventHandler (l_handler l) (l_subscriber l)
                         (l_topic l) content 0 eventId)
                 (listenersOf topic w)) w2) as Hw'.
  { subst w'. unfold run at 1, publish.
    rewrite (bind_resolved _ _ _ _ _ Hpe), (bind_resolved _ _ _ _ _ Hfan).
    unfold emit, bind, getListeners. simpl. unfold listenersOf.
    by rewrite Hls2, Hls1. }
  assert (eventFiles (disk w') = eventFiles (disk w2)) as Hef'.
  { assert (eventFilesAre (eventFiles (disk w2))
              (disk (run (emit topic content eventId) w2))) as H.
    { apply (emit_stable (eventFilesAre (eventFiles (disk w2)))); [|done].
      by intros fileName q d H. }
    unfold eventFilesAre in H. rewrite <- H, Hw'.
    unfold run, emit, bind, getListeners. simpl. unfold listenersOf.
    by rewrite Hls2, Hls1. }
  assert (∀ l, l ∈ listenersOf topic w →
               l_topic l = topic ∧
               boundBySubscriber (subscribers w) (l_subscriber l) topic)
    as Hbound.
  { intros l [Ht Hl]%list_elem_of_filter. split; [done|].
    apply (rc_listening w Hc). apply list_elem_of_fmap. exists l.
    split; [by rewrite Ht | done]. }
  destruct (forEach_listeners topic content eventId (listenersOf topic w))
    with (w := w2) as (Hinv & Hdone & _).
  - apply listenersOf_NoDup, (rc_listeners w Hc).
  - apply Forall_forall. intros l Hl. split; [apply Hbound, Hl | by apply Hok].
  - apply Forall_forall. intros l Hl. destruct (Hbound l Hl) as [_ Hb].
    destruct (Hqueues _ _ Hb) as [q Hq]. exists q.
    split; [|by apply (Hfresh (l_subscriber l))].
    apply Hq2; [by rewrite Hsubs1 | exact Hq].
  - clearbody w' w1 w2. subst w'. split_and!.
    + unfold eventsOf in *. by rewrite Hef', Hef2.
    + rewrite Hinv, Hinv2, Hinv1. done.
    + intros subscriber Hb. destruct (Hqueues _ _ Hb) as [q Hq].
      apply (rc_listening w Hc) in Hb as Hkey.
      apply list_elem_of_fmap in Hkey as (l & [= -> Ht] & Hl).
      assert (l ∈ listenersOf topic w) as Hin
        by (apply list_elem_of_filter; by split).
      destruct (Hdone l q Hin) as (q' & Hq' & Hing & Hed).
      { apply Hq2; [by rewrite Hsubs1|]. unfold queueOf. rewrite Hqf.
        exact Hq. }
      by exists q, q'.
Qed.

(** X18. A published event reaches every subscriber of its topic once.
    In a world that registering, subscribing and publishing have produced,
    one call after the other and with no delivery still under way, when the
    handlers listening to the topic resolve and the event id is new to the
    queues of the topic, [publish] appends the event to the log of the
    topic, calls each listener's handler once, and leaves the queue of
    every subscriber bound to the topic with the event in
    [processedEvents], recorded with one try, and with [processingEvents]
    as before the publication.  The deliveries are to distinct subscribers
    and so to distinct queue files. *)
Theorem published_event_is_processed_by_every_subscriber eventId parentId
    topic content w :
  rtc apiStep initialWorld w →
  (∀ l, l ∈ listenersOf topic w → ∀ n a b, l_handler l n a b = true) →
  (∀ subscriber q,
     queueOf subscriber topic w = Some q → eventId ∉ processingIds q) →
  let w' := run (publish eventId parentId topic content) w in
  eventsOf topic w' =
    eventsOf topic w ++ [Logged.mk parentId eventId content] ∧
  invocations w' = invocations w + length (listenersOf topic w) ∧
  ∀ subscriber,
    boundBySubscriber (subscribers w) subscriber topic →
    ∃ q q',
      queueOf subscriber topic w = Some q ∧
      queueOf subscriber topic w' = Some q' ∧
      processingEvents q' = processingEvents q ∧
      processedSummary q' = processedSummary q ++ [(eventId, 1)].
Proof.
  intros Hreach. apply publish_bound.
  - exact (apiSteps_consistent _ _ Hreach registryConsistent_initial).
  - exact (apiSteps_queues _ _ Hreach subscriptionsHaveQueues_initial).
Qed.

(** * Instances of the further theorems on concrete worlds *)

Lemma undeliverable_event_is_retried_blindly_witness :
  notDeliverable PAYMENT ORDER_CREATED "e1" initialWorld
    (QueueNotFoundError (queueFileName PAYMENT ORDER_CREATED)) ∧
  let delivery :=
    executeEventHandler (always true) PAYMENT ORDER_CREATED "x" 0 "e1"
      initialWorld in
  delivery.1 = Resolved tt ∧
  disk delivery.2 = disk initialWorld ∧
  invocations delivery.2 = invocations initialWorld ∧
  trace delivery.2 =
    trace initialWorld ++ replicate (5 - 0) (SetTimeout 5000%N) ∧
  now delivery.2 = (now initialWorld + 5000 * N.of_nat (5 - 0))%N.
Proof.
  assert (notDeliverable PAYMENT ORDER_CREATED "e1" initialWorld
            (QueueNotFoundError (queueFileName PAYMENT ORDER_CREATED))) as H
    by (apply queue_missing; reflexivity).
  exact (conj H
           (undeliverable_event_is_retried_blindly (always true) PAYMENT
              ORDER_CREATED "x" 0 "e1" initialWorld _ H)).
Defined.

Lemma repeatedWorld_queue :
  queueOf PAYMENT ORDER_CREATED repeatedWorld = Some repeatedQueue.
Proof. apply queueOf_wrote. Defined.

Lemma acknowledgement_drops_every_entry_of_the_event_witness :
  queueOf PAYMENT ORDER_CREATED repeatedWorld = Some repeatedQueue ∧
  "e1" ∈ processingIds repeatedQueue ∧
  ∃ i v q',
    list_find (hasEventId "e1") (processingEvents repeatedQueue) =
      Some (i, v) ∧
    eventAcknowledged PAYMENT ORDER_CREATED "e1" repeatedWorld =
      (Resolved tt,
       wrote (queueFileName PAYMENT ORDER_CREATED) q' repeatedWorld) ∧
    processingEvents q' =
      filter (λ x, ¬ hasEventId "e1" x) (processingEvents repeatedQueue) ∧
    processedEvents q' =
      processedEvents repeatedQueue ++
      [Processed.mk "e1" (Processing.tries v) (now repeatedWorld)] ∧
    queue_subscriber q' = queue_subscriber repeatedQueue ∧
    queue_topic q' = queue_topic repeatedQueue.
Proof.
  assert ("e1" ∈ processingIds repeatedQueue) as Hin
    by (apply (bool_decide_unpack _); vm_compute; exact I).
  exact (conj repeatedWorld_queue (conj Hin
           (acknowledgement_drops_every_entry_of_the_event PAYMENT
              ORDER_CREATED "e1" repeatedWorld repeatedQueue
              repeatedWorld_queue Hin))).
Defined.

Lemma delivery_succeeds_after_failures_witness :
  let w' :=
    run (executeEventHandler (failsFirst 2) PAYMENT ORDER_CREATED "x" 0 "e1")
      demoWorld in
  queueOf PAYMENT ORDER_CREATED demoWorld = Some demoQueue ∧
  list_find (hasEventId "e1") (processingEvents demoQueue) =
    Some (0, Processing.mk "e1" "x" 0) ∧
  0 + 2 < 5 ∧
  (∀ k, k < 2 → failsFirst 2 (invocations demoWorld + k) "e1" "x" = false) ∧
  failsFirst 2 (invocations demoWorld + 2) "e1" "x" = true ∧
  invocations w' = invocations demoWorld + S 2 ∧
  now w' = (now demoWorld + 5000 * N.of_nat (S 2))%N ∧
  ∃ q',
    queueOf PAYMENT ORDER_CREATED w' = Some q' ∧
    processedEvents q' =
      processedEvents demoQueue ++
      [Processed.mk "e1" (Processing.tries (Processing.mk "e1" "x" 0) + S 2)
         (now demoWorld + 5000 * N.of_nat (S 2))%N] ∧
    processingEvents q' =
      filter (λ x, ¬ hasEventId "e1" x) (processingEvents demoQueue).
Proof.
  intros w'.
  assert (0 + 2 < 5) as Hn by lia.
  assert (∀ k, k < 2 →
               failsFirst 2 (invocations demoWorld + k) "e1" "x" = false)
    as Hfail.
  { intros k Hk. unfold failsFirst. apply Nat.leb_gt.
    change (invocations demoWorld) with 0. lia. }
  assert (failsFirst 2 (invocations demoWorld + 2) "e1" "x" = true) as Hok
    by reflexivity.
  exact (conj demoWorld_queue (conj demoQueue_find (conj Hn (conj Hfail
           (conj Hok
              (delivery_succeeds_after_failures (failsFirst 2) PAYMENT
                 ORDER_CREATED "x" 0 "e1" demoWorld demoQueue 0
                 (Processing.mk "e1" "x" 0) 2 demoWorld_queue demoQueue_find
                 Hn Hfail Hok)))))).
Defined.

Lemma acknowledged_event_is_not_redelivered_witness :
  let w' :=
    run (executeEventHandler (always true) PAYMENT ORDER_CREATED "x" 0 "e1")
      demoWorld in
  queueOf PAYMENT ORDER_CREATED demoWorld = Some demoQueue ∧
  "e1" ∈ processingIds demoQueue ∧
  0 < 5 ∧
  always true (invocations demoWorld) "e1" "x" = true ∧
  ∀ eventHandler' content' tries',
    let again :=
      executeEventHandler eventHandler' PAYMENT ORDER_CREATED content' tries'
        "e1" w' in
    again.1 = Resolved tt ∧
    disk again.2 = disk w' ∧
    invocations again.2 = invocations w'.
Proof.
  intros w'.
  assert ("e1" ∈ processingIds demoQueue) as Hin
    by (apply (bool_decide_unpack _); vm_compute; exact I).
  assert (0 < 5) as Hlt by lia.
  assert (always true (invocations demoWorld) "e1" "x" = true) as Hok
    by reflexivity.
  exact (conj demoWorld_queue (conj Hin (conj Hlt (conj Hok
           (acknowledged_event_is_not_redelivered (always true) PAYMENT
              ORDER_CREATED "x" 0 "e1" demoWorld demoQueue demoWorld_queue
              Hin Hlt Hok))))).
Defined.

Lemma publish_without_subscribers_only_logs_witness :
  let w' := run (publish "e1" "p0" ORDER_CREATED "x") initialWorld in
  list_find (λ v, to_topic v = ORDER_CREATED) (topics initialWorld) = None ∧
  filter (λ l, l_topic l = ORDER_CREATED) (listeners initialWorld) = [] ∧
  publish "e1" "p0" ORDER_CREATED "x" initialWorld =
    (Resolved tt, run (persistEvent "e1" ORDER_CREATED "x" "p0") initialWorld) ∧
  eventsOf ORDER_CREATED w' =
    eventsOf ORDER_CREATED initialWorld ++ [Logged.mk "p0" "e1" "x"] ∧
  queueFiles (disk w') = queueFiles (disk initialWorld) ∧
  invocations w' = invocations initialWorld ∧
  ∃ log,
    trace w' = trace initialWorld ++ [WriteLog (eventsFileName ORDER_CREATED) log].
Proof.
  intros w'.
  assert (list_find (λ v, to_topic v = ORDER_CREATED) (topics initialWorld) =
          None) as Htop by reflexivity.
  assert (filter (λ l, l_topic l = ORDER_CREATED) (listeners initialWorld) =
          []) as Hls by reflexivity.
  exact (conj Htop (conj Hls
           (publish_without_subscribers_only_logs "e1" "p0" ORDER_CREATED "x"
              initialWorld Htop Hls))).
Defined.

Lemma event_published_before_resubscription_is_missed_witness :
  let w' := run (publish "e3" "p0" ORDER_CREATED "z") restoredWorld in
  list_find (λ v, to_topic v = ORDER_CREATED) (topics restoredWorld) = None ∧
  filter (λ l, l_topic l = ORDER_CREATED) (listeners restoredWorld) = [] ∧
  queueOf PAYMENT ORDER_CREATED restoredWorld = Some restoredQueue ∧
  Logged.mk "p0" "e3" "z" ∈ eventsOf ORDER_CREATED w' ∧
  queueOf PAYMENT ORDER_CREATED w' = Some restoredQueue ∧
  loadDomainTopicQueue PAYMENT ORDER_CREATED w' = (Resolved restoredQueue, w').
Proof.
  intros w'.
  assert (list_find (λ v, to_topic v = ORDER_CREATED) (topics restoredWorld) =
          None) as Htop by reflexivity.
  assert (filter (λ l, l_topic l = ORDER_CREATED) (listeners restoredWorld) =
          []) as Hls by reflexivity.
  exact (conj Htop (conj Hls (conj restoredWorld_queue
           (event_published_before_resubscription_is_missed "e3" "p0"
              ORDER_CREATED "z" PAYMENT restoredWorld restoredQueue Htop Hls
              restoredWorld_queue)))).
Defined.

Lemma servedTwiceWorld_step : rtc step servedWorld servedTwiceWorld.
Proof.
  apply rtc_once, (step_publish "e2" "p0" ORDER_CREATED "y").
  apply (bool_decide_unpack _). vm_compute. exact I.
Defined.

Lemma event_log_only_grows_witness :
  rtc step servedWorld servedTwiceWorld ∧
  eventsOf ORDER_CREATED servedWorld `prefix_of`
    eventsOf ORDER_CREATED servedTwiceWorld.
Proof.
  exact (conj servedTwiceWorld_step
           (event_log_only_grows ORDER_CREATED servedWorld servedTwiceWorld
              servedTwiceWorld_step)).
Defined.

Lemma processed_events_only_grow_witness :
  rtc step servedWorld servedTwiceWorld ∧
  queueOf PAYMENT ORDER_CREATED servedWorld = Some servedQueue ∧
  ∃ q', queueOf PAYMENT ORDER_CREATED servedTwiceWorld = Some q' ∧
        processedEvents servedQueue `prefix_of` processedEvents q'.
Proof.
  exact (conj servedTwiceWorld_step (conj servedWorld_queue
           (processed_events_only_grow PAYMENT ORDER_CREATED servedWorld
              servedTwiceWorld servedQueue servedTwiceWorld_step
              servedWorld_queue))).
Defined.

Lemma registeredWorld_object : subscribers registeredWorld !! 0 = Some paymentObj.
Proof. reflexivity. Defined.


Lemma subscription_to_a_topic_happens_once_witness :
  subscribers registeredWorld !! 0 = Some paymentObj ∧
  (ORDER_CREATED ∈ so_topics paymentObj →
   subscription 0 PAYMENT ORDER_CREATED (always true) registeredWorld =
   (Rejected (DuplicateSubscriptionError PAYMENT ORDER_CREATED),
    registeredWorld)) ∧
  let w' :=
    run (subscription 0 PAYMENT ORDER_CREATED (always true)) registeredWorld in
  subscription 0 PAYMENT ORDER_CREATED (always false) w' =
  (Rejected (DuplicateSubscriptionError PAYMENT ORDER_CREATED), w').
Proof.
  exact (conj registeredWorld_object
           (subscription_to_a_topic_happens_once 0 PAYMENT ORDER_CREATED
              (always true) (always false) registeredWorld paymentObj
              registeredWorld_object)).
Defined.

Lemma subscribedWorld_steps : rtc apiStep initialWorld subscribedWorld.
Proof.
  unfold subscribedWorld, registeredWorld.
  eapply rtc_l; [apply (api_register PAYMENT)|].
  apply rtc_once.
  apply (api_subscribe 0 PAYMENT ORDER_CREATED (always true) _ paymentObj);
    reflexivity.
Defined.

Lemma registry_stays_consistent_witness :
  rtc apiStep initialWorld subscribedWorld ∧
  registryConsistent subscribedWorld ∧
  ∀ w' ref o,
    apiStep subscribedWorld w' →
    subscribers subscribedWorld !! ref = Some o →
    ∃ o', subscribers w' !! ref = Some o' ∧ so_subscriber o' = so_subscriber o.
Proof.
  exact (conj subscribedWorld_steps
           (registry_stays_consistent subscribedWorld subscribedWorld_steps)).
Defined.

Lemma subscribedWorld_bound :
  boundBySubscriber (subscribers subscribedWorld) PAYMENT ORDER_CREATED.
Proof.
  exists {| so_subscriber := PAYMENT; so_topics := [ORDER_CREATED] |}.
  split_and!.
  - apply (list_elem_of_lookup_2 _ 0). reflexivity.
  - reflexivity.
  - apply (bool_decide_unpack _). vm_compute. exact I.
Defined.

Lemma every_subscription_has_its_queue_witness :
  rtc apiStep initialWorld subscribedWorld ∧
  boundBySubscriber (subscribers subscribedWorld) PAYMENT ORDER_CREATED ∧
  is_Some (queueOf PAYMENT ORDER_CREATED subscribedWorld).
Proof.
  exact (conj subscribedWorld_steps (conj subscribedWorld_bound
           (every_subscription_has_its_queue subscribedWorld PAYMENT
              ORDER_CREATED subscribedWorld_steps subscribedWorld_bound))).
Defined.

Lemma subscribedWorld_listeners :
  listenersOf ORDER_CREATED subscribedWorld = [paymentListener].
Proof. vm_compute. reflexivity. Defined.

Lemma published_event_is_processed_by_every_subscriber_witness :
  let w' := run (publish "e1" "p0" ORDER_CREATED "x") subscribedWorld in
  rtc apiStep initialWorld subscribedWorld ∧
  (∀ l, l ∈ listenersOf ORDER_CREATED subscribedWorld →
        ∀ n a b, l_handler l n a b = true) ∧
  (∀ subscriber q,
     queueOf subscriber ORDER_CREATED subscribedWorld = Some q →
     "e1" ∉ processingIds q) ∧
  eventsOf ORDER_CREATED w' =
    eventsOf ORDER_CREATED subscribedWorld ++ [Logged.mk "p0" "e1" "x"] ∧
  invocations w' =
    invocations subscribedWorld +
    length (listenersOf ORDER_CREATED subscribedWorld) ∧
  ∀ subscriber,
    boundBySubscriber (subscribers subscribedWorld) subscriber ORDER_CREATED →
    ∃ q q',
      queueOf subscriber ORDER_CREATED subscribedWorld = Some q ∧
      queueOf subscriber ORDER_CREATED w' = Some q' ∧
      processingEvents q' = processingEvents q ∧
      processedSummary q' = processedSummary q ++ [("e1", 1)].
Proof.
  intros w'.
  assert (∀ l, l ∈ listenersOf ORDER_CREATED subscribedWorld →
               ∀ n a b, l_handler l n a b = true) as Hok.
  { intros l Hl. rewrite subscribedWorld_listeners in Hl.
    by apply list_elem_of_singleton in Hl as ->. }
  assert (∀ subscriber q,
            queueOf subscriber ORDER_CREATED subscribedWorld = Some q →
            "e1" ∉ processingIds q) as Hfresh.
  { intros subscriber q Hq.
    destruct subscriber; vm_compute in Hq; try discriminate Hq.
    injection Hq as <-. apply not_elem_of_nil. }
  exact (conj subscribedWorld_steps (conj Hok (conj Hfresh
           (published_event_is_processed_by_every_subscriber "e1" "p0"
              ORDER_CREATED "x" subscribedWorld subscribedWorld_steps Hok
              Hfresh)))).
Defined.

Lemma announcedWorld_object :
  ORDER_CREATED ∉ so_topics (subscriberObjAt 0 PAYMENT announcedWorld).
Proof. apply (bool_decide_unpack _). vm_compute. exact I. Defined.

Lemma announcedWorld_queue :
  queueOf PAYMENT ORDER_CREATED announcedWorld = None.
Proof. vm_compute. reflexivity. Defined.

Lemma announcedQueue_entries :
  processingEvents announcedQueue = [Processing.mk "e1" "x" 0].
Proof. vm_compute. reflexivity. Defined.

Lemma returningWorld_object :
  ORDER_CREATED ∉ so_topics (subscriberObjAt 0 PAYMENT returningWorld).
Proof. apply (bool_decide_unpack _). vm_compute. exact I. Defined.

Lemma returningWorld_queue :
  queueOf PAYMENT ORDER_CREATED returningWorld = Some restoredQueue.
Proof. apply queueOf_wrote. Defined.

Lemma queue_initialization_witness :
  let started :=
    wrote (queueFileName PAYMENT ORDER_CREATED) announcedQueue
      (bound 0 PAYMENT ORDER_CREATED announcedWorld) in
  let resumed := bound 0 PAYMENT ORDER_CREATED returningWorld in
  processingEvents announcedQueue = [Processing.mk "e1" "x" 0] ∧
  (ORDER_CREATED ∉ so_topics (subscriberObjAt 0 PAYMENT announcedWorld)) ∧
  queueOf PAYMENT ORDER_CREATED announcedWorld = None ∧
  (ORDER_CREATED ∉ so_topics (subscriberObjAt 0 PAYMENT returningWorld)) ∧
  queueOf PAYMENT ORDER_CREATED returningWorld = Some restoredQueue ∧
  (subscription 0 PAYMENT ORDER_CREATED (always true) announcedWorld =
     (replay (always true) PAYMENT ORDER_CREATED announcedQueue >>
      emitterOn paymentListener) started ∧
   queueOf PAYMENT ORDER_CREATED started = Some announcedQueue ∧
   ∃ tr,
     trace (run (subscription 0 PAYMENT ORDER_CREATED (always true))
              announcedWorld) =
     trace announcedWorld ++
     WriteQueue (queueFileName PAYMENT ORDER_CREATED) announcedQueue :: tr) ∧
  subscription 0 PAYMENT ORDER_CREATED (always true) returningWorld =
    (replay (always true) PAYMENT ORDER_CREATED restoredQueue >>
     emitterOn paymentListener) resumed ∧
  disk resumed = disk returningWorld ∧
  trace resumed = trace returningWorld.
Proof.
  intros started resumed.
  exact (conj announcedQueue_entries (conj announcedWorld_object
           (conj announcedWorld_queue (conj returningWorld_object
              (conj returningWorld_queue
                 (conj
                    (proj1 (proj2 (proj2 (proj2
                       (queue_initialization PAYMENT ORDER_CREATED
                          announcedWorld))))
                       0 (always true) announcedWorld_object
                       announcedWorld_queue)
                    (proj2 (proj2 (proj2 (proj2 (proj2
                       (queue_initialization PAYMENT ORDER_CREATED
                          returningWorld)))))
                       0 (always true) restoredQueue returningWorld_object
                       returningWorld_queue))))))).
Defined.
